(** * Connect4Discord: the board, the win scan, the evaluator and the search

    A shallow embedding of [assets/model/Board.js], of the [Room] class
    (rules of the game, heuristic score and minimax with alpha-beta cuts)
    and of the text of the board that [assets/view/View.js] displays.

    The [Square] objects of a board are mutable and are reached through
    references, so they live in an explicit object store: a board is a grid
    of addresses, and [copy] allocates new squares.  Methods that only read
    a board are functions of its current contents (a grid of square types);
    methods that write thread the store. *)

From Stdlib Require Import ZArith Lia Bool String Ascii DecimalString Sorted.
From stdpp Require Import base tactics option list.

Local Open Scope Z_scope.

(** ** JavaScript numbers *)

(** The numbers the program computes with are integers, the two infinities
    used as the initial search window, and [undefined] (the initial value of
    [bestPos], an out-of-range array read).  [undefined] behaves as [NaN] in
    every numeric position: comparisons with it are false and [Math.max] and
    [Math.min] propagate it. *)
Inductive jsnum : Type :=
  | NaN
  | NegInf
  | Int (z : Z)
  | PosInf.

#[global] Instance jsnum_eq_dec : EqDecision jsnum.
Proof. solve_decision. Defined.

Definition isNaN (a : jsnum) : bool :=
  match a with NaN => true | _ => false end.

(** [a < b] *)
Definition jlt (a b : jsnum) : bool :=
  match a, b with
  | NaN, _ | _, NaN => false
  | NegInf, NegInf => false
  | NegInf, _ => true
  | Int _, NegInf => false
  | Int x, Int y => x <? y
  | Int _, PosInf => true
  | PosInf, _ => false
  end.

(** [a <= b] *)
Definition jle (a b : jsnum) : bool :=
  match a, b with
  | NaN, _ | _, NaN => false
  | NegInf, _ => true
  | Int _, NegInf => false
  | Int x, Int y => x <=? y
  | Int _, PosInf => true
  | PosInf, PosInf => true
  | PosInf, _ => false
  end.

Definition jgt (a b : jsnum) : bool := jlt b a.
Definition jge (a b : jsnum) : bool := jle b a.

(** [Math.max(a, b)] and [Math.min(a, b)] *)
Definition Math_max (a b : jsnum) : jsnum :=
  match a, b with
  | NaN, _ | _, NaN => NaN
  | _, _ => if jlt a b then b else a
  end.

Definition Math_min (a b : jsnum) : jsnum :=
  match a, b with
  | NaN, _ | _, NaN => NaN
  | _, _ => if jlt b a then b else a
  end.

(** ** Control structures *)

(** [for (let i = lo; i < hi; i++)] visits [upto lo hi];
    [for (let i = hi; i > lo; i--)] visits [downto hi lo]. *)
Definition upto (lo hi : Z) : list Z :=
  map (fun i => lo + Z.of_nat i) (seq 0 (Z.to_nat (hi - lo))).

Definition downto (hi lo : Z) : list Z :=
  map (fun i => hi - Z.of_nat i) (seq 0 (Z.to_nat (hi - lo))).

(** A loop whose body may [return]: the first iteration that returns. *)
Fixpoint for_return {A B : Type} (l : list A) (body : A -> option B) : option B :=
  match l with
  | [] => None
  | a :: l' => match body a with
               | Some b => Some b
               | None => for_return l' body
               end
  end.

(** [while (cond) body], with a bound on the number of iterations (every
    [while] of the program counts four cells). *)
Fixpoint while {S : Type} (fuel : nat) (cond : S -> bool) (body : S -> S) (s : S) : S :=
  match fuel with
  | O => s
  | Datatypes.S fuel' => if cond s then while fuel' cond body (body s) else s
  end.

(** ** Squares *)

(** Modelled from the spec: [SquareType.js] and [Square.js] are not among the
    sources.  A cell is Empty or Occupied by one of the two sides; the board
    code uses the constants [EMPTY], [RED] and [BLUE], a square's [type],
    [isEmpty()] and [setType(type)]. *)
Inductive SquareType : Type := EMPTY | RED | BLUE.

#[global] Instance SquareType_eq_dec : EqDecision SquareType.
Proof. solve_decision. Defined.

(** [a === b] on square types *)
Definition same_type (a b : SquareType) : bool := bool_decide (a = b).

Definition isEmpty (t : SquareType) : bool := same_type t EMPTY.

(** The other side. *)
Definition other_side (t : SquareType) : SquareType :=
  match t with EMPTY => EMPTY | RED => BLUE | BLUE => RED end.

(** ** The object store *)

(** A [Square] object is its mutable [type] field; its address is its index
    in the store.  [new Square()] appends an empty square. *)
Abbreviation addr := nat.
Abbreviation store := (list SquareType).

Inductive res (A : Type) : Type :=
  | Ok (a : A)
  | Throw (msg : string).
Arguments Ok {A} a.
Arguments Throw {A} msg.

(** Computations that read and write the store and may throw; what was
    written before a [throw] stays written. *)
Definition M (A : Type) : Type := store -> res A * store.

Definition ret {A} (a : A) : M A := fun h => (Ok a, h).
Definition throw {A} (msg : string) : M A := fun h => (Throw msg, h).
Definition bind {A B} (c : M A) (k : A -> M B) : M B :=
  fun h => match c h with
           | (Ok a, h') => k a h'
           | (Throw msg, h') => (Throw msg, h')
           end.
(** a computation that cannot write *)
Definition lift {A} (r : res A) : M A := fun h => (r, h).

Notation "'do' x <- c ; k" := (bind c (fun x => k))
  (at level 20, x pattern, c at level 100, k at level 200, only parsing).
Notation "c ;; k" := (bind c (fun _ => k))
  (at level 100, k at level 200, right associativity, only parsing).

Definition new_Square : M addr :=
  fun h => (Ok (length h), h ++ [EMPTY]).

Definition type_of (a : addr) (h : store) : SquareType :=
  default EMPTY (h !! a).

Definition setType (a : addr) (t : SquareType) : M unit :=
  fun h => (Ok tt, <[a := t]> h).

(** [for (a of l) s = body(a, s)] in the store monad. *)
Fixpoint forM {A S : Type} (l : list A) (body : A -> S -> M S) (s : S) : M S :=
  match l with
  | [] => ret s
  | a :: l' => do s' <- body a s; forM l' body s'
  end.

(** ** Board *)

Definition rows : Z := 6.
Definition cols : Z := 7.

(** The contents of a board: column-major, [g[x][y]]. *)
Abbreviation grid := (list (list SquareType)).

(** [squares[x][y].type]; the program reads inside the board only (see
    [runs_in_board] and the range checks of the methods). *)
Definition sq (g : grid) (x y : Z) : SquareType :=
  if (x <? 0) || (y <? 0) then EMPTY
  else default EMPTY (col ← g !! Z.to_nat x; col !! Z.to_nat y).

(** The write of [setSquare] seen on the contents. *)
Definition grid_set (g : grid) (x y : Z) (t : SquareType) : grid :=
  match g !! Z.to_nat x with
  | Some col => <[Z.to_nat x := <[Z.to_nat y := t]> col]> g
  | None => g
  end.

Definition empty_grid : grid :=
  replicate (Z.to_nat cols) (replicate (Z.to_nat rows) EMPTY).

(** A board object is its [_squares]: an array of [cols] arrays of [rows]
    references. *)
Abbreviation board := (list (list nat)).

Module Board.


(** What the board holds in store [h]. *)
Definition contents (h : store) (b : board) : grid :=
  map (map (fun a => type_of a h)) b.

(** [constructor()] *)
Definition new : M board :=
  forM (upto 0 cols) (fun _ squares =>
    do col <- forM (upto 0 rows) (fun _ col =>
                do s <- new_Square; ret (col ++ [s])) [];
    ret (squares ++ [col])) [].

Definition invalid (a : jsnum) (bound : Z) : bool :=
  isNaN a || jlt a (Int 0) || jge a (Int bound).

(** [this._squares[x][y]], for numbers that passed the range checks *)
Definition ref (b : board) (x y : jsnum) : res addr :=
  match x, y with
  | Int x, Int y =>
      match (col ← b !! Z.to_nat x; col !! Z.to_nat y) with
      | Some a => Ok a
      | None => Throw "TypeError"%string
      end
  | _, _ => Throw "TypeError"%string
  end.

(** [setSquare(x, y, type)] *)
Definition setSquare (b : board) (x y : jsnum) (type : SquareType) : M unit :=
  if invalid x cols then throw "X pos of the square invalid."%string
  else if invalid y rows then throw "Y pos of the square invalid."%string
  else if same_type type EMPTY then throw "Cannot set the value of a square as empty."%string
  else do a <- lift (ref b x y);
       fun h =>
         if negb (isEmpty (type_of a h)) then throw "The square is not empty."%string h
         else if negb (same_type type RED) && negb (same_type type BLUE)
              then throw "Invalid type of square."%string h
              else setType a type h.

(** [getSquare(x, y)] *)
Definition getSquare (b : board) (x y : jsnum) : res addr :=
  if invalid x cols then Throw "X pos of the square invalid."%string
  else if invalid y rows then Throw "Y pos of the square invalid."%string
  else ref b x y.

(** [hasFreeSquare(col)] *)
Definition hasFreeSquare (g : grid) (col : jsnum) : res bool :=
  if invalid col cols then Throw "Column invalid."%string
  else match col with
       | Int x =>
           Ok (match for_return (upto 0 rows)
                       (fun y => if isEmpty (sq g x y) then Some true else None) with
               | Some r => r
               | None => false
               end)
       | _ => Throw "TypeError"%string
       end.

(** [getFree()] *)
Definition getFree (g : grid) : res (list Z) :=
  fold_left (fun acc x =>
               match acc with
               | Ok free =>
                   match hasFreeSquare g (Int x) with
                   | Ok true => Ok (free ++ [x])
                   | Ok false => Ok free
                   | Throw m => Throw m
                   end
               | Throw m => Throw m
               end)
            (upto 0 cols) (Ok []).

(** [getFirstFreeSquarePos(col)]; [undefined] when the loop ends without
    returning. *)
Definition getFirstFreeSquarePos (g : grid) (col : jsnum) : res jsnum :=
  if invalid col cols then Throw "Column invalid."%string
  else match hasFreeSquare g col with
       | Throw m => Throw m
       | Ok false => Throw "There is no free square in this column."%string
       | Ok true =>
           match col with
           | Int x =>
               Ok (match for_return (downto (rows - 1) (-1))
                           (fun y => if isEmpty (sq g x y) then Some (Int y) else None) with
                   | Some r => r
                   | None => NaN
                   end)
           | _ => Throw "TypeError"%string
           end
       end.

(** The body of the loops of [copy()], for the square [(x, y)].  The arrays
    of the new board are not shared with anything, so the assignment
    [copy._squares[x][y] = new Square()] is an update of the local value. *)
Definition copy_square (this : board) (x y : Z) (copy : board) : M board :=
  do s <- new_Square;
  let copy := match copy !! Z.to_nat x with
              | Some col => <[Z.to_nat x := <[Z.to_nat y := s]> col]> copy
              | None => copy
              end in
  do a <- lift (getSquare this (Int x) (Int y));
  do e <- (fun h => (Ok (isEmpty (type_of a h)), h));
  if negb e then
    do a' <- lift (getSquare this (Int x) (Int y));
    do ty <- (fun h => (Ok (type_of a' h), h));
    setType s ty;;
    ret copy
  else ret copy.

(** [copy()] *)
Definition copy (this : board) : M board :=
  do copy <- new;
  forM (upto 0 cols) (fun x copy =>
    forM (upto 0 rows) (fun y copy => copy_square this x y copy) copy) copy.

(** The drop of a mark in a column, as both callers write it:
    [b.setSquare(pos, b.getFirstFreeSquarePos(pos), type)]. *)
Definition drop (b : board) (pos : jsnum) (type : SquareType) : M unit :=
  fun h =>
    match getFirstFreeSquarePos (contents h b) pos with
    | Throw m => (Throw m, h)
    | Ok y => setSquare b pos y type h
    end.

End Board.

(** ** Players *)

(** Modelled from the spec: [PlayerType.js] and [Player.js] are not among the
    sources.  A player is a human or one of five bot tiers (the constants the
    room switches on), and pairs an identity with its control type and its
    side. *)
Inductive PlayerType : Type :=
  HUMAN | EASY_BOT | NORMAL_BOT | STUPID_BOT | RANDOM_BOT | CHEAT_BOT.

#[global] Instance PlayerType_eq_dec : EqDecision PlayerType.
Proof. solve_decision. Defined.

Record Player : Type := mkPlayer {
  member : option string;      (* the guild member, [null] for a bot *)
  type : PlayerType;
  squareType : SquareType
}.

(** ** Room *)

Definition CENTER_POINTS : Z := 4.
Definition LINES2_POINTS : Z := 2.
Definition LINES3_POINTS : Z := 5.
Definition WIN_POINTS : Z := 10000.
Definition OPP_LINES2_POINTS : Z := -2.
Definition OPP_LINES3_POINTS : Z := -5.
Definition OPP_WIN_POINTS : Z := -1000.

(** [_players] is a two-element array that is never resized; the index
    [_currentPlayer] is 0 or 1. *)
Record Room : Type := mkRoom {
  _board : board;
  _players : Player * Player;
  _currentPlayer : nat
}.

Definition player_at (ps : Player * Player) (i : nat) : Player :=
  match i with O => fst ps | _ => snd ps end.

(** [get currentPlayer()] *)
Definition currentPlayer (this : Room) : Player :=
  player_at (_players this) (_currentPlayer this).

(** [get opponentPlayer()] *)
Definition opponentPlayer (this : Room) : Player :=
  player_at (_players this) ((_currentPlayer this + 1) mod 2)%nat.

(** [swapPlayer()] *)
Definition swapPlayer (this : Room) : Room :=
  mkRoom (_board this) (_players this) ((_currentPlayer this + 1) mod 2)%nat.

(** [_calcScore(nb_empty, nb_square)] *)
Definition _calcScore (nb_empty nb_square : Z) : Z :=
  match nb_empty with
  | 0 => match nb_square with
         | 0 => OPP_WIN_POINTS
         | 4 => WIN_POINTS
         | _ => 0
         end
  | 1 => match nb_square with
         | 0 => OPP_LINES3_POINTS
         | 3 => LINES3_POINTS
         | _ => 0
         end
  | 2 => match nb_square with
         | 0 => OPP_LINES2_POINTS
         | 2 => LINES2_POINTS
         | _ => 0
         end
  | _ => 0
  end.

(** The counting [while] of [_getScore]: four cells from [cpt = start],
    [cell cpt] being the square read at each step and [next] the update of
    [cpt]; the result is [(nb_empty, nb_player_square)]. *)
Definition count4 (g : grid) (mine : SquareType) (cell : Z -> Z * Z)
    (cond : Z -> bool) (next : Z -> Z) (start : Z) : Z * Z :=
  let '(_, nb_empty, nb_player_square) :=
    while 4 (fun '(cpt, _, _) => cond cpt)
      (fun '(cpt, nb_empty, nb_player_square) =>
         let '(cx, cy) := cell cpt in
         if isEmpty (sq g cx cy) then (next cpt, nb_empty + 1, nb_player_square)
         else if same_type (sq g cx cy) mine then (next cpt, nb_empty, nb_player_square + 1)
         else (next cpt, nb_empty, nb_player_square))
      (start, 0, 0) in
  (nb_empty, nb_player_square).

(** The five terms of [_getScore(board, player)], one per block of the
    method ([mine] is [player.squareType]). *)
Definition center_points (g : grid) (mine : SquareType) : Z :=
  fold_left (fun center_points y =>
               if same_type (sq g (cols / 2) y) mine
               then center_points + CENTER_POINTS else center_points)
            (downto (rows - 1) (-1)) 0.

Definition vertical_points (g : grid) (mine : SquareType) : Z :=
  fold_left (fun acc x =>
    fold_left (fun vertical_points y =>
      let '(nb_empty, nb_player_square) :=
        count4 g mine (fun cpt => (x, cpt)) (fun cpt => cpt >? y - 4) Z.pred y in
      vertical_points + _calcScore nb_empty nb_player_square)
    (downto (rows - 1) 2) acc) (upto 0 cols) 0.

Definition horizontal_points (g : grid) (mine : SquareType) : Z :=
  fold_left (fun acc y =>
    fold_left (fun horizontal_points x =>
      let '(nb_empty, nb_player_square) :=
        count4 g mine (fun cpt => (cpt, y)) (fun cpt => cpt <? x + 4) Z.succ x in
      horizontal_points + _calcScore nb_empty nb_player_square)
    (upto 0 (cols - 3)) acc) (downto (rows - 1) (-1)) 0.

Definition diagonal_points (g : grid) (mine : SquareType) : Z :=
  fold_left (fun acc x =>
    fold_left (fun diagonal_points y =>
      let '(nb_empty, nb_player_square) :=
        count4 g mine (fun cpt => (x + (y - cpt), cpt)) (fun cpt => cpt >? y - 4) Z.pred y in
      diagonal_points + _calcScore nb_empty nb_player_square)
    (downto (rows - 1) 2) acc) (upto 0 (cols - 3)) 0.

Definition anti_diagonal_points (g : grid) (mine : SquareType) : Z :=
  fold_left (fun acc x =>
    fold_left (fun anti_diagonal_points y =>
      let '(nb_empty, nb_player_square) :=
        count4 g mine (fun cpt => (x - (y - cpt), cpt)) (fun cpt => cpt >? y - 4) Z.pred y in
      anti_diagonal_points + _calcScore nb_empty nb_player_square)
    (downto (rows - 1) 2) acc) (downto (cols - 1) 2) 0.

(** [_getScore(board, player)] *)
Definition _getScore (g : grid) (player : Player) : Z :=
  let mine := squareType player in
  center_points g mine + vertical_points g mine + horizontal_points g mine
  + diagonal_points g mine + anti_diagonal_points g mine.

(** The scanning [while] of [_getSquareTypeWinner]: the value of [cpt] when
    the loop stops. *)
Definition scan4 (g : grid) (currentType : SquareType) (cell : Z -> Z * Z)
    (cond : Z -> bool) (next : Z -> Z) (start : Z) : Z :=
  while 4 (fun cpt =>
             let '(cx, cy) := cell cpt in
             cond cpt && negb (isEmpty (sq g cx cy)) && same_type (sq g cx cy) currentType)
    next start.

(** The four blocks of [_getSquareTypeWinner(board)]; [None] when the block
    ends without returning. *)
Definition winner_vertical (g : grid) : option SquareType :=
  for_return (upto 0 cols) (fun x =>
    for_return (downto (rows - 1) 2) (fun y =>
      let currentType := sq g x y in
      let cpt := scan4 g currentType (fun cpt => (x, cpt))
                   (fun cpt => cpt >? y - 4) Z.pred y in
      if cpt =? y - 4 then Some currentType else None)).

Definition winner_horizontal (g : grid) : option SquareType :=
  for_return (downto (rows - 1) (-1)) (fun y =>
    for_return (upto 0 (cols - 3)) (fun x =>
      let currentType := sq g x y in
      let cpt := scan4 g currentType (fun cpt => (cpt, y))
                   (fun cpt => cpt <? x + 4) Z.succ x in
      if cpt =? x + 4 then Some currentType else None)).

Definition winner_diagonal (g : grid) : option SquareType :=
  for_return (upto 0 (cols - 3)) (fun x =>
    for_return (downto (rows - 1) 2) (fun y =>
      let currentType := sq g x y in
      let cpt := scan4 g currentType (fun cpt => (x + (y - cpt), cpt))
                   (fun cpt => cpt >? y - 4) Z.pred y in
      if cpt =? y - 4 then Some currentType else None)).

Definition winner_anti_diagonal (g : grid) : option SquareType :=
  for_return (downto (cols - 1) 2) (fun x =>
    for_return (downto (rows - 1) 2) (fun y =>
      let currentType := sq g x y in
      let cpt := scan4 g currentType (fun cpt => (x - (y - cpt), cpt))
                   (fun cpt => cpt >? y - 4) Z.pred y in
      if cpt =? y - 4 then Some currentType else None)).

(** [_getSquareTypeWinner(board)]; [None] is [null]. *)
Definition _getSquareTypeWinner (g : grid) : option SquareType :=
  match winner_vertical g with
  | Some w => Some w
  | None =>
      match winner_horizontal g with
      | Some w => Some w
      | None =>
          match winner_diagonal g with
          | Some w => Some w
          | None => winner_anti_diagonal g
          end
      end
  end.

(** [isOver(board)] *)
Definition isOver (g : grid) : res bool :=
  match Board.getFree g with
  | Ok free => Ok ((length free =? 0)%nat || bool_decide (_getSquareTypeWinner g <> None))
  | Throw m => Throw m
  end.

(** Reading the contents of a board object. *)
Definition read (b : board) : M grid := fun h => (Ok (Board.contents h b), h).

(** The base case of [_minimax]: the game is over on [board], or the depth
    is exhausted. *)
Definition leaf_value (this : Room) (g : grid) : res jsnum :=
  match isOver g with
  | Throw m => Throw m
  | Ok true =>
      let w := _getSquareTypeWinner g in
      if bool_decide (w = Some (squareType (currentPlayer this))) then Ok (Int WIN_POINTS)
      else if bool_decide (w = Some (squareType (opponentPlayer this))) then Ok (Int OPP_WIN_POINTS)
      else Ok (Int 0)
  | Ok false => Ok (Int (_getScore g (currentPlayer this)))
  end.

(** The maximizer's [for (let pos of board.getFree())]; [child pos alpha beta]
    is the body up to the recursive call.  The result is
    [(maxEval, bestPos)]. *)
Fixpoint max_loop (child : Z -> jsnum -> jsnum -> M jsnum) (free : list Z)
    (maxEval bestPos alpha beta : jsnum) : M (jsnum * jsnum) :=
  match free with
  | [] => ret (maxEval, bestPos)
  | pos :: free' =>
      do currentEval <- child pos alpha beta;
      let '(maxEval, bestPos) :=
        if jgt currentEval maxEval then (currentEval, Int pos) else (maxEval, bestPos) in
      let alpha := Math_max alpha currentEval in
      if jle beta alpha then ret (maxEval, bestPos)
      else max_loop child free' maxEval bestPos alpha beta
  end.

(** The minimizer's loop; the result is [minEval]. *)
Fixpoint min_loop (child : Z -> jsnum -> jsnum -> M jsnum) (free : list Z)
    (minEval alpha beta : jsnum) : M jsnum :=
  match free with
  | [] => ret minEval
  | pos :: free' =>
      do currentEval <- child pos alpha beta;
      let minEval := Math_min currentEval minEval in
      let beta := Math_min beta currentEval in
      if jle beta alpha then ret minEval
      else min_loop child free' minEval alpha beta
  end.

(** [let copy = board.copy();
     copy.setSquare(pos, copy.getFirstFreeSquarePos(pos), type);] *)
Definition copy_and_drop (bd : board) (pos : Z) (ty : SquareType) : M board :=
  do copy <- Board.copy bd;
  Board.drop copy (Int pos) ty;;
  ret copy.

(** [_minimax(board, depth, alpha, beta, isMaximizer, first)]; the depth is a
    natural number (1, 3 or 8 at the call sites). *)
Fixpoint _minimax (this : Room) (depth : nat) (bd : board) (alpha beta : jsnum)
    (isMaximizer first : bool) : M jsnum :=
  match depth with
  | O => do g <- read bd; lift (leaf_value this g)
  | S depth' =>
      do g <- read bd;
      do over <- lift (isOver g);
      if over then lift (leaf_value this g)
      else if isMaximizer then
        do free <- lift (Board.getFree g);
        do r <- max_loop (fun pos alpha beta =>
                  do copy <- copy_and_drop bd pos (squareType (currentPlayer this));
                  _minimax this depth' copy alpha beta false false)
                free NegInf NaN alpha beta;
        let '(maxEval, bestPos) := r in
        if first then ret bestPos else ret maxEval
      else
        do free <- lift (Board.getFree g);
        min_loop (fun pos alpha beta =>
                  do copy <- copy_and_drop bd pos (squareType (opponentPlayer this));
                  _minimax this depth' copy alpha beta true false)
                free PosInf alpha beta
  end.

(** What a call of [play] does: it throws before the promise is created, or
    returns a promise that the executor has already resolved or rejected (an
    exception inside the executor rejects the promise). *)
Inductive outcome : Type :=
  | Thrown (msg : string)
  | Rejected (msg : string)
  | Resolved.

(** [Math.floor(Math.random() * n)]: some index below [n] ([0] when [n] is
    0), taken from the draw [r]. *)
Definition random_index (r : nat) (n : nat) : nat :=
  match n with O => O | _ => (r mod n)%nat end.

(** [free[i]] *)
Definition at_index (free : list Z) (i : nat) : jsnum :=
  match free !! i with Some p => Int p | None => NaN end.

(** The bot's choice in the [switch] of [play]; [None] for a human. *)
Definition bot_choice (this : Room) (r : nat) : option (M jsnum) :=
  match type (currentPlayer this) with
  | EASY_BOT => Some (_minimax this 1 (_board this) NegInf PosInf true true)
  | NORMAL_BOT => Some (_minimax this 3 (_board this) NegInf PosInf true true)
  | STUPID_BOT =>
      Some (do g <- read (_board this);
            do free <- lift (Board.getFree g);
            ret (at_index free 0))
  | RANDOM_BOT =>
      Some (do g <- read (_board this);
            do free <- lift (Board.getFree g);
            ret (at_index free (random_index r (length free))))
  | CHEAT_BOT => Some (_minimax this 8 (_board this) NegInf PosInf true true)
  | HUMAN => None
  end.

(** [play(pos)].  The state is the room and the store; [rnd k] is the draw
    of the [k]-th chained call.  [fuel] bounds the chain of calls: [None]
    means it was too small. *)
Fixpoint play_chain (fuel : nat) (rnd : nat -> nat) (k : nat) (pos : jsnum)
    (this : Room) (h : store) : option (outcome * Room * store) :=
  match fuel with
  | O => None
  | S fuel' =>
    if jlt pos (Int 0) || jge pos (Int cols)
    then Some (Thrown "The position is invalid."%string, this, h)
    else
      match Board.hasFreeSquare (Board.contents h (_board this)) pos with
      | Throw m => Some (Thrown m, this, h)
      | Ok false => Some (Thrown "The given position has no squares free."%string, this, h)
      | Ok true =>
        (* the executor of the promise *)
        match Board.drop (_board this) pos (squareType (currentPlayer this)) h with
        | (Throw m, h1) => Some (Rejected m, this, h1)
        | (Ok _, h1) =>
          match isOver (Board.contents h1 (_board this)) with
          | Throw m => Some (Rejected m, this, h1)
          | Ok true => Some (Resolved, this, h1)
          | Ok false =>
            let this1 := swapPlayer this in
            (* Bot's turn. *)
            match bot_choice this1 (rnd k) with
            | None => Some (Resolved, this1, h1)
            | Some choose =>
              match choose h1 with
              | (Throw m, h2) => Some (Rejected m, this1, h2)
              | (Ok p, h2) =>
                match play_chain fuel' rnd (S k) p this1 h2 with
                | None => None
                | Some (Thrown m, this2, h3) => Some (Rejected m, this2, h3)
                | Some (_, this2, h3) => Some (Resolved, this2, h3)
                end
              end
            end
          end
        end
      end
  end.

(** Every chained call fills a square, so the squares of the board bound the
    chain. *)
Definition play (rnd : nat -> nat) (pos : jsnum) (this : Room) (h : store)
    : option (outcome * Room * store) :=
  play_chain (S (Z.to_nat (rows * cols))) rnd 0 pos this h.

(** [passTurn()]; [r] is the draw of its own [Math.random()]. *)
Definition passTurn (rnd : nat -> nat) (r : nat) (this : Room) (h : store)
    : option (outcome * Room * store) :=
  match Board.getFree (Board.contents h (_board this)) with
  | Throw m => Some (Thrown m, this, h)
  | Ok free => play rnd (at_index free (random_index r (length free))) this h
  end.

(** [new Room(firstPlayer, secondPlayer, secondType)]; [r] is the draw of
    [Math.floor(Math.random() * 2)]. *)
Definition new_Room (firstPlayer secondPlayer : option string) (secondType : PlayerType)
    (r : nat) : M Room :=
  do b <- Board.new;
  let cur := if bool_decide (secondType = HUMAN) then random_index r 2 else O in
  let mark i := if bool_decide (i = cur) then BLUE else RED in
  ret (mkRoom b (mkPlayer firstPlayer HUMAN (mark 0%nat),
                 mkPlayer secondPlayer secondType (mark 1%nat)) cur).

(** [getWinner()]; [None] is [null]. *)
Definition getWinner (this : Room) (h : store) : res (option Player) :=
  let g := Board.contents h (_board this) in
  match isOver g with
  | Throw m => Throw m
  | Ok false => Throw "Cannot get the winner while the game is in progress."%string
  | Ok true =>
      match _getSquareTypeWinner g with
      | None => Ok None
      | Some typeWinner =>
          Ok (Some (if same_type (squareType (fst (_players this))) typeWinner
                    then fst (_players this) else snd (_players this)))
      end
  end.

(** ** Well-formed boards *)

(** A grid of [cols] columns of [rows] squares. *)
Definition wf_grid (g : grid) : Prop :=
  length g = Z.to_nat cols /\ Forall (fun col => length col = Z.to_nat rows) g.

(** A board object in a store: [cols] arrays of [rows] references to
    distinct squares that exist. *)
Definition wf_board (h : store) (b : board) : Prop :=
  length b = Z.to_nat cols
  /\ Forall (fun col => length col = Z.to_nat rows) b
  /\ NoDup (concat b)
  /\ Forall (fun a => (a < length h)%nat) (concat b).

(** The store [h'] is [h] with new squares: every square of [h] is where
    and what it was. *)
Definition extends (h h' : store) : Prop := exists new, h' = h ++ new.

(** The contents after a drop of [ty] in column [x]: the write of
    [Board.drop], seen on the contents. *)
Definition drop_grid (g : grid) (x : Z) (ty : SquareType) : grid :=
  match Board.getFirstFreeSquarePos g (Int x) with
  | Ok (Int y) => grid_set g x y ty
  | _ => g
  end.

(** A side is [RED] or [BLUE]. *)
Definition is_side (t : SquareType) : Prop := t = RED \/ t = BLUE.

(** The board and the store after [new Board()] in an empty store. *)
Definition fresh_store : store := snd (Board.new []).
Definition fresh_board : board :=
  match fst (Board.new []) with Ok b => b | Throw _ => [] end.

(** The row returned by [getFirstFreeSquarePos] grows with a drop in the
    column, or the column is full afterwards. *)
Definition first_free_increases (h : store) (b : board) (c : jsnum) (t : SquareType) : Prop :=
  forall u h' y,
    Board.drop b c t h = (Ok u, h') ->
    Board.getFirstFreeSquarePos (Board.contents h b) c = Ok (Int y) ->
    (exists y', Board.getFirstFreeSquarePos (Board.contents h' b) c = Ok (Int y') /\ y < y')
    \/ Board.getFirstFreeSquarePos (Board.contents h' b) c
       = Throw "There is no free square in this column."%string.

(** ** Runs of four squares *)

(** [squares[x][y].type] at a coordinate pair *)
Definition sqc (g : grid) (c : Z * Z) : SquareType := sq g (fst c) (snd c).

Definition in_board (c : Z * Z) : bool :=
  (0 <=? fst c) && (fst c <? cols) && (0 <=? snd c) && (snd c <? rows).

(** The four orientations: vertical, horizontal and the two diagonals. *)
Definition directions : list (Z * Z) := [(0, 1); (1, 0); (1, 1); (1, -1)].

(** The four consecutive squares from [c] along [d]. *)
Definition run_from (c d : Z * Z) : list (Z * Z) :=
  map (fun k => (fst c + k * fst d, snd c + k * snd d)) [0; 1; 2; 3].

Definition all_cells : list (Z * Z) :=
  flat_map (fun x => map (fun y => (x, y)) (upto 0 rows)) (upto 0 cols).

(** Every run of four consecutive squares of the board, along every
    orientation. *)
Definition all_runs : list (list (Z * Z)) :=
  List.filter (forallb in_board)
    (flat_map (fun d => map (fun c => run_from c d) all_cells) directions).

(** Side [s] occupies the four squares of some run. *)
Definition has_run (g : grid) (s : SquareType) : Prop :=
  s <> EMPTY /\ exists w, w ∈ all_runs /\ Forall (fun c => sqc g c = s) w.

(** The runs in the order in which [_getSquareTypeWinner] and [_getScore]
    visit them, each from the square [cpt] starts at. *)
Definition scan_vertical : list (list (Z * Z)) :=
  flat_map (fun x => map (fun y => [(x, y); (x, y - 1); (x, y - 2); (x, y - 3)])
                         (downto (rows - 1) 2)) (upto 0 cols).
Definition scan_horizontal : list (list (Z * Z)) :=
  flat_map (fun y => map (fun x => [(x, y); (x + 1, y); (x + 2, y); (x + 3, y)])
                         (upto 0 (cols - 3))) (downto (rows - 1) (-1)).
Definition scan_diagonal : list (list (Z * Z)) :=
  flat_map (fun x => map (fun y => [(x, y); (x + 1, y - 1); (x + 2, y - 2); (x + 3, y - 3)])
                         (downto (rows - 1) 2)) (upto 0 (cols - 3)).
Definition scan_anti_diagonal : list (list (Z * Z)) :=
  flat_map (fun x => map (fun y => [(x, y); (x - 1, y - 1); (x - 2, y - 2); (x - 3, y - 3)])
                         (downto (rows - 1) 2)) (downto (cols - 1) 2).
Definition scan_runs : list (list (Z * Z)) :=
  scan_vertical ++ scan_horizontal ++ scan_diagonal ++ scan_anti_diagonal.

(** The side that fills a run, if one does. *)
Definition line_type (g : grid) (w : list (Z * Z)) : option SquareType :=
  match w with
  | [] => None
  | c :: _ =>
      if forallb (fun c' => negb (isEmpty (sqc g c')) && same_type (sqc g c') (sqc g c)) w
      then Some (sqc g c) else None
  end.

(** The scan returns [s] whenever [s] occupies a run. *)
Definition winner_iff_run (g : grid) : Prop :=
  forall s, _getSquareTypeWinner g = Some s <-> has_run g s.

(** A board on which both sides occupy a run: RED the bottom of column 0,
    BLUE the bottom of column 1. *)
Definition two_runs_grid : grid :=
  [ [EMPTY; EMPTY; RED; RED; RED; RED];
    [EMPTY; EMPTY; BLUE; BLUE; BLUE; BLUE];
    replicate 6 EMPTY; replicate 6 EMPTY; replicate 6 EMPTY;
    replicate 6 EMPTY; replicate 6 EMPTY ].

(** ** The heuristic score, as a sum over runs *)

Definition zsum (l : list Z) : Z := fold_right Z.add 0 l.

(** How many squares of [w] satisfy [p]. *)
Definition count_cells (p : SquareType -> bool) (g : grid) (w : list (Z * Z)) : Z :=
  Z.of_nat (length (List.filter (fun c => p (sqc g c)) w)).

(** The two counters of [_getScore] over the squares of a run. *)
Definition count_empty (g : grid) (w : list (Z * Z)) : Z := count_cells isEmpty g w.
Definition count_mine (g : grid) (mine : SquareType) (w : list (Z * Z)) : Z :=
  count_cells (fun t => negb (isEmpty t) && same_type t mine) g w.

(** The squares of side [s] among [w]. *)
Definition count_side (g : grid) (s : SquareType) (w : list (Z * Z)) : Z :=
  count_cells (fun t => same_type t s) g w.

(** The table of points of a window, by (empty squares, squares of the
    side); any other combination is worth 0. *)
Definition score_table : list (Z * Z * Z) :=
  [ (0, 4, 10000); (0, 0, -1000); (1, 3, 5); (1, 0, -5); (2, 2, 2); (2, 0, -2) ].

Definition window_points (nb_empty nb_side : Z) : Z :=
  match List.find (fun '(e, f, _) => (e =? nb_empty) && (f =? nb_side)) score_table with
  | Some (_, _, p) => p
  | None => 0
  end.

(** The squares of the center column. *)
Definition center_cells : list (Z * Z) := map (fun y => (3, y)) (upto 0 rows).

(** The score of [g] for side [s]: 4 points per square of [s] in the center
    column, plus the points of every run of four squares. *)
Definition score_of (g : grid) (s : SquareType) : Z :=
  4 * count_side g s center_cells
  + zsum (map (fun w => window_points (count_empty g w) (count_side g s w)) all_runs).

(** A run of the scan, with its squares listed as in [all_runs]. *)
Definition canonical_run (w : list (Z * Z)) : list (Z * Z) :=
  if bool_decide (w ∈ all_runs) then w else reverse w.

(** The board with the marks of the two sides exchanged. *)
Definition swap_sides (g : grid) : grid := map (map other_side) g.

(** ** The search on board contents *)

(** The readers of the search never throw: their values, as functions. *)
Definition column_free (g : grid) (x : Z) : bool :=
  existsb (fun y => isEmpty (sq g x y)) (upto 0 rows).

Definition free_columns (g : grid) : list Z :=
  List.filter (column_free g) (upto 0 cols).

Definition over (g : grid) : bool :=
  (length (free_columns g) =? 0)%nat || bool_decide (_getSquareTypeWinner g <> None).

Definition leaf (this : Room) (g : grid) : jsnum :=
  if over g then
    let w := _getSquareTypeWinner g in
    if bool_decide (w = Some (squareType (currentPlayer this))) then Int WIN_POINTS
    else if bool_decide (w = Some (squareType (opponentPlayer this))) then Int OPP_WIN_POINTS
    else Int 0
  else Int (_getScore g (currentPlayer this)).

(** The two loops of [_minimax] and the method itself, on the contents of
    the boards: what [max_loop], [min_loop] and [_minimax] compute when the
    store is left out. *)
Fixpoint max_loop_g (child : Z -> jsnum -> jsnum -> jsnum) (free : list Z)
    (maxEval bestPos alpha beta : jsnum) : jsnum * jsnum :=
  match free with
  | [] => (maxEval, bestPos)
  | pos :: free' =>
      let currentEval := child pos alpha beta in
      let '(maxEval, bestPos) :=
        if jgt currentEval maxEval then (currentEval, Int pos) else (maxEval, bestPos) in
      let alpha := Math_max alpha currentEval in
      if jle beta alpha then (maxEval, bestPos)
      else max_loop_g child free' maxEval bestPos alpha beta
  end.

Fixpoint min_loop_g (child : Z -> jsnum -> jsnum -> jsnum) (free : list Z)
    (minEval alpha beta : jsnum) : jsnum :=
  match free with
  | [] => minEval
  | pos :: free' =>
      let currentEval := child pos alpha beta in
      let minEval := Math_min currentEval minEval in
      let beta := Math_min beta currentEval in
      if jle beta alpha then minEval
      else min_loop_g child free' minEval alpha beta
  end.

Fixpoint minimax_g (this : Room) (depth : nat) (g : grid) (alpha beta : jsnum)
    (isMaximizer first : bool) : jsnum :=
  match depth with
  | O => leaf this g
  | S depth' =>
      if over g then leaf this g
      else if isMaximizer then
        let '(maxEval, bestPos) :=
          max_loop_g (fun pos alpha beta =>
                        minimax_g this depth'
                          (drop_grid g pos (squareType (currentPlayer this)))
                          alpha beta false false)
                     (free_columns g) NegInf NaN alpha beta in
        if first then bestPos else maxEval
      else
        min_loop_g (fun pos alpha beta =>
                      minimax_g this depth'
                        (drop_grid g pos (squareType (opponentPlayer this)))
                        alpha beta true false)
                   (free_columns g) PosInf alpha beta
  end.

(** ** Minimax without pruning *)

(** The value of a position by exhaustive search to the same depth: the
    maximum, at the searching player's turn, or the minimum, at the
    opponent's, of the values of all the free columns. *)
Fixpoint minimax_bf (this : Room) (depth : nat) (g : grid) (maximizing : bool) : jsnum :=
  match depth with
  | O => leaf this g
  | S depth' =>
      if over g then leaf this g
      else if maximizing then
        fold_left (fun best pos =>
                     Math_max best
                       (minimax_bf this depth'
                          (drop_grid g pos (squareType (currentPlayer this))) false))
                  (free_columns g) NegInf
      else
        fold_left (fun best pos =>
                     Math_min best
                       (minimax_bf this depth'
                          (drop_grid g pos (squareType (opponentPlayer this))) true))
                  (free_columns g) PosInf
  end.

(** The column chosen by exhaustive search: the lowest free column whose
    value is the maximum. *)
Definition best_column_bf (this : Room) (depth : nat) (g : grid) : jsnum :=
  let value pos :=
    minimax_bf this (Nat.pred depth)
      (drop_grid g pos (squareType (currentPlayer this))) false in
  let best := fold_left (fun best pos => Math_max best (value pos)) (free_columns g) NegInf in
  match List.find (fun pos => bool_decide (value pos = best)) (free_columns g) with
  | Some pos => Int pos
  | None => NaN
  end.

(** A number: not [undefined]. *)
Definition proper (a : jsnum) : Prop := a <> NaN.

(** What a search with window [(alpha, beta)] tells about the exact value
    [v]: its result [r] is exact inside the window, and a bound outside. *)
Definition window_ok (r v alpha beta : jsnum) : Prop :=
  proper r /\ proper v
  /\ (jle r alpha = true -> jle v r = true)
  /\ (jlt alpha r = true -> jlt r beta = true -> v = r)
  /\ (jle beta r = true -> jle r v = true).

(** The maximizer's loop of the exhaustive search, with the column of the
    first maximum. *)
Definition best_loop (value : Z -> jsnum) (free : list Z) (start : jsnum * jsnum)
    : jsnum * jsnum :=
  fold_left (fun '(best, bestPos) pos =>
               if jgt (value pos) best then (value pos, Int pos) else (best, bestPos))
            free start.

(** The numbers between [-N] and [N], the infinities included; [rank N]
    places them on the integers, in order. *)
Definition bounded (N : Z) (a : jsnum) : Prop :=
  match a with
  | NaN => False
  | Int z => - N < z < N
  | NegInf | PosInf => True
  end.

Definition rank (N : Z) (a : jsnum) : Z :=
  match a with
  | NaN => 0
  | NegInf => - N
  | Int z => z
  | PosInf => N
  end.

(** The board whose square [(x, y)] is at address [f (6 * x + y)]. *)
Definition board_of (f : nat -> nat) : board :=
  map (fun x => map (fun y => f (6 * x + y)%nat) (seq 0 6)) (seq 0 7).

(** The addresses of the copy of a board made in a store of [n] squares,
    when [k] squares have been replaced: [new Board()] took the addresses
    from [n], the loops take those from [n + 42]. *)
Definition copy_addr (n k : nat) (j : nat) : nat :=
  if (j <? k)%nat then (n + 42 + j)%nat else (n + j)%nat.

(** ** Writes into a board *)

(** A call that writes into a board: [setSquare(x, y, type)], or the drop of
    a mark in a column. *)
Inductive mutation : Type :=
  | SetSquare (x y : jsnum) (ty : SquareType)
  | Drop (pos : jsnum) (ty : SquareType).

(** The store after a sequence of such calls on board [b]; a call that
    throws writes nothing. *)
Definition mutate (b : board) (calls : list mutation) (h : store) : store :=
  fold_left (fun h call =>
               match call with
               | SetSquare x y ty => snd (Board.setSquare b x y ty h)
               | Drop pos ty => snd (Board.drop b pos ty h)
               end) calls h.

(** A room to search from: the human RED against the easy bot BLUE, on the
    new board. *)
Definition sample_room : Room :=
  mkRoom fresh_board (mkPlayer None HUMAN RED, mkPlayer None EASY_BOT BLUE) 0.

(** ** Matches *)

(** The invariant of a room in a store: a well-formed board, a turn pointer
    in range, a human first player, and the two sides shared between the
    players. *)
Definition wf_room (this : Room) (h : store) : Prop :=
  wf_board h (_board this)
  /\ (_currentPlayer this < 2)%nat
  /\ type (fst (_players this)) = HUMAN
  /\ is_side (squareType (fst (_players this)))
  /\ squareType (snd (_players this)) = other_side (squareType (fst (_players this))).

(** What a call [play(x)] that is not refused does to the turn pointer and
    to the contents of the board, with the moves it makes, in order, as
    (index of the player, column): the caller's drop, then the drops of the
    chained calls. *)
Inductive plays : Room -> grid -> Z -> list (nat * Z) -> Room -> grid -> Prop :=
  | plays_ends this g x :
      over (drop_grid g x (squareType (currentPlayer this))) = true ->
      plays this g x [(_currentPlayer this, x)]
            this (drop_grid g x (squareType (currentPlayer this)))
  | plays_turn this g x :
      over (drop_grid g x (squareType (currentPlayer this))) = false ->
      type (currentPlayer (swapPlayer this)) = HUMAN ->
      plays this g x [(_currentPlayer this, x)]
            (swapPlayer this) (drop_grid g x (squareType (currentPlayer this)))
  | plays_bot this g x c moves this' g' :
      over (drop_grid g x (squareType (currentPlayer this))) = false ->
      type (currentPlayer (swapPlayer this)) <> HUMAN ->
      c ∈ free_columns (drop_grid g x (squareType (currentPlayer this))) ->
      plays (swapPlayer this) (drop_grid g x (squareType (currentPlayer this))) c
            moves this' g' ->
      plays this g x ((_currentPlayer this, x) :: moves) this' g'.

(** The contents after a list of moves. *)
Definition apply_moves (ps : Player * Player) (moves : list (nat * Z)) (g : grid) : grid :=
  fold_left (fun g '(i, c) => drop_grid g c (squareType (player_at ps i))) moves g.

(** The states of a match: the room and the store. *)
Inductive evolves : Room * store -> Room * store -> Prop :=
  | evolves_refl s : evolves s s
  | evolves_play this h rnd pos out this' h' s :
      play rnd pos this h = Some (out, this', h') ->
      (forall m, out <> Thrown m) ->
      evolves (this', h') s ->
      evolves (this, h) s.

(** The states reachable from the construction of a room by accepted calls
    of [play]. *)
Definition reachable (this : Room) (h : store) : Prop :=
  exists firstPlayer secondPlayer secondType r h0 this0 h1,
    new_Room firstPlayer secondPlayer secondType r h0 = (Ok this0, h1)
    /\ evolves (this0, h1) (this, h).

(** Gravity: in a column, every square below an occupied square is
    occupied (the bottom row has the largest index). *)
Definition gravity (g : grid) : Prop :=
  forall x y y', 0 <= x < cols -> 0 <= y < y' -> y' < rows ->
                 sq g x y <> EMPTY -> sq g x y' <> EMPTY.

(** No occupied square of [g] is changed in [g']. *)
Definition keeps_marks (g g' : grid) : Prop :=
  forall x y, sq g x y <> EMPTY -> sq g' x y = sq g x y.

(** A sequence of calls of [play], each on the state the one before left. *)
Fixpoint play_all (rnd : nat -> nat) (columns : list Z) (s : Room * store)
    : option (Room * store) :=
  match columns with
  | [] => Some s
  | c :: columns' =>
      match play rnd (Int c) (fst s) (snd s) with
      | Some (Resolved, this', h') => play_all rnd columns' (this', h')
      | _ => None
      end
  end.

(** Two humans sit down: the state after the construction of the room, and
    after three drops each in columns 0 and 1. *)
Definition start_state : Room * store :=
  match new_Room None None HUMAN 0 [] with
  | (Ok this, h) => (this, h)
  | (Throw _, h) => (sample_room, h)
  end.

Definition near_win_state : Room * store :=
  match play_all (fun _ => 0%nat) [0; 1; 0; 1; 0; 1] start_state with
  | Some s => s
  | None => start_state
  end.

(** A human against the stupid bot, at the bot's turn on the new board. *)
Definition bot_turn_room : Room :=
  mkRoom fresh_board (mkPlayer None HUMAN BLUE, mkPlayer None STUPID_BOT RED) 1.

(** ** Forced wins *)

(** Side [s] wins within [depth] moves of the search whatever the other side
    plays: the winner scan names [s] on the board, or the game goes on and
    [s] has a column that keeps the win when it is the one to move, and
    every column keeps it when the other side moves.  As in [_minimax], the
    current player of the room moves at the maximizer's turn and the
    opponent at the minimizer's. *)
Fixpoint forced_win (this : Room) (s : SquareType) (depth : nat) (g : grid)
    (maximizing : bool) : Prop :=
  match depth with
  | O => over g = true /\ _getSquareTypeWinner g = Some s
  | S depth' =>
      if over g then _getSquareTypeWinner g = Some s
      else
        let mover :=
          squareType (if maximizing then currentPlayer this else opponentPlayer this) in
        if bool_decide (mover = s)
        then exists c, c ∈ free_columns g
                       /\ forced_win this s depth' (drop_grid g c mover) (negb maximizing)
        else forall c, c ∈ free_columns g ->
                       forced_win this s depth' (drop_grid g c mover) (negb maximizing)
  end.

(** ** The balance of the marks *)

(** The marks of the two sides at a player's turn: BLUE, who moves first,
    has as many marks on the board as RED when BLUE is to move, and one more
    when RED is. *)
Definition balanced (this : Room) (g : grid) : Prop :=
  count_side g BLUE all_cells
  = count_side g RED all_cells
    + (if same_type (squareType (currentPlayer this)) BLUE then 0 else 1).

(** A human, BLUE, against the easy bot, RED, at the human's turn: RED has
    three marks at the bottom of column 0 and BLUE three marks that make no
    line, at the bottom of columns 1 and 2. *)
Definition easy_bot_room : Room :=
  mkRoom fresh_board (mkPlayer None HUMAN BLUE, mkPlayer None EASY_BOT RED) 0.

Definition bot_threat_store : store :=
  <[17%nat := BLUE]> (<[10%nat := BLUE]> (<[11%nat := BLUE]>
    (<[3%nat := RED]> (<[4%nat := RED]> (<[5%nat := RED]> fresh_store))))).

(** ** The view of the board *)

(** [assets/view/View.js] sends Discord embeds.  What [_createBoardEmbed]
    takes from the game is the text [boardMsg] that it builds from the
    squares of the board and hands to [setDescription].  A text is modelled
    by its UTF-8 bytes. *)

Definition concat_strings (l : list string) : string :=
  fold_right String.append EmptyString l.

Module View.

(** U+200E, the left-to-right mark that pads the texts of the view. *)
Definition lrm : string :=
  String (ascii_of_nat 226) (String (ascii_of_nat 128) (String (ascii_of_nat 142) EmptyString)).

(** ["\n"] *)
Definition newline : string := String (ascii_of_nat 10) EmptyString.

(** The text literals of [_createBoardEmbed]. *)
Definition first_number : string :=
  concat_strings [" "; lrm; " "; lrm; " "; lrm; "  "; lrm; lrm; "1"]%string.
Definition number_pad : string :=
  concat_strings [" "; lrm; "  "; lrm; "  "; lrm; " "; lrm; " "; lrm; " "; lrm; " "; lrm;
                  " "; lrm; "  "; lrm; lrm]%string.
Definition blue_cell : string :=
  concat_strings [lrm; lrm; " "; lrm; lrm; "🔵"; lrm; " "; lrm; lrm]%string.
Definition red_cell : string :=
  concat_strings [lrm; lrm; " "; lrm; lrm; "🔴"; lrm; " "; lrm; lrm]%string.
Definition empty_cell : string :=
  concat_strings [" "; lrm; " "; lrm; " "; lrm; " "; lrm; " "; lrm; " "; lrm; " "; lrm;
                  " "; lrm; " "; lrm]%string.
Definition bar : string := " | "%string.
Definition rule : string :=
  String.append "----------------------------------------------"%string newline.

(** [`${x}`] *)
Definition number_text (x : Z) : string := NilZero.string_of_int (Z.to_int x).

(** The line of the column numbers, appended to [boardMsg]:
    [boardMsg += " 1"; for (let x=2; x < board.cols+1; x++) boardMsg += ` ${x}`] *)
Definition numbers (boardMsg : string) : string :=
  fold_left (fun boardMsg x =>
               String.append boardMsg (String.append number_pad (number_text x)))
            (upto 2 (cols + 1)) (String.append boardMsg first_number).

(** The text of a square, by its type. *)
Definition cell (type : SquareType) : string :=
  if same_type type BLUE then blue_cell
  else if same_type type RED then red_cell
  else empty_cell.

(** The text [boardMsg] of [_createBoardEmbed(board, player)]. *)
Definition boardMsg (board : board) : M string :=
  let boardMsg := numbers EmptyString in
  let boardMsg := String.append boardMsg newline in
  do boardMsg <- forM (upto 0 rows) (fun y boardMsg =>
    do boardMsg <- forM (upto 0 cols) (fun x boardMsg =>
      do s <- lift (Board.getSquare board (Int x) (Int y));
      do type <- (fun h => (Ok (type_of s h), h));
      let boardMsg := String.append boardMsg (cell type) in
      ret (if negb (x =? cols - 1) then String.append boardMsg bar else boardMsg)) boardMsg;
    let boardMsg := String.append boardMsg newline in
    ret (if negb (y =? rows - 1) then String.append boardMsg rule else boardMsg)) boardMsg;
  ret (numbers boardMsg).

End View.

(** The pieces of the text of a board, in the order in which they are
    appended: the literals and the squares. *)
Inductive piece : Type :=
  | Lit (s : string)
  | Cell (t : SquareType).

Definition piece_text (p : piece) : string :=
  match p with Lit s => s | Cell t => View.cell t end.

Definition pieces_text (ps : list piece) : string := concat_strings (map piece_text ps).

Definition row_pieces (g : grid) (y : Z) : list piece :=
  flat_map (fun x => Cell (sq g x y) :: (if negb (x =? cols - 1) then [Lit View.bar] else []))
           (upto 0 cols).

Definition board_pieces (g : grid) : list piece :=
  Lit (View.numbers EmptyString) :: Lit View.newline
  :: flat_map (fun y => row_pieces g y
                        ++ Lit View.newline
                        :: (if negb (y =? rows - 1) then [Lit View.rule] else []))
              (upto 0 rows)
  ++ [Lit (View.numbers EmptyString)].

(** Two pieces of the same kind: the same literal, or two squares. *)
Definition same_shape (p p' : piece) : Prop :=
  match p, p' with
  | Lit s, Lit s' => s = s'
  | Cell _, Cell _ => True
  | _, _ => False
  end.

(** The squares among the pieces. *)
Definition cells_of (ps : list piece) : list SquareType :=
  flat_map (fun p => match p with Cell t => [t] | Lit _ => [] end) ps.

(** ** Writes outside a board *)

(** From [h] to [h'] the squares that existed are still there, and those
    that are not squares of [bd] have kept their type: only squares of [bd]
    were written, and squares were made. *)
Definition frames (bd : board) (h h' : store) : Prop :=
  (length h <= length h')%nat
  /\ forall a, (a < length h)%nat -> a ∉ concat bd -> h' !! a = h !! a.

(** Two rooms in one store: the room of [start_state], then a human against
    the easy bot; and the state of the first room after a call of [play] on
    column 0. *)
Definition two_rooms_store : store :=
  snd (new_Room None None EASY_BOT 0 (snd start_state)).

Definition easy_bot_second_room : Room :=
  match fst (new_Room None None EASY_BOT 0 (snd start_state)) with
  | Ok this => this
  | Throw _ => sample_room
  end.

Definition after_first_move : Room * store :=
  match play (fun _ => 0%nat) (Int 0) (fst start_state) two_rooms_store with
  | Some (_, this, h) => (this, h)
  | None => start_state
  end.

(** * Properties *)

(** ** Ranges and loops *)

Lemma upto_rows : upto 0 rows = [0; 1; 2; 3; 4; 5].
Proof. reflexivity. Qed.

Lemma upto_cols : upto 0 cols = [0; 1; 2; 3; 4; 5; 6].
Proof. reflexivity. Qed.

Lemma downto_rows : downto (rows - 1) (-1) = [5; 4; 3; 2; 1; 0].
Proof. reflexivity. Qed.

Lemma for_return_None {A B} (l : list A) (f : A -> option B) :
  for_return l f = None <-> Forall (fun a => f a = None) l.
Proof.
  induction l as [|a l IH]; simpl.
  - split; auto.
  - destruct (f a) eqn:E.
    + split; [discriminate|]. intros H. inversion H; congruence.
    + rewrite IH. split; intros H; [constructor; auto | inversion H; auto].
Qed.

Lemma for_return_Some {A B} (l : list A) (f : A -> option B) b :
  for_return l f = Some b <->
  exists l1 a l2, l = l1 ++ a :: l2 /\ f a = Some b /\ Forall (fun a' => f a' = None) l1.
Proof.
  induction l as [|a l IH]; simpl.
  - split; [discriminate|]. intros (l1 & a & l2 & E & _). destruct l1; discriminate.
  - destruct (f a) eqn:E.
    + split.
      * intros [= <-]. exists [], a, l. auto.
      * intros (l1 & a' & l2 & El & Ea & Hl1). destruct l1 as [|a1 l1]; simpl in El.
        -- injection El as <- <-. congruence.
        -- injection El as <- ->. inversion Hl1; congruence.
    + rewrite IH. split.
      * intros (l1 & a' & l2 & -> & Ea & Hl1). exists (a :: l1), a', l2. auto.
      * intros (l1 & a' & l2 & El & Ea & Hl1). destruct l1 as [|a1 l1]; simpl in El.
        -- injection El as <- <-. congruence.
        -- injection El as <- ->. inversion Hl1; subst. exists l1, a', l2. auto.
Qed.

(** ** Square types *)

Lemma same_type_true a b : same_type a b = true <-> a = b.
Proof. unfold same_type. apply bool_decide_eq_true. Qed.

Lemma same_type_false a b : same_type a b = false <-> a <> b.
Proof. unfold same_type. apply bool_decide_eq_false. Qed.

Lemma isEmpty_true t : isEmpty t = true <-> t = EMPTY.
Proof. apply same_type_true. Qed.

Lemma isEmpty_false t : isEmpty t = false <-> t <> EMPTY.
Proof. apply same_type_false. Qed.

(** ** Grids *)

Lemma sq_nonneg g x y :
  0 <= x -> 0 <= y ->
  sq g x y = default EMPTY (col ← g !! Z.to_nat x; col !! Z.to_nat y).
Proof.
  intros Hx Hy. unfold sq.
  destruct (x <? 0) eqn:E1; [lia|]. destruct (y <? 0) eqn:E2; [lia|]. reflexivity.
Qed.

Lemma sq_grid_set_ne g x y t x' y' :
  0 <= x -> 0 <= y -> (x, y) <> (x', y') ->
  sq (grid_set g x y t) x' y' = sq g x' y'.
Proof.
  intros Hx Hy Hne. unfold sq.
  destruct (x' <? 0) eqn:E1; [reflexivity|]. destruct (y' <? 0) eqn:E2; [reflexivity|].
  simpl. unfold grid_set. destruct (g !! Z.to_nat x) as [col|] eqn:Ecol; [|reflexivity].
  destruct (decide (x = x')) as [<-|Hxx].
  - rewrite list_lookup_insert_eq by (eapply lookup_lt_Some; eauto).
    rewrite Ecol. simpl. rewrite list_lookup_insert_ne; [reflexivity|].
    intros E. apply Hne. f_equal. lia.
  - rewrite list_lookup_insert_ne by lia. reflexivity.
Qed.

Lemma sq_grid_set_eq g x y t :
  wf_grid g -> 0 <= x < cols -> 0 <= y < rows ->
  sq (grid_set g x y t) x y = t.
Proof.
  intros [Hl Hc] Hx Hy. rewrite sq_nonneg by lia. unfold grid_set.
  destruct (g !! Z.to_nat x) as [col|] eqn:Ecol.
  - rewrite list_lookup_insert_eq by (eapply lookup_lt_Some; eauto). simpl.
    rewrite list_lookup_insert_eq; [reflexivity|].
    rewrite Forall_forall in Hc. rewrite (Hc col).
    + unfold rows in *. lia.
    + eapply list_elem_of_lookup_2; eauto.
  - apply lookup_ge_None in Ecol. unfold cols in *. lia.
Qed.

Lemma wf_grid_set g x y t : wf_grid g -> wf_grid (grid_set g x y t).
Proof.
  intros [Hl Hc]. unfold grid_set.
  destruct (g !! Z.to_nat x) as [col|] eqn:Ecol; [|split; auto].
  split.
  - rewrite length_insert. exact Hl.
  - rewrite Forall_forall in Hc |- *. intros c Hin.
    apply list_elem_of_lookup in Hin. destruct Hin as [i Hi].
    destruct (decide (Z.to_nat x = i)) as [<-|Hne].
    + rewrite list_lookup_insert_eq in Hi by (eapply lookup_lt_Some; eauto).
      injection Hi as <-. rewrite length_insert. apply Hc.
      eapply list_elem_of_lookup_2; eauto.
    + rewrite list_lookup_insert_ne in Hi by auto.
      apply Hc. eapply list_elem_of_lookup_2; eauto.
Qed.

(** ** Columns *)

Lemma invalid_Int x bound : Board.invalid (Int x) bound = false <-> 0 <= x < bound.
Proof.
  unfold Board.invalid, jge. simpl.
  destruct (x <? 0) eqn:E1; destruct (bound <=? x) eqn:E2; simpl; split; intros; try lia; congruence.
Qed.

Ltac row_cases y :=
  let H := fresh in
  assert (H : y = 0 \/ y = 1 \/ y = 2 \/ y = 3 \/ y = 4 \/ y = 5) by (unfold rows in *; lia);
  destruct H as [->|[->|[->|[->|[->| ->]]]]].

Ltac col_cases x :=
  let H := fresh in
  assert (H : x = 0 \/ x = 1 \/ x = 2 \/ x = 3 \/ x = 4 \/ x = 5 \/ x = 6)
    by (unfold cols in *; lia);
  destruct H as [->|[->|[->|[->|[->|[->| ->]]]]]].

Ltac case_empty :=
  match goal with
  | |- context [isEmpty (sq ?g ?x ?y)] => destruct (isEmpty (sq g x y)) eqn:?
  end.

Lemma hasFreeSquare_Int g x :
  0 <= x < cols ->
  exists b, Board.hasFreeSquare g (Int x) = Ok b
            /\ (b = true <-> exists y, 0 <= y < rows /\ sq g x y = EMPTY).
Proof.
  intros Hx. unfold Board.hasFreeSquare.
  rewrite (proj2 (invalid_Int _ _)) by lia. rewrite upto_rows. simpl.
  repeat (case_empty;
          [ eexists; split; [reflexivity|]; split; [|reflexivity];
            intros _; eexists; split; [|apply isEmpty_true; eassumption]; unfold rows; lia |]).
  eexists; split; [reflexivity|]. split; [discriminate|].
  intros (y & Hy & E). apply isEmpty_true in E. row_cases y; congruence.
Qed.

Lemma hasFreeSquare_true g c :
  Board.hasFreeSquare g c = Ok true ->
  exists x, c = Int x /\ 0 <= x < cols /\ exists y, 0 <= y < rows /\ sq g x y = EMPTY.
Proof.
  unfold Board.hasFreeSquare. destruct (Board.invalid c cols) eqn:Hinv; [discriminate|].
  destruct c as [| |x|]; try discriminate. apply invalid_Int in Hinv.
  destruct (hasFreeSquare_Int g x Hinv) as (b & Hb & Hiff).
  unfold Board.hasFreeSquare in Hb. rewrite (proj2 (invalid_Int _ _)) in Hb by lia.
  intros H. rewrite H in Hb. injection Hb as <-. exists x. split; [reflexivity|]. split; [lia|].
  apply Hiff. reflexivity.
Qed.

Lemma hasFreeSquare_false g c :
  Board.hasFreeSquare g c = Ok false ->
  exists x, c = Int x /\ 0 <= x < cols /\ forall y, 0 <= y < rows -> sq g x y <> EMPTY.
Proof.
  unfold Board.hasFreeSquare. destruct (Board.invalid c cols) eqn:Hinv; [discriminate|].
  destruct c as [| |x|]; try discriminate. apply invalid_Int in Hinv.
  destruct (hasFreeSquare_Int g x Hinv) as (b & Hb & Hiff).
  unfold Board.hasFreeSquare in Hb. rewrite (proj2 (invalid_Int _ _)) in Hb by lia.
  intros H. rewrite H in Hb. injection Hb as <-. exists x. split; [reflexivity|]. split; [lia|].
  intros y Hy E. assert (false = true) by (apply Hiff; eauto). discriminate.
Qed.

(** The row returned is the empty square with the largest index: the rows
    are numbered from the top, the bottom row is [rows - 1]. *)
Lemma getFirstFreeSquarePos_Ok g c r :
  Board.getFirstFreeSquarePos g c = Ok r ->
  exists x y, c = Int x /\ r = Int y /\ 0 <= x < cols /\ 0 <= y < rows
              /\ sq g x y = EMPTY
              /\ forall y', y < y' < rows -> sq g x y' <> EMPTY.
Proof.
  unfold Board.getFirstFreeSquarePos.
  destruct (Board.invalid c cols) eqn:Hinv; [discriminate|].
  destruct (Board.hasFreeSquare g c) as [[|]|] eqn:Hfree; try discriminate.
  apply hasFreeSquare_true in Hfree. destruct Hfree as (x & -> & Hx & y0 & Hy0 & E0).
  rewrite downto_rows. simpl.
  repeat (case_empty;
          [ intros [= <-]; eexists x, _; repeat split; try reflexivity; try lia;
            [ apply isEmpty_true; eassumption
            | let y' := fresh "y'" in
              intros y' Hy' E; apply isEmpty_true in E; row_cases y'; try lia; congruence ] |]).
  apply isEmpty_true in E0. row_cases y0; congruence.
Qed.

Lemma getFirstFreeSquarePos_free g x :
  Board.hasFreeSquare g (Int x) = Ok true ->
  exists y, Board.getFirstFreeSquarePos g (Int x) = Ok (Int y).
Proof.
  intros Hfree. pose proof (hasFreeSquare_true _ _ Hfree) as (x' & [= <-] & Hx & y0 & Hy0 & E0).
  unfold Board.getFirstFreeSquarePos. rewrite (proj2 (invalid_Int _ _)) by lia.
  rewrite Hfree, downto_rows. simpl.
  repeat (case_empty; [eexists; reflexivity|]).
  apply isEmpty_true in E0. row_cases y0; congruence.
Qed.

(** ** Boards in the store *)

Lemma concat_lookup {A} (n : nat) (b : list (list A)) i j c a :
  Forall (fun col => length col = n) b ->
  b !! i = Some c -> c !! j = Some a ->
  concat b !! (i * n + j)%nat = Some a.
Proof.
  intros Hn. revert i. induction Hn as [|c0 b Hc0 Hn IH]; intros i Hi Hj.
  - discriminate.
  - destruct i as [|i]; simpl in *.
    + injection Hi as ->. apply lookup_app_l_Some. exact Hj.
    + rewrite lookup_app_r by lia. replace (n + i * n + j - length c0)%nat with (i * n + j)%nat by lia.
      apply IH; auto.
Qed.

Lemma board_ref_inj (b : board) i j i' j' c c' a :
  Forall (fun col => length col = Z.to_nat rows) b -> NoDup (concat b) ->
  b !! i = Some c -> c !! j = Some a ->
  b !! i' = Some c' -> c' !! j' = Some a ->
  i = i' /\ j = j'.
Proof.
  intros Hn Hnd Hi Hj Hi' Hj'.
  pose proof (concat_lookup _ _ _ _ _ _ Hn Hi Hj) as H1.
  pose proof (concat_lookup _ _ _ _ _ _ Hn Hi' Hj') as H2.
  pose proof (NoDup_lookup _ _ _ _ Hnd H1 H2) as E.
  rewrite Forall_forall in Hn.
  assert (length c = Z.to_nat rows) as Lc by (apply Hn; eapply list_elem_of_lookup_2; eauto).
  assert (length c' = Z.to_nat rows) as Lc' by (apply Hn; eapply list_elem_of_lookup_2; eauto).
  apply lookup_lt_Some in Hj, Hj'. rewrite Lc in Hj. rewrite Lc' in Hj'.
  unfold rows in *. simpl in *. nia.
Qed.

Lemma wf_board_lookup h (b : board) x y :
  wf_board h b -> 0 <= x < cols -> 0 <= y < rows ->
  exists c a, b !! Z.to_nat x = Some c /\ c !! Z.to_nat y = Some a
              /\ a ∈ concat b /\ (a < length h)%nat.
Proof.
  intros (Hl & Hc & Hnd & Hlt) Hx Hy.
  destruct (lookup_lt_is_Some_2 b (Z.to_nat x)) as [c Hcx]; [unfold cols in *; lia|].
  assert (length c = Z.to_nat rows) as Lc.
  { rewrite Forall_forall in Hc. apply Hc. eapply list_elem_of_lookup_2; eauto. }
  destruct (lookup_lt_is_Some_2 c (Z.to_nat y)) as [a Ha]; [unfold rows in *; lia|].
  exists c, a. split; [auto|]. split; [auto|].
  assert (a ∈ concat b) as Hin.
  { apply list_elem_of_lookup. eexists. eapply concat_lookup; eauto. }
  split; [auto|]. rewrite Forall_forall in Hlt. auto.
Qed.

Lemma wf_board_ref h (b : board) x y :
  wf_board h b -> 0 <= x < cols -> 0 <= y < rows ->
  exists a, Board.ref b (Int x) (Int y) = Ok a /\ a ∈ concat b /\ (a < length h)%nat.
Proof.
  intros Hwf Hx Hy. destruct (wf_board_lookup h b x y Hwf Hx Hy) as (c & a & Hc & Ha & Hin & Hlt).
  exists a. unfold Board.ref. rewrite Hc. simpl. rewrite Ha. auto.
Qed.

Lemma wf_grid_contents h b : wf_board h b -> wf_grid (Board.contents h b).
Proof.
  intros (Hl & Hc & _). unfold Board.contents. split.
  - rewrite length_map. exact Hl.
  - rewrite Forall_map. eapply Forall_impl; [exact Hc|]. simpl. intros c Hlen.
    rewrite length_map. exact Hlen.
Qed.

Lemma sq_contents h (b : board) x y c a :
  0 <= x -> 0 <= y ->
  b !! Z.to_nat x = Some c -> c !! Z.to_nat y = Some a ->
  sq (Board.contents h b) x y = type_of a h.
Proof.
  intros Hx Hy Hc Ha. rewrite sq_nonneg by lia. unfold Board.contents.
  rewrite list_lookup_fmap, Hc. simpl. rewrite list_lookup_fmap, Ha. reflexivity.
Qed.

Lemma grid_ext (g g' : grid) :
  wf_grid g -> wf_grid g' ->
  (forall x y, 0 <= x < cols -> 0 <= y < rows -> sq g x y = sq g' x y) ->
  g = g'.
Proof.
  intros [Hl Hc] [Hl' Hc'] Hsq. apply list_eq. intros i.
  destruct (decide (i < Z.to_nat cols)%nat) as [Hi|Hi].
  - destruct (lookup_lt_is_Some_2 g i) as [c Hci]; [lia|].
    destruct (lookup_lt_is_Some_2 g' i) as [c' Hci']; [lia|].
    rewrite Hci, Hci'. f_equal. apply list_eq. intros j.
    rewrite Forall_forall in Hc, Hc'.
    assert (length c = Z.to_nat rows) as Lc by (apply Hc; eapply list_elem_of_lookup_2; eauto).
    assert (length c' = Z.to_nat rows) as Lc' by (apply Hc'; eapply list_elem_of_lookup_2; eauto).
    destruct (decide (j < Z.to_nat rows)%nat) as [Hj|Hj].
    + destruct (lookup_lt_is_Some_2 c j) as [t Ht]; [lia|].
      destruct (lookup_lt_is_Some_2 c' j) as [t' Ht']; [lia|].
      specialize (Hsq (Z.of_nat i) (Z.of_nat j)).
      rewrite !sq_nonneg in Hsq by lia. rewrite !Nat2Z.id in Hsq.
      rewrite Hci, Hci' in Hsq. simpl in Hsq. rewrite Ht, Ht' in Hsq. simpl in Hsq.
      rewrite Ht, Ht'. f_equal. apply Hsq; unfold cols, rows in *; lia.
    + rewrite !(lookup_ge_None_2) by lia. reflexivity.
  - rewrite !(lookup_ge_None_2) by lia. reflexivity.
Qed.

Lemma type_of_insert a a' t h :
  (a < length h)%nat ->
  type_of a' (<[a := t]> h) = if decide (a = a') then t else type_of a' h.
Proof.
  intros Hlt. unfold type_of. destruct (decide (a = a')) as [<-|Hne].
  - rewrite list_lookup_insert_eq by auto. reflexivity.
  - rewrite list_lookup_insert_ne by auto. reflexivity.
Qed.

Lemma type_of_app a h new : (a < length h)%nat -> type_of a (h ++ new) = type_of a h.
Proof. intros Hlt. unfold type_of. rewrite lookup_app_l by auto. reflexivity. Qed.

Lemma contents_app h new (b : board) :
  Forall (fun a => (a < length h)%nat) (concat b) ->
  Board.contents (h ++ new) b = Board.contents h b.
Proof.
  intros Hlt. unfold Board.contents. apply map_ext_in. intros c Hc.
  apply map_ext_in. intros a Ha. apply type_of_app.
  rewrite Forall_forall in Hlt. apply Hlt. apply list_elem_of_In.
  apply in_concat. exists c. auto.
Qed.

Lemma contents_extends h h' b :
  wf_board h b -> extends h h' -> Board.contents h' b = Board.contents h b.
Proof. intros (_ & _ & _ & Hlt) [new ->]. apply contents_app. exact Hlt. Qed.

Lemma wf_board_extends h h' b : wf_board h b -> extends h h' -> wf_board h' b.
Proof.
  intros (Hl & Hc & Hnd & Hlt) [new ->]. repeat split; auto.
  eapply Forall_impl; [exact Hlt|]. simpl. intros a Ha. rewrite length_app. lia.
Qed.

Lemma extends_refl h : extends h h.
Proof. exists []. rewrite app_nil_r. reflexivity. Qed.

Lemma extends_trans h1 h2 h3 : extends h1 h2 -> extends h2 h3 -> extends h1 h3.
Proof. intros [n1 ->] [n2 ->]. exists (n1 ++ n2). rewrite app_assoc. reflexivity. Qed.

Lemma wf_board_insert h b a t : wf_board h b -> wf_board (<[a := t]> h) b.
Proof.
  intros (Hl & Hc & Hnd & Hlt). repeat split; auto.
  eapply Forall_impl; [exact Hlt|]. simpl. intros a' Ha. rewrite length_insert. exact Ha.
Qed.

(** Writing a square of the board is [grid_set] on its contents. *)
Lemma contents_insert h (b : board) x y c a t :
  wf_board h b -> 0 <= x < cols -> 0 <= y < rows ->
  b !! Z.to_nat x = Some c -> c !! Z.to_nat y = Some a ->
  Board.contents (<[a := t]> h) b = grid_set (Board.contents h b) x y t.
Proof.
  intros Hwf Hx Hy Hc Ha.
  assert ((a < length h)%nat) as Hlt.
  { destruct (wf_board_lookup h b x y Hwf Hx Hy) as (c' & a' & Hc' & Ha' & _ & Hlt'). congruence. }
  apply grid_ext.
  - apply wf_grid_contents, wf_board_insert, Hwf.
  - apply wf_grid_set, wf_grid_contents, Hwf.
  - intros x' y' Hx' Hy'.
    destruct (wf_board_lookup h b x' y' Hwf Hx' Hy') as (c' & a' & Hc' & Ha' & _ & Hlt').
    rewrite (sq_contents _ b x' y' c' a') by (auto; lia).
    rewrite type_of_insert by auto.
    destruct (decide ((x, y) = (x', y'))) as [[= <- <-]|Hne].
    + rewrite sq_grid_set_eq by (auto using wf_grid_contents).
      destruct (decide (a = a')); [reflexivity|congruence].
    + rewrite sq_grid_set_ne by (auto; lia).
      rewrite (sq_contents _ b x' y' c' a') by (auto; lia).
      destruct (decide (a = a')) as [<-|]; [|reflexivity].
      destruct Hwf as (_ & Hn & Hnd & _).
      destruct (board_ref_inj b _ _ _ _ _ _ _ Hn Hnd Hc Ha Hc' Ha') as [E1 E2].
      exfalso. apply Hne. f_equal; lia.
Qed.

(** Writing a square that is not of the board leaves its contents. *)
Lemma contents_insert_other h (b : board) a t :
  a ∉ concat b -> Board.contents (<[a := t]> h) b = Board.contents h b.
Proof.
  intros Hnot. unfold Board.contents. apply map_ext_in. intros c Hc.
  apply map_ext_in. intros a' Ha'. unfold type_of.
  rewrite list_lookup_insert_ne; [reflexivity|]. intros ->. apply Hnot.
  apply list_elem_of_In, in_concat. exists c. auto.
Qed.

Lemma is_side_not_empty t : is_side t <-> t <> EMPTY.
Proof. unfold is_side. destruct t; split; intros; try tauto; try congruence; destruct H; congruence. Qed.

(** ** [setSquare] and the drop *)

Lemma setSquare_Throw b x y t h m h' :
  Board.setSquare b x y t h = (Throw m, h') -> h' = h.
Proof.
  unfold Board.setSquare, throw, bind, lift, setType.
  repeat match goal with
         | |- context [if ?c then _ else _] => destruct c
         | |- context [match ?c with Ok _ => _ | Throw _ => _ end] => destruct c
         end; intros [= ]; auto.
Qed.

Lemma setSquare_Ok h b x y t u h' :
  wf_board h b ->
  Board.setSquare b x y t h = (Ok u, h') ->
  exists xi yi c a,
    x = Int xi /\ y = Int yi /\ 0 <= xi < cols /\ 0 <= yi < rows /\ is_side t
    /\ b !! Z.to_nat xi = Some c /\ c !! Z.to_nat yi = Some a
    /\ sq (Board.contents h b) xi yi = EMPTY
    /\ h' = <[a := t]> h.
Proof.
  intros Hwf. unfold Board.setSquare, throw, bind, lift, setType.
  destruct (Board.invalid x cols) eqn:Hx; [discriminate|].
  destruct (Board.invalid y rows) eqn:Hy; [discriminate|].
  destruct (same_type t EMPTY) eqn:Ht; [discriminate|].
  destruct x as [| |xi|]; try discriminate. destruct y as [| |yi|]; try discriminate.
  apply invalid_Int in Hx, Hy.
  destruct (wf_board_lookup h b xi yi Hwf Hx Hy) as (c & a & Hc & Ha & Hin & Hlt).
  unfold Board.ref. rewrite Hc. simpl. rewrite Ha.
  destruct (isEmpty (type_of a h)) eqn:He; simpl; [|discriminate].
  destruct (negb (same_type t RED) && negb (same_type t BLUE)) eqn:Hs; [discriminate|].
  intros [= <-]. exists xi, yi, c, a. repeat split; auto; try lia.
  - apply same_type_false in Ht. destruct t; simpl in *; try congruence; [left|right]; reflexivity.
  - rewrite (sq_contents h b xi yi c a) by (auto; lia). apply isEmpty_true, He.
Qed.

Lemma setSquare_succeeds h b x y t :
  wf_board h b -> 0 <= x < cols -> 0 <= y < rows -> is_side t ->
  sq (Board.contents h b) x y = EMPTY ->
  exists h', Board.setSquare b (Int x) (Int y) t h = (Ok tt, h').
Proof.
  intros Hwf Hx Hy Ht He. unfold Board.setSquare, throw, bind, lift, setType.
  rewrite !(proj2 (invalid_Int _ _)) by lia.
  destruct (wf_board_lookup h b x y Hwf Hx Hy) as (c & a & Hc & Ha & Hin & Hlt).
  rewrite (sq_contents h b x y c a) in He by (auto; lia).
  unfold Board.ref. rewrite Hc. simpl. rewrite Ha.
  destruct Ht as [-> | ->]; simpl; unfold isEmpty; rewrite He; simpl; eexists; reflexivity.
Qed.

Lemma drop_Throw b c t h m h' : Board.drop b c t h = (Throw m, h') -> h' = h.
Proof.
  unfold Board.drop. destruct (Board.getFirstFreeSquarePos _ _).
  - apply setSquare_Throw.
  - intros [= ]; auto.
Qed.

(** A successful drop writes the side in the empty square of the column with
    the largest row index, and nothing else. *)
Lemma drop_Ok h b c t u h' :
  wf_board h b ->
  Board.drop b c t h = (Ok u, h') ->
  exists x y,
    c = Int x /\ 0 <= x < cols /\ 0 <= y < rows /\ is_side t
    /\ Board.getFirstFreeSquarePos (Board.contents h b) c = Ok (Int y)
    /\ Board.contents h' b = grid_set (Board.contents h b) x y t
    /\ Board.contents h' b = drop_grid (Board.contents h b) x t
    /\ wf_board h' b /\ length h' = length h
    /\ (exists a, a ∈ concat b /\ h' = <[a := t]> h).
Proof.
  intros Hwf. unfold Board.drop.
  destruct (Board.getFirstFreeSquarePos (Board.contents h b) c) as [r|] eqn:Hr; [|discriminate].
  intros Hset. destruct (getFirstFreeSquarePos_Ok _ _ _ Hr) as (x & y & -> & -> & Hx & Hy & He & Hab).
  destruct (setSquare_Ok _ _ _ _ _ _ _ Hwf Hset)
    as (xi & yi & c & a & [= <-] & [= <-] & _ & _ & Ht & Hc & Ha & _ & ->).
  assert (Board.contents (<[a := t]> h) b = grid_set (Board.contents h b) x y t) as Hcont
    by (eapply contents_insert; eauto).
  exists x, y. split_and!; auto; try lia.
  - unfold drop_grid. rewrite Hr. exact Hcont.
  - apply wf_board_insert, Hwf.
  - apply length_insert.
  - exists a. split; [|reflexivity].
    apply list_elem_of_lookup. eexists. destruct Hwf as (_ & Hn & _). eapply concat_lookup; eauto.
Qed.

Lemma drop_succeeds h b x t :
  wf_board h b -> is_side t ->
  Board.hasFreeSquare (Board.contents h b) (Int x) = Ok true ->
  exists h', Board.drop b (Int x) t h = (Ok tt, h').
Proof.
  intros Hwf Ht Hfree. destruct (getFirstFreeSquarePos_free _ _ Hfree) as [y Hy].
  unfold Board.drop. rewrite Hy.
  destruct (getFirstFreeSquarePos_Ok _ _ _ Hy) as (x' & y' & [= <-] & [= <-] & Hx & Hy' & He & _).
  apply setSquare_succeeds; auto.
Qed.

Lemma wf_fresh_board : wf_board fresh_store fresh_board.
Proof.
  unfold wf_board. split_and!.
  - reflexivity.
  - vm_compute. repeat constructor.
  - refine (bool_decide_unpack _ _). vm_compute. exact I.
  - refine (bool_decide_unpack _ _). vm_compute. exact I.
Qed.

(** C8, as stated, fails on the new board: the first free row of column 0 is
    5 before a drop and 4 after it. *)
Lemma first_free_increases_fails :
  ~ first_free_increases fresh_store fresh_board (Int 0) RED.
Proof.
  intros H.
  destruct (H tt (<[5%nat := RED]> fresh_store) 5 eq_refl eq_refl) as [(y' & E & Hlt)|E].
  - vm_compute in E. injection E as <-. lia.
  - vm_compute in E. discriminate.
Qed.

(** C8 (amended): after a successful drop in a column, the row returned by
    [getFirstFreeSquarePos] for that column is strictly smaller than before
    (rows are numbered from the top), or the column is full and the call
    throws; [hasFreeSquare] tells whether an empty square remains. *)
Theorem drop_lowers_first_free h b c t u h' :
  wf_board h b ->
  Board.drop b c t h = (Ok u, h') ->
  exists x y,
    c = Int x
    /\ Board.getFirstFreeSquarePos (Board.contents h b) c = Ok (Int y)
    /\ ((exists y', Board.getFirstFreeSquarePos (Board.contents h' b) c = Ok (Int y')
                    /\ y' < y)
        \/ (Board.getFirstFreeSquarePos (Board.contents h' b) c
            = Throw "There is no free square in this column."%string
            /\ Board.hasFreeSquare (Board.contents h' b) c = Ok false))
    /\ exists f, Board.hasFreeSquare (Board.contents h' b) c = Ok f
                 /\ (f = true <-> exists y0, 0 <= y0 < rows
                                             /\ sq (Board.contents h' b) x y0 = EMPTY).
Proof.
  intros Hwf Hdrop.
  destruct (drop_Ok _ _ _ _ _ _ Hwf Hdrop)
    as (x & y & -> & Hx & Hy & Ht & Hfirst & Hset & _ & Hwf' & _).
  destruct (getFirstFreeSquarePos_Ok _ _ _ Hfirst)
    as (x0 & y0 & [= <-] & [= <-] & _ & _ & He & Habove).
  exists x, y. split; [reflexivity|]. split; [exact Hfirst|].
  destruct (hasFreeSquare_Int (Board.contents h' b) x Hx) as (f & Hf & Hiff).
  split; [|exists f; auto].
  destruct f.
  - left. destruct (getFirstFreeSquarePos_free _ _ Hf) as [y' Hy'].
    exists y'. split; [exact Hy'|].
    destruct (getFirstFreeSquarePos_Ok _ _ _ Hy') as (x1 & y1 & [= <-] & [= <-] & _ & Hy1 & He' & _).
    rewrite Hset in He'.
    destruct (decide (y = y')) as [<-|Hne].
    + rewrite sq_grid_set_eq in He' by (auto using wf_grid_contents).
      apply is_side_not_empty in Ht. congruence.
    + rewrite sq_grid_set_ne in He' by (try lia; congruence).
      destruct (Z_lt_le_dec y' y) as [Hlt|Hge]; [exact Hlt|].
      exfalso. apply (Habove y'); [lia|exact He'].
  - right. split; [|exact Hf].
    unfold Board.getFirstFreeSquarePos. rewrite (proj2 (invalid_Int _ _)) by lia.
    rewrite Hf. reflexivity.
Qed.

Lemma drop_lowers_first_free_witness :
  exists x y,
    Int 0 = Int x
    /\ Board.getFirstFreeSquarePos (Board.contents fresh_store fresh_board) (Int 0) = Ok (Int y)
    /\ ((exists y', Board.getFirstFreeSquarePos
                      (Board.contents (<[5%nat := RED]> fresh_store) fresh_board) (Int 0)
                    = Ok (Int y') /\ y' < y)
        \/ (Board.getFirstFreeSquarePos
              (Board.contents (<[5%nat := RED]> fresh_store) fresh_board) (Int 0)
            = Throw "There is no free square in this column."%string
            /\ Board.hasFreeSquare
                 (Board.contents (<[5%nat := RED]> fresh_store) fresh_board) (Int 0)
               = Ok false))
    /\ exists f, Board.hasFreeSquare
                   (Board.contents (<[5%nat := RED]> fresh_store) fresh_board) (Int 0) = Ok f
                 /\ (f = true <-> exists y0, 0 <= y0 < rows
                      /\ sq (Board.contents (<[5%nat := RED]> fresh_store) fresh_board) x y0
                         = EMPTY).
Proof.
  apply (drop_lowers_first_free fresh_store fresh_board (Int 0) RED tt).
  - exact wf_fresh_board.
  - reflexivity.
Defined.

(** ** The win scan visits the runs in order *)

Lemma for_return_app {A B} (l1 l2 : list A) (f : A -> option B) :
  for_return (l1 ++ l2) f
  = match for_return l1 f with Some b => Some b | None => for_return l2 f end.
Proof. induction l1 as [|a l1 IH]; simpl; [reflexivity|]. destruct (f a); auto. Qed.

Lemma for_return_map {A B C} (h : A -> B) (l : list A) (f : B -> option C) :
  for_return (map h l) f = for_return l (fun a => f (h a)).
Proof. induction l as [|a l IH]; simpl; [reflexivity|]. destruct (f (h a)); auto. Qed.

Lemma for_return_flat_map {A B C} (h : A -> list B) (l : list A) (f : B -> option C) :
  for_return (flat_map h l) f = for_return l (fun a => for_return (h a) f).
Proof.
  induction l as [|a l IH]; simpl; [reflexivity|].
  rewrite for_return_app, IH. reflexivity.
Qed.

Lemma for_return_ext {A B} (l : list A) (f f' : A -> option B) :
  (forall a, f a = f' a) -> for_return l f = for_return l f'.
Proof. intros H. induction l as [|a l IH]; simpl; [reflexivity|]. rewrite H, IH. reflexivity. Qed.

Lemma same_type_refl t : same_type t t = true.
Proof. apply same_type_true. reflexivity. Qed.

Ltac zcmp_true :=
  repeat match goal with
         | |- context [?a >? ?b] =>
             let H := fresh in assert (H : (a >? b) = true) by lia; rewrite H; clear H
         | |- context [?a <? ?b] =>
             let H := fresh in assert (H : (a <? b) = true) by lia; rewrite H; clear H
         end.

Ltac scan_cases :=
  repeat match goal with
         | |- context [negb (isEmpty ?t) && same_type ?t ?u] =>
             destruct (negb (isEmpty t) && same_type t u) eqn:?; simpl
         end;
  repeat match goal with
         | |- context [?a =? ?b] => destruct (Z.eqb_spec a b); try lia
         end;
  try reflexivity.

Lemma scan_down_line g (cell : Z -> Z * Z) y :
  (let currentType := sqc g (cell y) in
   let cpt := scan4 g currentType cell (fun cpt => cpt >? y - 4) Z.pred y in
   if cpt =? y - 4 then Some currentType else None)
  = line_type g [cell y; cell (y - 1); cell (y - 2); cell (y - 3)].
Proof.
  unfold scan4, line_type, sqc. simpl.
  replace (Z.pred y) with (y - 1) by lia.
  replace (Z.pred (y - 1)) with (y - 2) by lia.
  replace (Z.pred (y - 2)) with (y - 3) by lia.
  replace (Z.pred (y - 3)) with (y - 4) by lia.
  destruct (cell y), (cell (y - 1)), (cell (y - 2)), (cell (y - 3)). simpl.
  zcmp_true. simpl. scan_cases.
Qed.

Lemma scan_up_line g (cell : Z -> Z * Z) x :
  (let currentType := sqc g (cell x) in
   let cpt := scan4 g currentType cell (fun cpt => cpt <? x + 4) Z.succ x in
   if cpt =? x + 4 then Some currentType else None)
  = line_type g [cell x; cell (x + 1); cell (x + 2); cell (x + 3)].
Proof.
  unfold scan4, line_type, sqc. simpl.
  replace (Z.succ x) with (x + 1) by lia.
  replace (Z.succ (x + 1)) with (x + 2) by lia.
  replace (Z.succ (x + 2)) with (x + 3) by lia.
  replace (Z.succ (x + 3)) with (x + 4) by lia.
  destruct (cell x), (cell (x + 1)), (cell (x + 2)), (cell (x + 3)). simpl.
  zcmp_true. simpl. scan_cases.
Qed.

Lemma winner_vertical_runs g : winner_vertical g = for_return scan_vertical (line_type g).
Proof.
  unfold winner_vertical, scan_vertical. rewrite for_return_flat_map.
  apply for_return_ext; intros x. rewrite for_return_map.
  apply for_return_ext; intros y.
  apply (scan_down_line g (fun cpt => (x, cpt)) y).
Qed.

Lemma winner_horizontal_runs g :
  winner_horizontal g = for_return scan_horizontal (line_type g).
Proof.
  unfold winner_horizontal, scan_horizontal. rewrite for_return_flat_map.
  apply for_return_ext; intros y. rewrite for_return_map.
  apply for_return_ext; intros x.
  apply (scan_up_line g (fun cpt => (cpt, y)) x).
Qed.

Lemma winner_diagonal_runs g : winner_diagonal g = for_return scan_diagonal (line_type g).
Proof.
  unfold winner_diagonal, scan_diagonal. rewrite for_return_flat_map.
  apply for_return_ext; intros x. rewrite for_return_map.
  apply for_return_ext; intros y.
  pose proof (scan_down_line g (fun cpt => (x + (y - cpt), cpt)) y) as H. simpl in H.
  replace (x + (y - y)) with x in H by lia.
  replace (x + (y - (y - 1))) with (x + 1) in H by lia.
  replace (x + (y - (y - 2))) with (x + 2) in H by lia.
  replace (x + (y - (y - 3))) with (x + 3) in H by lia.
  exact H.
Qed.

Lemma winner_anti_diagonal_runs g :
  winner_anti_diagonal g = for_return scan_anti_diagonal (line_type g).
Proof.
  unfold winner_anti_diagonal, scan_anti_diagonal. rewrite for_return_flat_map.
  apply for_return_ext; intros x. rewrite for_return_map.
  apply for_return_ext; intros y.
  pose proof (scan_down_line g (fun cpt => (x - (y - cpt), cpt)) y) as H. simpl in H.
  replace (x - (y - y)) with x in H by lia.
  replace (x - (y - (y - 1))) with (x - 1) in H by lia.
  replace (x - (y - (y - 2))) with (x - 2) in H by lia.
  replace (x - (y - (y - 3))) with (x - 3) in H by lia.
  exact H.
Qed.

(** The scan is the search of the first filled run, in scan order. *)
Lemma winner_scan g : _getSquareTypeWinner g = for_return scan_runs (line_type g).
Proof.
  unfold _getSquareTypeWinner, scan_runs. rewrite !for_return_app.
  rewrite winner_vertical_runs, winner_horizontal_runs, winner_diagonal_runs,
    winner_anti_diagonal_runs.
  reflexivity.
Qed.

Lemma line_type_Some g w s :
  line_type g w = Some s <->
  w <> [] /\ s <> EMPTY /\ Forall (fun c => sqc g c = s) w.
Proof.
  unfold line_type. destruct w as [|c w]; [split; [discriminate|intros [H _]; congruence]|].
  destruct (forallb _ _) eqn:E.
  - rewrite forallb_forall in E. split.
    + intros [= <-]. split; [discriminate|].
      pose proof (E c (or_introl eq_refl)) as Hc. apply andb_true_iff in Hc.
      destruct Hc as [Hc _]. apply negb_true_iff, isEmpty_false in Hc.
      split; [exact Hc|]. apply Forall_forall. intros c' Hin.
      apply list_elem_of_In in Hin. specialize (E c' Hin). apply andb_true_iff in E.
      apply same_type_true, E.
    + intros (_ & _ & Hall). inversion Hall; subst. reflexivity.
  - split; [discriminate|]. intros (_ & Hs & Hall). exfalso.
    apply not_true_iff_false in E. apply E. apply forallb_forall. intros c' Hin.
    rewrite Forall_forall in Hall. pose proof (Hall c (list_elem_of_here _ _)) as Hc.
    apply list_elem_of_In in Hin. rewrite (Hall c' Hin), Hc.
    apply andb_true_iff. split; [|apply same_type_refl].
    apply negb_true_iff, isEmpty_false, Hs.
Qed.

(** The scan visits every run of the board and nothing else; it may list
    the squares of a run in the other direction. *)
Lemma scan_runs_all : Forall (fun w => Exists (fun w' => w ≡ₚ w') all_runs) scan_runs.
Proof. refine (bool_decide_unpack _ _). vm_compute. exact I. Qed.

Lemma all_runs_scanned : Forall (fun w => Exists (fun w' => w ≡ₚ w') scan_runs) all_runs.
Proof. refine (bool_decide_unpack _ _). vm_compute. exact I. Qed.

(** Every square the scan reads is inside the board. *)
Lemma runs_in_board : Forall (fun w => forallb in_board w = true) scan_runs.
Proof. refine (bool_decide_unpack _ _). vm_compute. exact I. Qed.

Lemma scan_runs_nonempty : Forall (fun w => w <> []) scan_runs.
Proof. refine (bool_decide_unpack _ _). vm_compute. exact I. Qed.

(** The runs of the board are the runs of four squares from a square along
    one of the four orientations that stay inside the board; there are 69. *)
Lemma all_runs_spec w :
  w ∈ all_runs <->
  exists c d, d ∈ directions /\ w = run_from c d /\ forallb in_board w = true.
Proof.
  unfold all_runs. rewrite list_elem_of_In, filter_In, in_flat_map. split.
  - intros [(d & Hd & Hw) Hin]. apply in_map_iff in Hw. destruct Hw as (c & <- & _).
    exists c, d. split; [apply list_elem_of_In, Hd|]. auto.
  - intros (c & d & Hd & -> & Hin). split; [|exact Hin].
    exists d. split; [apply list_elem_of_In, Hd|].
    assert (in_board c = true) as Hc.
    { unfold run_from in Hin. simpl in Hin. apply andb_true_iff in Hin. destruct Hin as [Hin _].
      unfold in_board in *. cbn [fst snd] in *.
      replace (c.1 + 0 * d.1) with (c.1) in Hin by lia.
      replace (c.2 + 0 * d.2) with (c.2) in Hin by lia. exact Hin. }
    apply in_map_iff. exists c. split; [reflexivity|].
    destruct c as [x y]. unfold in_board in Hc. simpl in Hc.
    assert (0 <= x < cols /\ 0 <= y < rows) as [Hx Hy].
    { rewrite !andb_true_iff in Hc. lia. }
    unfold all_cells. apply in_flat_map. exists x. split.
    + rewrite upto_cols. col_cases x; simpl; tauto.
    + apply in_map_iff. exists y. split; [reflexivity|].
      rewrite upto_rows. row_cases y; simpl; tauto.
Qed.

Lemma all_runs_count : length all_runs = 69%nat.
Proof. reflexivity. Qed.

Lemma winner_sound g s : _getSquareTypeWinner g = Some s -> has_run g s.
Proof.
  rewrite winner_scan. intros H. apply for_return_Some in H.
  destruct H as (l1 & w & l2 & El & Hw & _).
  apply line_type_Some in Hw. destruct Hw as (_ & Hs & Hall).
  split; [exact Hs|].
  pose proof scan_runs_all as HA. rewrite Forall_forall in HA.
  assert (w ∈ scan_runs) as Hin by (rewrite El; apply elem_of_app; right; left).
  specialize (HA w Hin). apply Exists_exists in HA. destruct HA as (w' & Hin' & Hperm).
  exists w'. split; [exact Hin'|]. rewrite <- Hperm. exact Hall.
Qed.

Lemma winner_complete g s : has_run g s -> exists s', _getSquareTypeWinner g = Some s'.
Proof.
  intros (Hs & w & Hin & Hall).
  destruct (_getSquareTypeWinner g) as [s'|] eqn:E; [eauto|exfalso].
  rewrite winner_scan in E. rewrite for_return_None in E.
  pose proof all_runs_scanned as HA. rewrite Forall_forall in HA.
  specialize (HA w Hin). apply Exists_exists in HA. destruct HA as (w' & Hin' & Hperm).
  rewrite Forall_forall in E. specialize (E w' Hin').
  assert (line_type g w' = Some s) as E'.
  { apply line_type_Some. split_and!; auto.
    - pose proof scan_runs_nonempty as HN. rewrite Forall_forall in HN. auto.
    - rewrite <- Hperm. exact Hall. }
  congruence.
Qed.

Lemma has_run_sides g s : has_run g s -> s = RED \/ s = BLUE.
Proof. intros [Hs _]. destruct s; auto; congruence. Qed.

(** C2, as stated, fails on a board where both sides occupy a run: the scan
    returns the side of the first run it meets. *)
Lemma winner_iff_run_fails : ~ winner_iff_run two_runs_grid.
Proof.
  intros H. specialize (H BLUE). destruct H as [_ H].
  assert (has_run two_runs_grid BLUE) as Hrun.
  { split; [discriminate|].
    exists [(1, 2); (1, 3); (1, 4); (1, 5)]. split.
    - refine (bool_decide_unpack _ _). vm_compute. exact I.
    - repeat constructor. }
  specialize (H Hrun). vm_compute in H. discriminate.
Qed.

(** C2 (amended): the scan returns a side only if that side occupies a run of
    four consecutive squares along one of the four orientations; it returns
    a side whenever some side occupies such a run; when only one side does,
    it returns that side (when both do, it returns the side of the first
    such run in scan order); it returns no winner on the empty board. *)
Theorem winner_scan_correct g :
  (forall s, _getSquareTypeWinner g = Some s -> has_run g s)
  /\ ((exists s, has_run g s) <-> exists s, _getSquareTypeWinner g = Some s)
  /\ (forall s, has_run g s -> ~ has_run g (other_side s) ->
                _getSquareTypeWinner g = Some s)
  /\ (forall s, _getSquareTypeWinner g = Some s <->
                exists l1 w l2, scan_runs = l1 ++ w :: l2
                                /\ s <> EMPTY /\ Forall (fun c => sqc g c = s) w
                                /\ Forall (fun w' => forall s', has_run g s' ->
                                             ~ Forall (fun c => sqc g c = s') w') l1)
  /\ _getSquareTypeWinner empty_grid = None.
Proof.
  split_and!.
  - apply winner_sound.
  - split.
    + intros [s Hs]. eapply winner_complete; eauto.
    + intros [s Hs]. exists s. apply winner_sound, Hs.
  - intros s Hs Hno. destruct (winner_complete g s Hs) as [s' Hs'].
    pose proof (winner_sound g s' Hs') as Hrun'.
    destruct (has_run_sides _ _ Hs) as [-> | ->], (has_run_sides _ _ Hrun') as [-> | ->];
      simpl in Hno; auto; contradiction.
  - intros s. rewrite winner_scan, for_return_Some. split.
    + intros (l1 & w & l2 & El & Hw & Hl1). exists l1, w, l2.
      apply line_type_Some in Hw. destruct Hw as (_ & Hs & Hall).
      split_and!; auto. rewrite Forall_forall in Hl1 |- *.
      intros w' Hin s' [Hs' _] Hall'.
      assert (line_type g w' = Some s') as E.
      { apply line_type_Some. split_and!; auto.
        pose proof scan_runs_nonempty as HN. rewrite Forall_forall in HN. apply HN.
        rewrite El. apply elem_of_app. left. exact Hin. }
      rewrite (Hl1 w' Hin) in E. discriminate.
    + intros (l1 & w & l2 & El & Hs & Hall & Hl1). exists l1, w, l2.
      split; [exact El|]. split.
      * apply line_type_Some. split_and!; auto.
        pose proof scan_runs_nonempty as HN. rewrite Forall_forall in HN. apply HN.
        rewrite El. apply elem_of_app. right. left.
      * rewrite Forall_forall in Hl1 |- *. intros w' Hin.
        destruct (line_type g w') as [s'|] eqn:E; [exfalso|reflexivity].
        apply line_type_Some in E. destruct E as (_ & Hs' & Hall').
        apply (Hl1 w' Hin s'); [|exact Hall'].
        split; [exact Hs'|].
        pose proof scan_runs_all as HA. rewrite Forall_forall in HA.
        assert (w' ∈ scan_runs) as Hin' by (rewrite El; apply elem_of_app; left; exact Hin).
        specialize (HA w' Hin'). apply Exists_exists in HA. destruct HA as (w'' & Hin'' & Hperm).
        exists w''. split; [exact Hin''|]. rewrite <- Hperm. exact Hall'.
  - reflexivity.
Qed.

(** ** The score visits the runs in order *)

Lemma zsum_app l1 l2 : zsum (l1 ++ l2) = zsum l1 + zsum l2.
Proof. unfold zsum. induction l1 as [|a l1 IH]; simpl; lia. Qed.

Lemma zsum_flat_map {A B} (h : A -> list B) (f : B -> Z) (l : list A) :
  zsum (map f (flat_map h l)) = zsum (map (fun a => zsum (map f (h a))) l).
Proof.
  induction l as [|a l IH]; simpl; [reflexivity|].
  rewrite map_app, zsum_app, IH. reflexivity.
Qed.

Lemma zsum_perm l1 l2 : l1 ≡ₚ l2 -> zsum l1 = zsum l2.
Proof. unfold zsum. induction 1; simpl; lia. Qed.

Lemma fold_left_sum {A} (l : list A) (body : Z -> A -> Z) (f : A -> Z) (a : Z) :
  (forall acc x, body acc x = acc + f x) ->
  fold_left body l a = a + zsum (map f l).
Proof.
  intros Hbody. revert a. induction l as [|x l IH]; intros a; simpl; [lia|].
  rewrite IH, Hbody. lia.
Qed.

(** Two nested accumulating loops over the runs [h x y]. *)
Lemma fold_left_runs (xs ys : list Z) (inner : Z -> Z -> Z -> Z)
    (h : Z -> Z -> list (Z * Z)) (pts : list (Z * Z) -> Z) :
  (forall x acc y, inner x acc y = acc + pts (h x y)) ->
  fold_left (fun acc x => fold_left (inner x) ys acc) xs 0
  = zsum (map pts (flat_map (fun x => map (h x) ys) xs)).
Proof.
  intros Hin. rewrite zsum_flat_map.
  rewrite (fold_left_sum xs _ (fun x => zsum (map pts (map (h x) ys)))).
  - lia.
  - intros acc x. rewrite (fold_left_sum ys _ (fun y => pts (h x y))) by apply Hin.
    rewrite map_map. reflexivity.
Qed.

Lemma while_step {S} n (cond : S -> bool) body (s : S) :
  while (Datatypes.S n) cond body s = if cond s then while n cond body (body s) else s.
Proof. reflexivity. Qed.

Lemma count_cells_cons p g c w :
  count_cells p g (c :: w) = Z.b2z (p (sqc g c)) + count_cells p g w.
Proof.
  unfold count_cells. simpl. destruct (p (sqc g c)); simpl; lia.
Qed.

Lemma count_cells_nil p g : count_cells p g [] = 0.
Proof. reflexivity. Qed.

(** The counting loop over the four squares it visits. *)
Lemma count4_run g mine (cell : Z -> Z * Z) cond next s0 :
  cond s0 = true -> cond (next s0) = true -> cond (next (next s0)) = true ->
  cond (next (next (next s0))) = true ->
  count4 g mine cell cond next s0
  = (count_empty g [cell s0; cell (next s0); cell (next (next s0));
                    cell (next (next (next s0)))],
     count_mine g mine [cell s0; cell (next s0); cell (next (next s0));
                        cell (next (next (next s0)))]).
Proof.
  intros H0 H1 H2 H3. unfold count4.
  match goal with
  | |- context [while 4 ?c0 ?b0 _] => set (c := c0); set (body := b0)
  end.
  assert (Hbody : forall cpt e p,
             body (cpt, e, p)
             = (next cpt, e + Z.b2z (isEmpty (sqc g (cell cpt))),
                p + Z.b2z (negb (isEmpty (sqc g (cell cpt)))
                           && same_type (sqc g (cell cpt)) mine))).
  { intros cpt e p. unfold body, sqc. destruct (cell cpt) as [cx cy]. simpl.
    destruct (isEmpty (sq g cx cy)); simpl.
    - repeat (f_equal; try lia).
    - destruct (same_type (sq g cx cy) mine); simpl; repeat (f_equal; try lia). }
  assert (Hc : forall cpt e p, c (cpt, e, p) = cond cpt) by reflexivity.
  rewrite while_step, Hc, H0, Hbody.
  rewrite while_step, Hc, H1, Hbody.
  rewrite while_step, Hc, H2, Hbody.
  rewrite while_step, Hc, H3, Hbody.
  simpl while. unfold count_empty, count_mine.
  rewrite !count_cells_cons, !count_cells_nil. f_equal; lia.
Qed.

Lemma count4_down g mine (cell : Z -> Z * Z) y :
  count4 g mine cell (fun cpt => cpt >? y - 4) Z.pred y
  = (count_empty g [cell y; cell (y - 1); cell (y - 2); cell (y - 3)],
     count_mine g mine [cell y; cell (y - 1); cell (y - 2); cell (y - 3)]).
Proof.
  rewrite count4_run by (cbv beta; unfold Z.pred, Z.succ; lia).
  replace (Z.pred y) with (y - 1) by lia.
  replace (Z.pred (y - 1)) with (y - 2) by lia.
  replace (Z.pred (y - 2)) with (y - 3) by lia.
  reflexivity.
Qed.

Lemma count4_up g mine (cell : Z -> Z * Z) x :
  count4 g mine cell (fun cpt => cpt <? x + 4) Z.succ x
  = (count_empty g [cell x; cell (x + 1); cell (x + 2); cell (x + 3)],
     count_mine g mine [cell x; cell (x + 1); cell (x + 2); cell (x + 3)]).
Proof.
  rewrite count4_run by (cbv beta; unfold Z.pred, Z.succ; lia).
  replace (Z.succ x) with (x + 1) by lia.
  replace (Z.succ (x + 1)) with (x + 2) by lia.
  replace (Z.succ (x + 2)) with (x + 3) by lia.
  reflexivity.
Qed.

Lemma calcScore_table e f : _calcScore e f = window_points e f.
Proof.
  destruct e as [|[[p|p|]|[p|p|]|]|p];
    destruct f as [|[[[q|q|]|[q|q|]|]|[[q|q|]|[q|q|]|]|]|q]; reflexivity.
Qed.

Lemma vertical_points_runs g mine :
  vertical_points g mine
  = zsum (map (fun w => window_points (count_empty g w) (count_mine g mine w)) scan_vertical).
Proof.
  unfold vertical_points, scan_vertical.
  apply (fold_left_runs _ _ _ (fun x y => [(x, y); (x, y - 1); (x, y - 2); (x, y - 3)])).
  intros x acc y. rewrite (count4_down g mine (fun cpt => (x, cpt)) y).
  rewrite calcScore_table. reflexivity.
Qed.

Lemma horizontal_points_runs g mine :
  horizontal_points g mine
  = zsum (map (fun w => window_points (count_empty g w) (count_mine g mine w))
              scan_horizontal).
Proof.
  unfold horizontal_points, scan_horizontal.
  apply (fold_left_runs _ _ _ (fun y x => [(x, y); (x + 1, y); (x + 2, y); (x + 3, y)])).
  intros y acc x. rewrite (count4_up g mine (fun cpt => (cpt, y)) x).
  rewrite calcScore_table. reflexivity.
Qed.

Lemma diagonal_points_runs g mine :
  diagonal_points g mine
  = zsum (map (fun w => window_points (count_empty g w) (count_mine g mine w)) scan_diagonal).
Proof.
  unfold diagonal_points, scan_diagonal.
  apply (fold_left_runs _ _ _
           (fun x y => [(x, y); (x + 1, y - 1); (x + 2, y - 2); (x + 3, y - 3)])).
  intros x acc y. rewrite (count4_down g mine (fun cpt => (x + (y - cpt), cpt)) y).
  rewrite calcScore_table.
  replace (x + (y - y)) with x by lia.
  replace (x + (y - (y - 1))) with (x + 1) by lia.
  replace (x + (y - (y - 2))) with (x + 2) by lia.
  replace (x + (y - (y - 3))) with (x + 3) by lia.
  reflexivity.
Qed.

Lemma anti_diagonal_points_runs g mine :
  anti_diagonal_points g mine
  = zsum (map (fun w => window_points (count_empty g w) (count_mine g mine w))
              scan_anti_diagonal).
Proof.
  unfold anti_diagonal_points, scan_anti_diagonal.
  apply (fold_left_runs _ _ _
           (fun x y => [(x, y); (x - 1, y - 1); (x - 2, y - 2); (x - 3, y - 3)])).
  intros x acc y. rewrite (count4_down g mine (fun cpt => (x - (y - cpt), cpt)) y).
  rewrite calcScore_table.
  replace (x - (y - y)) with x by lia.
  replace (x - (y - (y - 1))) with (x - 1) by lia.
  replace (x - (y - (y - 2))) with (x - 2) by lia.
  replace (x - (y - (y - 3))) with (x - 3) by lia.
  reflexivity.
Qed.

Lemma center_points_cells g mine :
  center_points g mine = 4 * count_side g mine center_cells.
Proof.
  unfold center_points, count_side, center_cells.
  rewrite (fold_left_sum _ _ (fun y => 4 * Z.b2z (same_type (sq g (cols / 2) y) mine))).
  - rewrite downto_rows, upto_rows. simpl map.
    rewrite !count_cells_cons, count_cells_nil. unfold sqc, zsum. simpl.
    change (cols / 2) with 3. lia.
  - intros acc y. destruct (same_type _ _); unfold CENTER_POINTS; simpl; lia.
Qed.

(** The score is the center bonus plus the points of the runs of the scan. *)
Lemma getScore_runs g player :
  _getScore g player
  = 4 * count_side g (squareType player) center_cells
    + zsum (map (fun w => window_points (count_empty g w)
                            (count_mine g (squareType player) w)) scan_runs).
Proof.
  unfold _getScore, scan_runs.
  rewrite center_points_cells, vertical_points_runs, horizontal_points_runs,
    diagonal_points_runs, anti_diagonal_points_runs.
  rewrite !map_app, !zsum_app. lia.
Qed.

Lemma count_cells_perm p g w w' : w ≡ₚ w' -> count_cells p g w = count_cells p g w'.
Proof.
  intros H. unfold count_cells. f_equal. induction H; simpl.
  - reflexivity.
  - destruct (p (sqc g x)); simpl; congruence.
  - destruct (p (sqc g x)), (p (sqc g y)); reflexivity.
  - congruence.
Qed.

Lemma canonical_run_perm w : canonical_run w ≡ₚ w.
Proof.
  unfold canonical_run. destruct (bool_decide _); [reflexivity|].
  apply reverse_Permutation.
Qed.

Lemma canonical_scan_runs : map canonical_run scan_runs ≡ₚ all_runs.
Proof. refine (bool_decide_unpack _ _). vm_compute. exact I. Qed.

(** A sum over the runs of the scan is a sum over all runs, when the terms do
    not depend on the order of the squares in a run. *)
Lemma zsum_scan_runs (pts : list (Z * Z) -> Z) :
  (forall w w', w ≡ₚ w' -> pts w = pts w') ->
  zsum (map pts scan_runs) = zsum (map pts all_runs).
Proof.
  intros Hpts. rewrite <- (zsum_perm _ _ (Permutation_map pts canonical_scan_runs)).
  rewrite map_map. f_equal. apply map_ext. intros w.
  symmetry. apply Hpts, canonical_run_perm.
Qed.

Lemma count_mine_side g s w : s <> EMPTY -> count_mine g s w = count_side g s w.
Proof.
  intros Hs. unfold count_mine, count_side, count_cells. do 2 f_equal.
  apply filter_ext. intros c. destruct (same_type (sqc g c) s) eqn:E.
  - apply same_type_true in E. rewrite E.
    rewrite (proj2 (isEmpty_false s) Hs). reflexivity.
  - apply andb_false_r.
Qed.

Lemma counts_total g s w :
  s <> EMPTY ->
  count_empty g w + count_side g s w + count_side g (other_side s) w = Z.of_nat (length w).
Proof.
  intros Hs. unfold count_empty, count_side. induction w as [|c w IH]; [reflexivity|].
  rewrite !count_cells_cons. simpl length. rewrite Nat2Z.inj_succ.
  destruct (sqc g c), s; simpl in *; try congruence; lia.
Qed.

Lemma count_cells_nonneg p g w : 0 <= count_cells p g w.
Proof. unfold count_cells. lia. Qed.

Lemma count_cells_pos p g w c : c ∈ w -> p (sqc g c) = true -> 1 <= count_cells p g w.
Proof.
  intros Hin Hp. induction Hin as [c w|c c' w Hin IH]; rewrite count_cells_cons.
  - rewrite Hp. pose proof (count_cells_nonneg p g w). simpl. lia.
  - pose proof (IH Hp). destruct (p (sqc g c')); simpl; lia.
Qed.

Lemma all_runs_length : Forall (fun w => length w = 4%nat) all_runs.
Proof. refine (bool_decide_unpack _ _). vm_compute. exact I. Qed.

(** C6: the score of a board for a side is 4 points per square of that side
    in the center column plus, for every run of four squares along the four
    orientations, the points the table gives for (empty squares, squares of
    the side) in the run; [_calcScore] is that table, every combination out
    of the table is worth 0, and so is every run that holds squares of both
    sides. *)
Theorem getScore_formula g player :
  squareType player <> EMPTY ->
  _getScore g player = score_of g (squareType player)
  /\ (forall e f, _calcScore e f = window_points e f)
  /\ (window_points 0 4 = 10000 /\ window_points 0 0 = -1000
      /\ window_points 1 3 = 5 /\ window_points 1 0 = -5
      /\ window_points 2 2 = 2 /\ window_points 2 0 = -2)
  /\ (forall e f, (e, f) ∉ [(0, 4); (0, 0); (1, 3); (1, 0); (2, 2); (2, 0)] ->
                  window_points e f = 0)
  /\ (forall w, w ∈ all_runs ->
                (exists c, c ∈ w /\ sqc g c = squareType player) ->
                (exists c, c ∈ w /\ sqc g c = other_side (squareType player)) ->
                window_points (count_empty g w) (count_side g (squareType player) w) = 0).
Proof.
  intros Hs. split_and!; try reflexivity.
  - rewrite getScore_runs. unfold score_of. f_equal.
    rewrite <- zsum_scan_runs.
    + f_equal. apply map_ext. intros w. rewrite count_mine_side by exact Hs. reflexivity.
    + intros w w' Hperm. unfold count_empty, count_side.
      rewrite (count_cells_perm _ g w w' Hperm), (count_cells_perm _ g w w' Hperm).
      reflexivity.
  - apply calcScore_table.
  - intros e f Hnot.
    destruct e as [|[[p|p|]|[p|p|]|]|p];
      destruct f as [|[[[q|q|]|[q|q|]|]|[[q|q|]|[q|q|]|]|]|q]; try reflexivity;
      exfalso; apply Hnot;
      repeat first [apply list_elem_of_here | apply list_elem_of_further].
  - intros w Hw (c1 & Hc1 & E1) (c2 & Hc2 & E2).
    pose proof all_runs_length as HL. rewrite Forall_forall in HL. specialize (HL w Hw).
    pose proof (counts_total g (squareType player) w Hs) as Htot. rewrite HL in Htot.
    assert (1 <= count_side g (squareType player) w) as H1.
    { apply (count_cells_pos _ g w c1 Hc1). apply same_type_true, E1. }
    assert (1 <= count_side g (other_side (squareType player)) w) as H2.
    { apply (count_cells_pos _ g w c2 Hc2). apply same_type_true, E2. }
    pose proof (count_cells_nonneg isEmpty g w) as H0. fold (count_empty g w) in H0.
    set (e := count_empty g w) in *. set (f := count_side g (squareType player) w) in *.
    assert (e = 0 \/ e = 1 \/ e = 2) as He by lia.
    assert (f = 1 \/ f = 2 \/ f = 3) as Hf by lia.
    destruct He as [-> | [-> | ->]], Hf as [-> | [-> | ->]]; try reflexivity; lia.
Qed.

Lemma getScore_formula_witness :
  _getScore two_runs_grid (mkPlayer None HUMAN RED) = score_of two_runs_grid RED.
Proof.
  assert (squareType (mkPlayer None HUMAN RED) <> EMPTY) as Hs by discriminate.
  exact (proj1 (getScore_formula two_runs_grid (mkPlayer None HUMAN RED) Hs)).
Defined.

(** ** Exchanging the sides *)

Lemma sq_swap_sides g x y : sq (swap_sides g) x y = other_side (sq g x y).
Proof.
  unfold sq. destruct ((x <? 0) || (y <? 0)); [reflexivity|].
  unfold swap_sides. rewrite list_lookup_fmap.
  destruct (g !! Z.to_nat x) as [col|]; simpl; [|reflexivity].
  rewrite list_lookup_fmap. destruct (col !! Z.to_nat y); reflexivity.
Qed.

Lemma count_cells_swap p p' g w :
  (forall t, p' (other_side t) = p t) ->
  count_cells p' (swap_sides g) w = count_cells p g w.
Proof.
  intros Hp. unfold count_cells. do 2 f_equal. apply filter_ext. intros c.
  unfold sqc. rewrite sq_swap_sides. apply Hp.
Qed.

(** C7: the score of a board for one side is the score, for the other side,
    of the board with the marks of the two sides exchanged. *)
Theorem score_side_swap g pX pY :
  squareType pY = other_side (squareType pX) ->
  _getScore g pX = _getScore (swap_sides g) pY.
Proof.
  intros HY. rewrite !getScore_runs, HY. f_equal.
  - f_equal. unfold count_side. symmetry. apply count_cells_swap.
    intros t. destruct t, (squareType pX); reflexivity.
  - f_equal. apply map_ext. intros w. unfold count_empty, count_mine.
    rewrite (count_cells_swap isEmpty isEmpty) by (intros []; reflexivity).
    rewrite (count_cells_swap (fun t => negb (isEmpty t) && same_type t (squareType pX))).
    + reflexivity.
    + intros t. destruct t, (squareType pX); reflexivity.
Qed.

Lemma score_side_swap_witness :
  _getScore two_runs_grid (mkPlayer None HUMAN RED)
  = _getScore (swap_sides two_runs_grid) (mkPlayer None EASY_BOT BLUE).
Proof.
  exact (score_side_swap two_runs_grid (mkPlayer None HUMAN RED)
           (mkPlayer None EASY_BOT BLUE) eq_refl).
Defined.

(** ** The order of the numbers *)

Lemma bounded_proper N a : bounded N a -> proper a.
Proof. destruct a; simpl; unfold proper; intros; congruence. Qed.

Lemma bounded_mono N N' a : N <= N' -> bounded N a -> bounded N' a.
Proof. destruct a; simpl; intros; auto; lia. Qed.

Lemma bounded_exists (l : list jsnum) :
  Forall proper l -> exists N, 0 < N /\ Forall (bounded N) l.
Proof.
  induction 1 as [|a l Ha _ (N & HN & IH)].
  - exists 1. split; [lia|constructor].
  - destruct a as [| |z|]; unfold proper in Ha; try congruence.
    + exists N. split; [lia|]. constructor; [exact I|exact IH].
    + exists (N + Z.abs z + 1). split; [lia|]. constructor; [simpl; lia|].
      eapply Forall_impl; [exact IH|]. intros b. apply bounded_mono. lia.
    + exists N. split; [lia|]. constructor; [exact I|exact IH].
Qed.

Section Rank.
Variable N : Z.
Hypothesis N_pos : 0 < N.

Lemma jlt_rank a b : bounded N a -> bounded N b -> (jlt a b = true <-> rank N a < rank N b).
Proof. destruct a, b; simpl; intros; try tauto; try lia; split; (congruence || lia). Qed.

Lemma jlt_rank_false a b :
  bounded N a -> bounded N b -> (jlt a b = false <-> rank N b <= rank N a).
Proof. destruct a, b; simpl; intros; try tauto; try lia; split; (congruence || lia). Qed.

Lemma jle_rank a b : bounded N a -> bounded N b -> (jle a b = true <-> rank N a <= rank N b).
Proof. destruct a, b; simpl; intros; try tauto; try lia; split; (congruence || lia). Qed.

Lemma jle_rank_false a b :
  bounded N a -> bounded N b -> (jle a b = false <-> rank N b < rank N a).
Proof. destruct a, b; simpl; intros; try tauto; try lia; split; (congruence || lia). Qed.

Lemma eq_rank a b : bounded N a -> bounded N b -> (a = b <-> rank N a = rank N b).
Proof.
  destruct a, b; simpl; intros; try tauto; split; intros; try congruence; try lia.
Qed.

Lemma Math_max_rank a b :
  bounded N a -> bounded N b -> rank N (Math_max a b) = Z.max (rank N a) (rank N b).
Proof.
  destruct a, b; simpl; intros; try tauto; try lia.
  destruct (Z.ltb_spec z z0); simpl; lia.
Qed.

Lemma Math_min_rank a b :
  bounded N a -> bounded N b -> rank N (Math_min a b) = Z.min (rank N a) (rank N b).
Proof.
  destruct a, b; simpl; intros; try tauto; try lia.
  destruct (Z.ltb_spec z0 z); simpl; lia.
Qed.

Lemma Math_max_bounded a b : bounded N a -> bounded N b -> bounded N (Math_max a b).
Proof.
  destruct a, b; simpl; intros; try tauto.
  destruct (Z.ltb_spec z z0); simpl; lia.
Qed.

Lemma Math_min_bounded a b : bounded N a -> bounded N b -> bounded N (Math_min a b).
Proof.
  destruct a, b; simpl; intros; try tauto.
  destruct (Z.ltb_spec z0 z); simpl; lia.
Qed.
End Rank.

Lemma rank_bounds N a : 0 < N -> bounded N a -> - N <= rank N a <= N.
Proof. destruct a; simpl; intros; lia. Qed.

Lemma jgt_pick c m : proper c -> proper m -> (if jgt c m then c else m) = Math_max m c.
Proof. unfold proper, jgt. destruct c, m; simpl; intros; congruence. Qed.

(** Moves the comparisons of numbers bounded by [N] to the integers. *)
Ltac to_rank N HN :=
  repeat match goal with
         | H : Forall _ (_ :: _) |- _ => apply Forall_cons in H; destruct H
         | H : Forall _ [] |- _ => clear H
         end;
  repeat first
    [ rewrite (jlt_rank N HN) in * by auto using Math_max_bounded, Math_min_bounded
    | rewrite (jlt_rank_false N HN) in * by auto using Math_max_bounded, Math_min_bounded
    | rewrite (jle_rank N HN) in * by auto using Math_max_bounded, Math_min_bounded
    | rewrite (jle_rank_false N HN) in * by auto using Math_max_bounded, Math_min_bounded
    | rewrite (Math_max_rank N HN) in * by auto using Math_max_bounded, Math_min_bounded
    | rewrite (Math_min_rank N HN) in * by auto using Math_max_bounded, Math_min_bounded
    | rewrite (eq_rank N HN) in * by auto using Math_max_bounded, Math_min_bounded ].

(** Finds a bound for the numbers of [l] and decides the goal there. *)
Ltac rank_lia l :=
  let N := fresh "N" in
  let HN := fresh "HN" in
  let HB := fresh "HB" in
  destruct (bounded_exists l) as (N & HN & HB);
  [ repeat constructor; auto; unfold proper; congruence
  | to_rank N HN;
    repeat match goal with
           | H : bounded N ?a |- _ => apply (rank_bounds N a HN) in H
           end;
    cbn [rank] in *;
    repeat match goal with
           | H : ?x = ?x -> _ |- _ => specialize (H eq_refl)
           end;
    repeat split; intros; first [reflexivity | discriminate | lia] ].

(** ** Windows of the pruned search *)

Lemma Math_max_proper a b : proper a -> proper b -> proper (Math_max a b).
Proof. unfold proper. destruct a, b; simpl; try congruence. destruct (_ <? _); congruence. Qed.

Lemma Math_min_proper a b : proper a -> proper b -> proper (Math_min a b).
Proof. unfold proper. destruct a, b; simpl; try congruence. destruct (_ <? _); congruence. Qed.

Lemma jle_refl r : proper r -> jle r r = true.
Proof. unfold proper. destruct r; simpl; try congruence. intros. apply Z.leb_refl. Qed.

Lemma window_ok_exact r a b : proper r -> window_ok r r a b.
Proof. intros Hr. unfold window_ok. split_and!; auto using jle_refl. Qed.

(** One step of the maximizer's loop that does not cut. *)
Lemma max_step_continue a0 b m mt c cv :
  proper a0 -> proper b -> proper m -> proper mt ->
  jlt (Math_max a0 m) b = true ->
  (jle m a0 = true -> jle mt m = true) -> (jlt a0 m = true -> mt = m) ->
  window_ok c cv (Math_max a0 m) b ->
  jle b (Math_max (Math_max a0 m) c) = false ->
  proper (Math_max m c) /\ proper (Math_max mt cv)
  /\ Math_max (Math_max a0 m) c = Math_max a0 (Math_max m c)
  /\ jlt (Math_max a0 (Math_max m c)) b = true
  /\ (jle (Math_max m c) a0 = true -> jle (Math_max mt cv) (Math_max m c) = true)
  /\ (jlt a0 (Math_max m c) = true -> Math_max mt cv = Math_max m c).
Proof.
  intros Ha0 Hb Hm Hmt Hlt H1 H2 (Hc & Hcv & W1 & W2 & W3) Hcut.
  split; [auto using Math_max_proper|]. split; [auto using Math_max_proper|].
  rank_lia [a0; b; m; mt; c; cv].
Qed.

(** A step that cuts: the value found is at least [beta], and the exact
    value can only be larger. *)
Lemma max_step_cut a0 b m mt c cv V :
  proper a0 -> proper b -> proper m -> proper mt -> proper V ->
  jlt (Math_max a0 m) b = true ->
  window_ok c cv (Math_max a0 m) b ->
  jle b (Math_max (Math_max a0 m) c) = true ->
  jle (Math_max mt cv) V = true ->
  window_ok (Math_max m c) V a0 b.
Proof.
  intros Ha0 Hb Hm Hmt HV Hlt (Hc & Hcv & W1 & W2 & W3) Hcut HVge.
  unfold window_ok. split; [auto using Math_max_proper|]. split; [exact HV|].
  rank_lia [a0; b; m; mt; c; cv; V].
Qed.

Lemma max_loop_end a0 b m mt :
  proper a0 -> proper b -> proper m -> proper mt ->
  jlt (Math_max a0 m) b = true ->
  (jle m a0 = true -> jle mt m = true) -> (jlt a0 m = true -> mt = m) ->
  window_ok m mt a0 b.
Proof.
  intros Ha0 Hb Hm Hmt Hlt H1 H2. unfold window_ok. split; [exact Hm|]. split; [exact Hmt|].
  rank_lia [a0; b; m; mt].
Qed.

Lemma min_step_continue a b0 m mt c cv :
  proper a -> proper b0 -> proper m -> proper mt ->
  jlt a (Math_min b0 m) = true ->
  (jle b0 m = true -> jle m mt = true) -> (jlt m b0 = true -> mt = m) ->
  window_ok c cv a (Math_min b0 m) ->
  jle (Math_min (Math_min b0 m) c) a = false ->
  proper (Math_min c m) /\ proper (Math_min mt cv)
  /\ Math_min (Math_min b0 m) c = Math_min b0 (Math_min c m)
  /\ jlt a (Math_min b0 (Math_min c m)) = true
  /\ (jle b0 (Math_min c m) = true -> jle (Math_min c m) (Math_min mt cv) = true)
  /\ (jlt (Math_min c m) b0 = true -> Math_min mt cv = Math_min c m).
Proof.
  intros Ha Hb Hm Hmt Hlt H1 H2 (Hc & Hcv & W1 & W2 & W3) Hcut.
  split; [auto using Math_min_proper|]. split; [auto using Math_min_proper|].
  rank_lia [a; b0; m; mt; c; cv].
Qed.

Lemma min_step_cut a b0 m mt c cv V :
  proper a -> proper b0 -> proper m -> proper mt -> proper V ->
  jlt a (Math_min b0 m) = true ->
  window_ok c cv a (Math_min b0 m) ->
  jle (Math_min (Math_min b0 m) c) a = true ->
  jle V (Math_min mt cv) = true ->
  window_ok (Math_min c m) V a b0.
Proof.
  intros Ha Hb Hm Hmt HV Hlt (Hc & Hcv & W1 & W2 & W3) Hcut HVle.
  unfold window_ok. split; [auto using Math_min_proper|]. split; [exact HV|].
  rank_lia [a; b0; m; mt; c; cv; V].
Qed.

Lemma min_loop_end a b0 m mt :
  proper a -> proper b0 -> proper m -> proper mt ->
  jlt a (Math_min b0 m) = true ->
  (jle b0 m = true -> jle m mt = true) -> (jlt m b0 = true -> mt = m) ->
  window_ok m mt a b0.
Proof.
  intros Ha Hb Hm Hmt Hlt H1 H2. unfold window_ok. split; [exact Hm|]. split; [exact Hmt|].
  rank_lia [a; b0; m; mt].
Qed.

Lemma Math_max_NegInf a : proper a -> Math_max a NegInf = a.
Proof. unfold proper. destruct a; simpl; congruence. Qed.

Lemma Math_min_PosInf a : proper a -> Math_min a PosInf = a.
Proof. unfold proper. destruct a; simpl; congruence. Qed.

Lemma jle_Math_max_l a b : proper a -> proper b -> jle a (Math_max a b) = true.
Proof. intros Ha Hb. rank_lia [a; b]. Qed.

Lemma jle_Math_min_l a b : proper a -> proper b -> jle (Math_min a b) a = true.
Proof. intros Ha Hb. rank_lia [a; b]. Qed.

Lemma jle_trans a b c :
  proper a -> proper b -> proper c -> jle a b = true -> jle b c = true -> jle a c = true.
Proof. intros Ha Hb Hc H1 H2. rank_lia [a; b; c]. Qed.

Section Pruning.

(** [child pos alpha beta] is the pruned search below a column and
    [value pos] the exact value there. *)
Variable child : Z -> jsnum -> jsnum -> jsnum.
Variable value : Z -> jsnum.

Lemma fold_max_proper free mt :
  proper mt -> Forall (fun pos => proper (value pos)) free ->
  proper (fold_left (fun best pos => Math_max best (value pos)) free mt).
Proof.
  intros Hmt Hv. revert mt Hmt. induction Hv as [|pos free Hp _ IH]; intros mt Hmt; simpl.
  - exact Hmt.
  - apply IH. auto using Math_max_proper.
Qed.

Lemma fold_max_ge free mt :
  proper mt -> Forall (fun pos => proper (value pos)) free ->
  jle mt (fold_left (fun best pos => Math_max best (value pos)) free mt) = true.
Proof.
  intros Hmt Hv. revert mt Hmt. induction Hv as [|pos free Hp Hv IH]; intros mt Hmt; simpl.
  - apply jle_refl, Hmt.
  - eapply (jle_trans _ (Math_max mt (value pos))); auto using Math_max_proper, jle_Math_max_l.
    apply fold_max_proper; auto using Math_max_proper.
Qed.

Lemma fold_min_proper free mt :
  proper mt -> Forall (fun pos => proper (value pos)) free ->
  proper (fold_left (fun best pos => Math_min best (value pos)) free mt).
Proof.
  intros Hmt Hv. revert mt Hmt. induction Hv as [|pos free Hp _ IH]; intros mt Hmt; simpl.
  - exact Hmt.
  - apply IH. auto using Math_min_proper.
Qed.

Lemma fold_min_le free mt :
  proper mt -> Forall (fun pos => proper (value pos)) free ->
  jle (fold_left (fun best pos => Math_min best (value pos)) free mt) mt = true.
Proof.
  intros Hmt Hv. revert mt Hmt. induction Hv as [|pos free Hp Hv IH]; intros mt Hmt; simpl.
  - apply jle_refl, Hmt.
  - eapply (jle_trans _ (Math_min mt (value pos))); auto using Math_min_proper, jle_Math_min_l.
    apply fold_min_proper; auto using Math_min_proper.
Qed.

Variable free : list Z.

Hypothesis child_window :
  forall pos a b, pos ∈ free -> proper a -> proper b -> jlt a b = true ->
                  window_ok (child pos a b) (value pos) a b.

Lemma value_proper : Forall (fun pos => proper (value pos)) free.
Proof.
  apply Forall_forall. intros pos Hin.
  destruct (child_window pos NegInf PosInf Hin) as (_ & Hv & _); try discriminate; auto.
Qed.

(** The maximizer's loop keeps the window property. *)
Lemma max_loop_window todo m bp mt a0 b :
  todo ⊆ free ->
  proper a0 -> proper b -> proper m -> proper mt ->
  jlt (Math_max a0 m) b = true ->
  (jle m a0 = true -> jle mt m = true) -> (jlt a0 m = true -> mt = m) ->
  window_ok (fst (max_loop_g child todo m bp (Math_max a0 m) b))
            (fold_left (fun best pos => Math_max best (value pos)) todo mt) a0 b.
Proof.
  revert m bp mt. induction todo as [|pos todo IH]; intros m bp mt Hsub Ha0 Hb Hm Hmt Hlt H1 H2.
  - simpl. apply max_loop_end; auto.
  - assert (pos ∈ free) as Hpos by (apply Hsub; left).
    assert (todo ⊆ free) as Hsub' by (intros x Hx; apply Hsub; right; exact Hx).
    pose proof (child_window pos (Math_max a0 m) b Hpos (Math_max_proper _ _ Ha0 Hm) Hb Hlt) as Hw.
    pose proof Hw as (Hc & Hcv & _).
    assert (Forall (fun pos => proper (value pos)) todo) as Hvs.
    { apply Forall_forall. intros x Hx. pose proof value_proper as Hall.
      rewrite Forall_forall in Hall. auto. }
    simpl.
    set (c := child pos (Math_max a0 m) b) in *.
    assert ((if jgt c m then (c, Int pos) else (m, bp))
            = (Math_max m c, if jgt c m then Int pos else bp)) as ->.
    { rewrite <- (jgt_pick c m) by auto. destruct (jgt c m); reflexivity. }
    destruct (jle b (Math_max (Math_max a0 m) c)) eqn:Hcut.
    + simpl. apply (max_step_cut a0 b m mt c (value pos)); auto.
      * apply fold_max_proper; auto using Math_max_proper.
      * apply fold_max_ge; auto using Math_max_proper.
    + destruct (max_step_continue a0 b m mt c (value pos)) as (Hm' & Hmt' & Ea & Hlt' & H1' & H2');
        auto.
      rewrite Ea. apply IH; auto.
Qed.

(** The minimizer's loop keeps the window property. *)
Lemma min_loop_window todo m mt a b0 :
  todo ⊆ free ->
  proper a -> proper b0 -> proper m -> proper mt ->
  jlt a (Math_min b0 m) = true ->
  (jle b0 m = true -> jle m mt = true) -> (jlt m b0 = true -> mt = m) ->
  window_ok (min_loop_g child todo m a (Math_min b0 m))
            (fold_left (fun best pos => Math_min best (value pos)) todo mt) a b0.
Proof.
  revert m mt. induction todo as [|pos todo IH]; intros m mt Hsub Ha Hb Hm Hmt Hlt H1 H2.
  - simpl. apply min_loop_end; auto.
  - assert (pos ∈ free) as Hpos by (apply Hsub; left).
    assert (todo ⊆ free) as Hsub' by (intros x Hx; apply Hsub; right; exact Hx).
    pose proof (child_window pos a (Math_min b0 m) Hpos Ha (Math_min_proper _ _ Hb Hm) Hlt) as Hw.
    pose proof Hw as (Hc & Hcv & _).
    assert (Forall (fun pos => proper (value pos)) todo) as Hvs.
    { apply Forall_forall. intros x Hx. pose proof value_proper as Hall.
      rewrite Forall_forall in Hall. auto. }
    simpl.
    set (c := child pos a (Math_min b0 m)) in *.
    destruct (jle (Math_min (Math_min b0 m) c) a) eqn:Hcut.
    + apply (min_step_cut a b0 m mt c (value pos)); auto.
      * apply fold_min_proper; auto using Math_min_proper.
      * apply fold_min_le; auto using Math_min_proper.
    + destruct (min_step_continue a b0 m mt c (value pos)) as (Hm' & Hmt' & Eb & Hlt' & H1' & H2');
        auto.
      rewrite Eb. apply IH; auto.
Qed.

(** With the full window above [m], the maximizer's loop is the loop of the
    exhaustive search: same maximum, same column. *)
Lemma best_step m c cv :
  proper m -> jlt m PosInf = true -> window_ok c cv m PosInf ->
  jgt cv m = jgt c m
  /\ (jgt c m = true -> cv = c)
  /\ Math_max m c = (if jgt c m then c else m)
  /\ (jle PosInf (Math_max m c) = true -> c = PosInf /\ jgt c m = true)
  /\ (jle PosInf (Math_max m c) = false -> jlt (Math_max m c) PosInf = true).
Proof.
  intros Hm Hlt (Hc & Hcv & W1 & W2 & W3).
  rewrite (jgt_pick c m) by auto. unfold jgt.
  destruct (jlt m c) eqn:E1, (jlt m cv) eqn:E2;
    (split; [first [reflexivity | exfalso] | split; [try discriminate|split; [reflexivity|]]]);
    rank_lia [m; c; cv; PosInf].
Qed.

Lemma best_loop_cons pos todo m bp :
  best_loop value (pos :: todo) (m, bp)
  = best_loop value todo (if jgt (value pos) m then (value pos, Int pos) else (m, bp)).
Proof. reflexivity. Qed.

Lemma max_loop_g_cons pos todo m bp a b :
  max_loop_g child (pos :: todo) m bp a b
  = let '(m', bp') := if jgt (child pos a b) m then (child pos a b, Int pos) else (m, bp) in
    if jle b (Math_max a (child pos a b)) then (m', bp')
    else max_loop_g child todo m' bp' (Math_max a (child pos a b)) b.
Proof. reflexivity. Qed.

Lemma best_loop_top todo bp : best_loop value todo (PosInf, bp) = (PosInf, bp).
Proof.
  induction todo as [|pos todo IH]; [reflexivity|]. rewrite best_loop_cons.
  assert (jgt (value pos) PosInf = false) as -> by (unfold jgt; destruct (value pos); reflexivity).
  exact IH.
Qed.

Lemma max_loop_best todo m bp :
  todo ⊆ free -> proper m -> jlt m PosInf = true ->
  max_loop_g child todo m bp m PosInf = best_loop value todo (m, bp).
Proof.
  revert m bp. induction todo as [|pos todo IH]; intros m bp Hsub Hm Hlt; [reflexivity|].
  assert (pos ∈ free) as Hpos by (apply Hsub; left).
  assert (todo ⊆ free) as Hsub' by (intros x Hx; apply Hsub; right; exact Hx).
  pose proof (child_window pos m PosInf Hpos Hm ltac:(discriminate) Hlt) as Hw.
  destruct (best_step m _ _ Hm Hlt Hw) as (Egt & Eeq & Emax & Hcut & Hgo).
  pose proof Hw as (Hc & Hcv & _).
  rewrite best_loop_cons, max_loop_g_cons.
  set (c := child pos m PosInf) in *. rewrite Egt.
  destruct (jle PosInf (Math_max m c)) eqn:Ecut.
  - destruct (Hcut eq_refl) as [EP Hgt]. rewrite Hgt. rewrite (Eeq Hgt), EP.
    rewrite best_loop_top. reflexivity.
  - specialize (Hgo eq_refl). rewrite Emax in *.
    destruct (jgt c m) eqn:Hgt.
    + rewrite (Eeq eq_refl). apply IH; auto.
    + apply IH; auto.
Qed.

Lemma best_loop_first todo m bp :
  Forall (fun pos => proper (value pos)) todo -> proper m ->
  best_loop value todo (m, bp)
  = (fold_left (fun best pos => Math_max best (value pos)) todo m,
     if jgt (fold_left (fun best pos => Math_max best (value pos)) todo m) m
     then match List.find
                  (fun pos => bool_decide
                     (value pos = fold_left (fun best pos => Math_max best (value pos)) todo m))
                  todo with
          | Some pos => Int pos
          | None => NaN
          end
     else bp).
Proof.
  intros Hv. revert m bp. induction Hv as [|pos todo Hp Hv IH]; intros m bp Hm.
  - simpl. assert (jgt m m = false) as ->; [|reflexivity].
    unfold jgt. destruct m; simpl; auto using Z.ltb_irrefl.
  - rewrite best_loop_cons. cbn [fold_left List.find].
    set (v := value pos) in *.
    destruct (jgt v m) eqn:Hgt.
    + assert (Math_max m v = v) as Ev by (unfold jgt in Hgt; rank_lia [m; v]).
      rewrite IH by auto. rewrite Ev.
      pose proof (fold_max_ge todo v Hp Hv) as Hge.
      pose proof (fold_max_proper todo v Hp Hv) as HM.
      set (M := fold_left (fun best pos => Math_max best (value pos)) todo v) in *.
      f_equal.
      assert (jgt M m = true) as -> by (unfold jgt in *; rank_lia [m; v; M]).
      destruct (bool_decide (v = M)) eqn:Ed.
      * apply bool_decide_eq_true in Ed.
        assert (jgt M v = false) as -> by (unfold jgt; rank_lia [v; M]). reflexivity.
      * apply bool_decide_eq_false in Ed.
        assert (jgt M v = true) as -> by (unfold jgt; rank_lia [v; M]). reflexivity.
    + assert (Math_max m v = m) as Ev by (unfold jgt in Hgt; rank_lia [m; v]).
      rewrite IH by auto. rewrite Ev.
      pose proof (fold_max_ge todo m Hm Hv) as Hge.
      pose proof (fold_max_proper todo m Hm Hv) as HM.
      set (M := fold_left (fun best pos => Math_max best (value pos)) todo m) in *.
      f_equal.
      destruct (jgt M m) eqn:HgtM; [|reflexivity].
      assert (bool_decide (v = M) = false) as ->; [|reflexivity].
      apply bool_decide_eq_false. unfold jgt in *. rank_lia [m; v; M].
Qed.

End Pruning.

(** ** The pruned search and the exhaustive search, on contents *)

Lemma leaf_Int this g : exists z, leaf this g = Int z.
Proof. unfold leaf. repeat case_match; eauto. Qed.

Lemma over_false_free g : over g = false -> free_columns g <> [].
Proof.
  unfold over. intros H. apply orb_false_iff in H. destruct H as [H _].
  destruct (free_columns g); [discriminate|congruence].
Qed.

Lemma fold_max_Int (value : Z -> jsnum) free init :
  Forall (fun pos => exists z, value pos = Int z) free ->
  init = NegInf \/ (exists z, init = Int z) ->
  free <> [] \/ (exists z, init = Int z) ->
  exists z, fold_left (fun best pos => Math_max best (value pos)) free init = Int z.
Proof.
  intros Hv. revert init. induction Hv as [|pos free [z Hz] Hv IH]; intros init Hi Hne.
  - simpl. destruct Hne as [Hne|Hne]; [congruence|exact Hne].
  - simpl. apply IH.
    + right. rewrite Hz. destruct Hi as [-> | [z0 ->]]; simpl; [eauto|].
      destruct (z0 <? z); eauto.
    + right. rewrite Hz. destruct Hi as [-> | [z0 ->]]; simpl; [eauto|].
      destruct (z0 <? z); eauto.
Qed.

Lemma fold_min_Int (value : Z -> jsnum) free init :
  Forall (fun pos => exists z, value pos = Int z) free ->
  init = PosInf \/ (exists z, init = Int z) ->
  free <> [] \/ (exists z, init = Int z) ->
  exists z, fold_left (fun best pos => Math_min best (value pos)) free init = Int z.
Proof.
  intros Hv. revert init. induction Hv as [|pos free [z Hz] Hv IH]; intros init Hi Hne.
  - simpl. destruct Hne as [Hne|Hne]; [congruence|exact Hne].
  - simpl. apply IH.
    + right. rewrite Hz. destruct Hi as [-> | [z0 ->]]; simpl; [eauto|].
      destruct (z <? z0); eauto.
    + right. rewrite Hz. destruct Hi as [-> | [z0 ->]]; simpl; [eauto|].
      destruct (z <? z0); eauto.
Qed.

(** The exhaustive search returns an integer. *)
Lemma minimax_bf_Int this depth g maximizing :
  exists z, minimax_bf this depth g maximizing = Int z.
Proof.
  revert g maximizing. induction depth as [|d IH]; intros g maximizing; simpl.
  - apply leaf_Int.
  - destruct (over g) eqn:Hover; [apply leaf_Int|].
    apply over_false_free in Hover. destruct maximizing.
    + apply fold_max_Int; auto. apply Forall_forall. intros pos _. apply IH.
    + apply fold_min_Int; auto. apply Forall_forall. intros pos _. apply IH.
Qed.

(** The pruned search is exact inside its window and a bound outside. *)
Lemma minimax_g_window this depth g a b isMaximizer :
  proper a -> proper b -> jlt a b = true ->
  window_ok (minimax_g this depth g a b isMaximizer false)
            (minimax_bf this depth g isMaximizer) a b.
Proof.
  revert g a b isMaximizer. induction depth as [|d IH]; intros g a b isMaximizer Ha Hb Hlt.
  - simpl. apply window_ok_exact. destruct (leaf_Int this g) as [z ->]. discriminate.
  - simpl. destruct (over g).
    { apply window_ok_exact. destruct (leaf_Int this g) as [z ->]. discriminate. }
    destruct isMaximizer.
    + pose proof (max_loop_window
                    (fun pos a b => minimax_g this d
                       (drop_grid g pos (squareType (currentPlayer this))) a b false false)
                    (fun pos => minimax_bf this d
                       (drop_grid g pos (squareType (currentPlayer this))) false)
                    (free_columns g)
                    (fun pos a b _ Ha Hb Hlt => IH _ a b false Ha Hb Hlt)
                    (free_columns g) NegInf NaN NegInf a b) as H.
      rewrite (Math_max_NegInf a Ha) in H.
      destruct (max_loop_g _ _ _ _ _ _) as [maxEval bestPos]. simpl in H.
      apply H; auto; discriminate.
    + pose proof (min_loop_window
                    (fun pos a b => minimax_g this d
                       (drop_grid g pos (squareType (opponentPlayer this))) a b true false)
                    (fun pos => minimax_bf this d
                       (drop_grid g pos (squareType (opponentPlayer this))) true)
                    (free_columns g)
                    (fun pos a b _ Ha Hb Hlt => IH _ a b true Ha Hb Hlt)
                    (free_columns g) PosInf PosInf a b) as H.
      rewrite (Math_min_PosInf b Hb) in H.
      apply H; auto; discriminate.
Qed.

(** With the full window, the pruned search returns the exact value. *)
Lemma minimax_g_exact this depth g isMaximizer :
  minimax_g this depth g NegInf PosInf isMaximizer false
  = minimax_bf this depth g isMaximizer.
Proof.
  destruct (minimax_g_window this depth g NegInf PosInf isMaximizer)
    as (Hr & Hv & W1 & W2 & W3); try discriminate; auto.
  destruct (minimax_bf_Int this depth g isMaximizer) as [z Hz]. rewrite Hz in *.
  destruct (minimax_g this depth g NegInf PosInf isMaximizer false) as [| |r|] eqn:E.
  - unfold proper in Hr. congruence.
  - specialize (W1 eq_refl). discriminate.
  - symmetry. apply W2; reflexivity.
  - specialize (W3 eq_refl). discriminate.
Qed.

(** At the entry point, the pruned search returns the column of the
    exhaustive search. *)
Lemma minimax_g_best this depth g :
  over g = false ->
  minimax_g this (S depth) g NegInf PosInf true true = best_column_bf this (S depth) g.
Proof.
  intros Hover. simpl. rewrite Hover. unfold best_column_bf. simpl Nat.pred.
  set (child := fun pos a b => minimax_g this depth
                 (drop_grid g pos (squareType (currentPlayer this))) a b false false).
  set (value := fun pos => minimax_bf this depth
                 (drop_grid g pos (squareType (currentPlayer this))) false).
  assert (Hw : forall pos a b, pos ∈ free_columns g -> proper a -> proper b ->
                 jlt a b = true -> window_ok (child pos a b) (value pos) a b).
  { intros pos a b _ Ha Hb Hlt. apply minimax_g_window; auto. }
  rewrite (max_loop_best child value (free_columns g) Hw) by (auto; discriminate).
  assert (Forall (fun pos => proper (value pos)) (free_columns g)) as Hv
    by (apply (value_proper child value _ Hw)).
  rewrite (best_loop_first value) by (auto; discriminate).
  destruct (fold_max_Int value (free_columns g) NegInf) as [z Hz].
  - apply Forall_forall. intros pos _. apply minimax_bf_Int.
  - left. reflexivity.
  - left. apply over_false_free, Hover.
  - subst value. cbv beta in *. rewrite !Hz. reflexivity.
Qed.

(** ** [new Board()] and [copy()] *)

Lemma new_column l col h :
  forM l (fun (_ : Z) col => do s <- new_Square; ret (col ++ [s])) col h
  = (Ok (col ++ seq (length h) (length l)), h ++ replicate (length l) EMPTY).
Proof.
  revert col h. induction l as [|a l IH]; intros col h; simpl.
  - unfold ret. rewrite !app_nil_r. reflexivity.
  - unfold bind, new_Square, ret. simpl. rewrite IH.
    rewrite length_app. simpl. rewrite <- !app_assoc. simpl.
    replace (length h + 1)%nat with (S (length h)) by lia. reflexivity.
Qed.

Lemma new_columns (ys l : list Z) squares h :
  forM l (fun (_ : Z) squares =>
            do col <- forM ys (fun _ col => do s <- new_Square; ret (col ++ [s])) [];
            ret (squares ++ [col])) squares h
  = (Ok (squares ++ map (fun i => seq (length h + length ys * i) (length ys))
                        (seq 0 (length l))),
     h ++ replicate (length ys * length l) EMPTY).
Proof.
  revert squares h. induction l as [|a l IH]; intros squares h.
  - simpl. unfold ret. rewrite Nat.mul_0_r. simpl. rewrite !app_nil_r. reflexivity.
  - cbn [forM]. unfold bind at 1. unfold bind at 1. rewrite new_column. unfold ret at 1.
    rewrite IH. rewrite length_app, length_replicate. rewrite <- !app_assoc. f_equal.
    + f_equal. f_equal. cbn [length].
      change (seq 0 (S (length l))) with (0%nat :: seq 1 (length l)).
      cbn [map app]. f_equal.
      * f_equal. lia.
      * rewrite <- seq_shift, map_map. apply map_ext. intros i. f_equal. lia.
    + f_equal. rewrite <- replicate_add. f_equal. cbn [length]. lia.
Qed.

Lemma board_of_ext f f' :
  (forall j, (j < 42)%nat -> f j = f' j) -> board_of f = board_of f'.
Proof.
  intros H. unfold board_of. cbv [map seq Nat.mul Nat.add].
  rewrite !H by lia. reflexivity.
Qed.

Lemma concat_board_of f : concat (board_of f) = map f (seq 0 42).
Proof. reflexivity. Qed.

Lemma new_board h :
  Board.new h = (Ok (board_of (copy_addr (length h) 0)), h ++ replicate 42 EMPTY).
Proof.
  unfold Board.new. rewrite new_columns.
  change (length (upto 0 cols)) with 7%nat. change (length (upto 0 rows)) with 6%nat.
  f_equal. f_equal. unfold board_of, copy_addr.
  cbv [app map seq Nat.mul Nat.ltb Nat.leb].
  repeat (f_equal; try lia).
Qed.

Lemma board_of_lookup f x :
  (x < 7)%nat -> board_of f !! x = Some (map (fun y => f (6 * x + y)%nat) (seq 0 6)).
Proof.
  intros Hx. unfold board_of. rewrite list_lookup_fmap, lookup_seq_lt by lia. reflexivity.
Qed.

Lemma board_of_insert f x y v :
  (x < 7)%nat -> (y < 6)%nat ->
  <[x := <[y := v]> (map (fun y => f (6 * x + y)%nat) (seq 0 6))]> (board_of f)
  = board_of (fun j => if (j =? 6 * x + y)%nat then v else f j).
Proof.
  intros Hx Hy.
  do 7 (destruct x as [|x]; [do 6 (destruct y as [|y]; [reflexivity|]); lia|]). lia.
Qed.

Lemma wf_board_of f h :
  (forall i j, (i < 42)%nat -> (j < 42)%nat -> f i = f j -> i = j) ->
  (forall j, (j < 42)%nat -> (f j < length h)%nat) ->
  wf_board h (board_of f).
Proof.
  intros Hinj Hlt. unfold wf_board. split_and!.
  - reflexivity.
  - repeat constructor.
  - rewrite concat_board_of. apply NoDup_alt. intros i j a Hi Hj.
    rewrite list_lookup_fmap in Hi, Hj.
    destruct (seq 0 42 !! i) as [i'|] eqn:Ei; [|discriminate].
    destruct (seq 0 42 !! j) as [j'|] eqn:Ej; [|discriminate].
    apply lookup_seq in Ei, Ej. destruct Ei as [-> Hi'], Ej as [-> Hj'].
    simpl in Hi, Hj. injection Hi as <-. injection Hj as Hj. simpl in *.
    symmetry in Hj. apply Hinj in Hj; auto.
  - rewrite concat_board_of. apply Forall_forall. intros a Ha.
    apply list_elem_of_fmap in Ha. destruct Ha as (j & -> & Hj).
    apply elem_of_seq in Hj. apply Hlt. lia.
Qed.

Lemma length_concat_contents h b :
  wf_board h b -> length (concat (Board.contents h b)) = 42%nat.
Proof.
  intros (Hl & Hc & _). destruct b as [|c0 [|c1 [|c2 [|c3 [|c4 [|c5 [|c6 [|]]]]]]]];
    try discriminate.
  repeat match goal with
         | H : Forall _ (_ :: _) |- _ => apply Forall_cons in H; destruct H
         end.
  simpl. rewrite !length_app, !length_map. simpl.
  change (Z.to_nat rows) with 6%nat in *. lia.
Qed.

Lemma concat_contents_lookup h (b : board) x y c a :
  wf_board h b -> b !! x = Some c -> c !! y = Some a ->
  concat (Board.contents h b) !! (x * 6 + y)%nat = Some (type_of a h).
Proof.
  intros Hwf Hc Ha. apply (concat_lookup 6 _ x y (map (fun a => type_of a h) c)).
  - destruct Hwf as (_ & Hn & _). unfold Board.contents. rewrite Forall_map.
    eapply Forall_impl; [exact Hn|]. simpl. intros c' Hc'. rewrite length_map. exact Hc'.
  - unfold Board.contents. rewrite list_lookup_fmap, Hc. reflexivity.
  - rewrite list_lookup_fmap, Ha. reflexivity.
Qed.

Lemma getSquare_Ok (b : board) x y c a :
  0 <= x < cols -> 0 <= y < rows ->
  b !! Z.to_nat x = Some c -> c !! Z.to_nat y = Some a ->
  Board.getSquare b (Int x) (Int y) = Ok a.
Proof.
  intros Hx Hy Hc Ha. unfold Board.getSquare.
  rewrite !(proj2 (invalid_Int _ _)) by lia.
  unfold Board.ref. rewrite Hc. simpl. rewrite Ha. reflexivity.
Qed.

(** One iteration of the loops of [copy()]: the square [(x, y)] of the copy
    becomes a new square that holds the type of the square of [this]. *)
Lemma copy_square_step this h (x y : nat) :
  wf_board h this -> (x < 7)%nat -> (y < 6)%nat ->
  Board.copy_square this (Z.of_nat x) (Z.of_nat y)
    (board_of (copy_addr (length h) (6 * x + y)))
    ((h ++ replicate 42 EMPTY) ++ take (6 * x + y) (concat (Board.contents h this)))
  = (Ok (board_of (copy_addr (length h) (S (6 * x + y)))),
     (h ++ replicate 42 EMPTY) ++ take (S (6 * x + y)) (concat (Board.contents h this))).
Proof.
  intros Hwf Hx Hy.
  destruct (wf_board_lookup h this (Z.of_nat x) (Z.of_nat y) Hwf) as (c & a & Hc & Ha & Hin & Hlt);
    [unfold cols; lia | unfold rows; lia |].
  assert (Board.getSquare this (Int (Z.of_nat x)) (Int (Z.of_nat y)) = Ok a) as Hget
    by (apply (getSquare_Ok this _ _ c a); auto; unfold cols, rows; lia).
  rewrite !Nat2Z.id in *.
  pose proof (length_concat_contents h this Hwf) as HT.
  pose proof (concat_contents_lookup h this x y c a Hwf Hc Ha) as Hk.
  replace (x * 6 + y)%nat with (6 * x + y)%nat in Hk by lia.
  set (k := (6 * x + y)%nat) in *. set (T := concat (Board.contents h this)) in *.
  set (hc := (h ++ replicate 42 EMPTY) ++ take k T).
  assert (length hc = (length h + 42 + k)%nat) as Hlen.
  { unfold hc. rewrite !length_app, length_replicate, length_take. subst k. lia. }
  assert (forall t, type_of a (hc ++ [t]) = type_of a h) as Htype.
  { intros t. unfold hc. rewrite <- !app_assoc. apply type_of_app. exact Hlt. }
  assert (board_of (fun j => if (j =? k)%nat then length hc else copy_addr (length h) k j)
          = board_of (copy_addr (length h) (S k))) as Hboard.
  { apply board_of_ext. intros j Hj. unfold copy_addr. rewrite Hlen.
    destruct (Nat.eqb_spec j k) as [->|Hne].
    - rewrite (proj2 (Nat.ltb_lt k (S k))) by lia. reflexivity.
    - destruct (Nat.ltb_spec j k), (Nat.ltb_spec j (S k)); try lia; reflexivity. }
  unfold Board.copy_square, bind, new_Square, lift, ret, setType.
  rewrite board_of_lookup by lia. rewrite !Nat2Z.id.
  rewrite board_of_insert by lia. fold k. rewrite Hboard, Hget.
  cbv beta iota zeta. rewrite !Htype.
  rewrite (take_S_r _ _ _ Hk). rewrite app_assoc. fold hc.
  destruct (isEmpty (type_of a h)) eqn:He; cbv beta iota zeta.
  - apply isEmpty_true in He. rewrite He. reflexivity.
  - cbn [negb]. cbv beta iota zeta. f_equal.
    rewrite insert_app_r_alt by lia. rewrite Nat.sub_diag, Htype. reflexivity.
Qed.

Lemma copy_column this h (x : nat) m y0 :
  wf_board h this -> (x < 7)%nat -> (y0 + m = 6)%nat ->
  forM (map Z.of_nat (seq y0 m))
       (fun y copy => Board.copy_square this (Z.of_nat x) y copy)
       (board_of (copy_addr (length h) (6 * x + y0)))
       ((h ++ replicate 42 EMPTY) ++ take (6 * x + y0) (concat (Board.contents h this)))
  = (Ok (board_of (copy_addr (length h) (6 * x + 6))),
     (h ++ replicate 42 EMPTY) ++ take (6 * x + 6) (concat (Board.contents h this))).
Proof.
  intros Hwf Hx. revert y0. induction m as [|m IH]; intros y0 Hy.
  - replace y0 with 6%nat by lia. reflexivity.
  - cbn [seq map forM]. unfold bind at 1. rewrite copy_square_step by (auto; lia).
    replace (S (6 * x + y0)) with (6 * x + S y0)%nat by lia. apply IH. lia.
Qed.

Lemma copy_columns this h m x0 :
  wf_board h this -> (x0 + m = 7)%nat ->
  forM (map Z.of_nat (seq x0 m))
       (fun x copy => forM (upto 0 rows)
                        (fun y copy => Board.copy_square this x y copy) copy)
       (board_of (copy_addr (length h) (6 * x0)))
       ((h ++ replicate 42 EMPTY) ++ take (6 * x0) (concat (Board.contents h this)))
  = (Ok (board_of (copy_addr (length h) 42)),
     (h ++ replicate 42 EMPTY) ++ take 42 (concat (Board.contents h this))).
Proof.
  intros Hwf. revert x0. induction m as [|m IH]; intros x0 Hx.
  - replace x0 with 7%nat by lia. reflexivity.
  - cbn [seq map forM]. unfold bind at 1.
    change (upto 0 rows) with (map Z.of_nat (seq 0 6)).
    pose proof (copy_column this h x0 6 0 Hwf ltac:(lia) eq_refl) as Hcol.
    rewrite Nat.add_0_r in Hcol. rewrite Hcol.
    replace (6 * x0 + 6)%nat with (6 * S x0)%nat by lia. apply IH. lia.
Qed.

(** The copy of a board: 42 squares allocated by [new Board()] and left
    aside, then 42 new squares that hold the types of the squares of
    [this], column by column. *)
Lemma copy_closed this h :
  wf_board h this ->
  Board.copy this h
  = (Ok (board_of (copy_addr (length h) 42)),
     (h ++ replicate 42 EMPTY) ++ concat (Board.contents h this)).
Proof.
  intros Hwf. unfold Board.copy. unfold bind at 1. rewrite new_board.
  change (upto 0 cols) with (map Z.of_nat (seq 0 7)).
  pose proof (copy_columns this h 7 0 Hwf eq_refl) as H.
  change (6 * 0)%nat with 0%nat in H. rewrite take_0, app_nil_r in H.
  rewrite H. rewrite take_ge by (rewrite length_concat_contents by auto; lia).
  reflexivity.
Qed.

Lemma extends_insert_new h h' a t :
  extends h h' -> (length h <= a)%nat -> extends h (<[a := t]> h').
Proof.
  intros [new ->] Ha. exists (<[(a - length h)%nat := t]> new).
  apply insert_app_r_alt. exact Ha.
Qed.

(** The copy is a well-formed board with the contents of the original, made
    of new squares only. *)
Lemma copy_spec this h :
  wf_board h this ->
  exists c h',
    Board.copy this h = (Ok c, h')
    /\ extends h h' /\ wf_board h' c
    /\ Board.contents h' c = Board.contents h this
    /\ Forall (fun a => (length h <= a)%nat) (concat c).
Proof.
  intros Hwf. rewrite copy_closed by exact Hwf.
  pose proof (length_concat_contents h this Hwf) as HT.
  set (T := concat (Board.contents h this)) in *.
  eexists _, _. split; [reflexivity|].
  assert (forall j, (j < 42)%nat -> copy_addr (length h) 42 j = (length h + 42 + j)%nat) as HA.
  { intros j Hj. unfold copy_addr. rewrite (proj2 (Nat.ltb_lt j 42)) by exact Hj. reflexivity. }
  assert (wf_board ((h ++ replicate 42 EMPTY) ++ T) (board_of (copy_addr (length h) 42))) as Hwfc.
  { apply wf_board_of.
    - intros i j Hi Hj. rewrite !HA by auto. lia.
    - intros j Hj. rewrite HA by auto. rewrite !length_app, length_replicate. lia. }
  split_and!.
  - exists (replicate 42 EMPTY ++ T). rewrite app_assoc. reflexivity.
  - exact Hwfc.
  - apply grid_ext.
    + apply wf_grid_contents, Hwfc.
    + apply wf_grid_contents, Hwf.
    + intros x y Hx Hy.
      destruct (wf_board_lookup h this x y Hwf Hx Hy) as (c & a & Hc & Ha & _ & Hlt).
      rewrite (sq_contents h this x y c a) by (auto; lia).
      assert ((Z.to_nat x < 7)%nat) as Hx' by (unfold cols in *; lia).
      assert ((Z.to_nat y < 6)%nat) as Hy' by (unfold rows in *; lia).
      rewrite (sq_contents _ (board_of (copy_addr (length h) 42)) x y
                 (map (fun y => copy_addr (length h) 42 (6 * Z.to_nat x + y)%nat) (seq 0 6))
                 (copy_addr (length h) 42 (6 * Z.to_nat x + Z.to_nat y)%nat)); try lia.
      * rewrite HA by lia. unfold type_of.
        rewrite lookup_app_r by (rewrite length_app, length_replicate; lia).
        rewrite length_app, length_replicate.
        replace (length h + 42 + (6 * Z.to_nat x + Z.to_nat y) - (length h + 42))%nat
          with (Z.to_nat x * 6 + Z.to_nat y)%nat by lia.
        unfold T. rewrite (concat_contents_lookup h this _ _ c a Hwf Hc Ha). reflexivity.
      * apply board_of_lookup. exact Hx'.
      * rewrite list_lookup_fmap, lookup_seq_lt by lia. reflexivity.
  - rewrite concat_board_of. apply Forall_forall. intros a Ha.
    apply list_elem_of_fmap in Ha. destruct Ha as (j & -> & Hj).
    apply elem_of_seq in Hj. rewrite HA by lia. lia.
Qed.

(** ** The readers of the search never throw *)

Lemma hasFreeSquare_column_free g x :
  0 <= x < cols -> Board.hasFreeSquare g (Int x) = Ok (column_free g x).
Proof.
  intros Hx. unfold Board.hasFreeSquare, column_free.
  rewrite (proj2 (invalid_Int _ _)) by lia. rewrite upto_rows. simpl.
  repeat (case_empty; simpl; [reflexivity|]). reflexivity.
Qed.

Lemma getFree_Ok g : Board.getFree g = Ok (free_columns g).
Proof.
  unfold Board.getFree, free_columns. rewrite upto_cols. cbn [fold_left List.filter].
  rewrite !hasFreeSquare_column_free by (unfold cols; lia).
  repeat match goal with
         | |- context [column_free g ?x] => destruct (column_free g x)
         end; reflexivity.
Qed.

Lemma isOver_Ok g : isOver g = Ok (over g).
Proof. unfold isOver, over. rewrite getFree_Ok. reflexivity. Qed.

Lemma leaf_value_Ok this g : leaf_value this g = Ok (leaf this g).
Proof.
  unfold leaf_value, leaf. rewrite isOver_Ok. destruct (over g); [|reflexivity].
  repeat case_match; reflexivity.
Qed.

Lemma free_columns_spec g pos :
  pos ∈ free_columns g <-> 0 <= pos < cols /\ column_free g pos = true.
Proof.
  unfold free_columns. rewrite list_elem_of_In, filter_In, <- list_elem_of_In.
  rewrite upto_cols. split.
  - intros [Hin Hf]. split; [|exact Hf].
    rewrite !elem_of_cons in Hin. rewrite elem_of_nil in Hin. unfold cols. lia.
  - intros [Hx Hf]. split; [|exact Hf]. col_cases pos;
      repeat first [apply list_elem_of_here | apply list_elem_of_further].
Qed.

Lemma free_columns_hasFreeSquare g pos :
  pos ∈ free_columns g -> Board.hasFreeSquare g (Int pos) = Ok true.
Proof.
  intros H. apply free_columns_spec in H. destruct H as [Hx Hf].
  rewrite hasFreeSquare_column_free by exact Hx. rewrite Hf. reflexivity.
Qed.

(** ** The search in the store *)

(** The copy of the search: a new board, with the mark dropped. *)
Lemma copy_and_drop_spec bd pos ty h :
  wf_board h bd -> is_side ty -> pos ∈ free_columns (Board.contents h bd) ->
  exists c h',
    copy_and_drop bd pos ty h = (Ok c, h')
    /\ extends h h' /\ wf_board h' c
    /\ Board.contents h' c = drop_grid (Board.contents h bd) pos ty.
Proof.
  intros Hwf Hty Hpos.
  destruct (copy_spec bd h Hwf) as (c & h1 & Hcopy & Hext & Hwfc & Hcont & Hnew).
  assert (Board.hasFreeSquare (Board.contents h1 c) (Int pos) = Ok true) as Hfree
    by (rewrite Hcont; apply free_columns_hasFreeSquare, Hpos).
  destruct (drop_succeeds h1 c pos ty Hwfc Hty Hfree) as [h2 Hdrop].
  destruct (drop_Ok _ _ _ _ _ _ Hwfc Hdrop)
    as (x & y & [= <-] & _ & _ & _ & _ & _ & Hgrid & Hwf2 & _ & a & Ha & ->).
  exists c, (<[a := ty]> h1). split_and!.
  - unfold copy_and_drop, bind. rewrite Hcopy, Hdrop. reflexivity.
  - apply extends_insert_new; [exact Hext|]. rewrite Forall_forall in Hnew. auto.
  - exact Hwf2.
  - rewrite Hgrid, Hcont. reflexivity.
Qed.

Section Refinement.

(** The loops in the store compute what the loops on contents compute, and
    only add squares, when the search of each column does. *)
Variable h0 : store.
Variable child : Z -> jsnum -> jsnum -> M jsnum.
Variable child_g : Z -> jsnum -> jsnum -> jsnum.
Variable free : list Z.

Hypothesis child_refines :
  forall pos a b h, pos ∈ free -> extends h0 h ->
    exists h', child pos a b h = (Ok (child_g pos a b), h') /\ extends h h'.

Lemma max_loop_refines todo m bp a b h :
  todo ⊆ free -> extends h0 h ->
  exists h', max_loop child todo m bp a b h = (Ok (max_loop_g child_g todo m bp a b), h')
             /\ extends h h'.
Proof.
  revert m bp a h. induction todo as [|pos todo IH]; intros m bp a h Hsub Hext.
  - exists h. split; [reflexivity|apply extends_refl].
  - assert (pos ∈ free) as Hpos by (apply Hsub; left).
    assert (todo ⊆ free) as Hsub' by (intros x Hx; apply Hsub; right; exact Hx).
    destruct (child_refines pos a b h Hpos Hext) as (h1 & Hc & Hext1).
    cbn [max_loop max_loop_g]. unfold bind at 1. rewrite Hc.
    destruct (jgt (child_g pos a b) m);
      (destruct (jle b (Math_max a (child_g pos a b)));
       [ exists h1; split; [reflexivity|exact Hext1]
       | edestruct IH as (h2 & Hl & Hext2);
         [ exact Hsub' | exact (extends_trans _ _ _ Hext Hext1)
         | exists h2; split; [exact Hl|eapply extends_trans; eauto] ] ]).
Qed.

Lemma min_loop_refines todo m a b h :
  todo ⊆ free -> extends h0 h ->
  exists h', min_loop child todo m a b h = (Ok (min_loop_g child_g todo m a b), h')
             /\ extends h h'.
Proof.
  revert m b h. induction todo as [|pos todo IH]; intros m b h Hsub Hext.
  - exists h. split; [reflexivity|apply extends_refl].
  - assert (pos ∈ free) as Hpos by (apply Hsub; left).
    assert (todo ⊆ free) as Hsub' by (intros x Hx; apply Hsub; right; exact Hx).
    destruct (child_refines pos a b h Hpos Hext) as (h1 & Hc & Hext1).
    cbn [min_loop min_loop_g]. unfold bind at 1. rewrite Hc.
    destruct (jle (Math_min b (child_g pos a b)) a).
    + exists h1. split; [reflexivity|exact Hext1].
    + destruct (IH (Math_min (child_g pos a b) m) (Math_min b (child_g pos a b)) h1 Hsub'
                  (extends_trans _ _ _ Hext Hext1)) as (h2 & -> & Hext2).
      exists h2. split; [reflexivity|eapply extends_trans; eauto].
Qed.

End Refinement.

(** The search in the store returns what the search on contents returns,
    and every square that existed before it is what it was. *)
Lemma minimax_refines this depth bd a b isMaximizer first h :
  is_side (squareType (currentPlayer this)) ->
  is_side (squareType (opponentPlayer this)) ->
  wf_board h bd ->
  exists h',
    _minimax this depth bd a b isMaximizer first h
    = (Ok (minimax_g this depth (Board.contents h bd) a b isMaximizer first), h')
    /\ extends h h'.
Proof.
  intros Hme Hopp. revert bd a b isMaximizer first h.
  induction depth as [|d IH]; intros bd a b isMaximizer first h Hwf.
  - exists h. split; [|apply extends_refl].
    cbn [_minimax minimax_g]. unfold bind, read, lift. rewrite leaf_value_Ok. reflexivity.
  - cbn [_minimax minimax_g]. unfold bind at 1. unfold read at 1.
    unfold bind at 1. unfold lift at 1. rewrite isOver_Ok.
    set (g := Board.contents h bd) in *.
    destruct (over g).
    { exists h. split; [|apply extends_refl]. unfold lift. rewrite leaf_value_Ok. reflexivity. }
    assert (Hchild : forall ty isMax pos a b h1,
               is_side ty -> pos ∈ free_columns g -> extends h h1 ->
               exists h', (do copy <- copy_and_drop bd pos ty;
                           _minimax this d copy a b isMax false) h1
                          = (Ok (minimax_g this d (drop_grid g pos ty) a b isMax false), h')
                          /\ extends h1 h').
    { intros ty isMax pos a' b' h1 Hty Hpos Hext.
      pose proof (wf_board_extends _ _ _ Hwf Hext) as Hwf1.
      pose proof (contents_extends _ _ _ Hwf Hext) as Hc1. fold g in Hc1.
      destruct (copy_and_drop_spec bd pos ty h1 Hwf1 Hty) as (c & h2 & Hcd & Hext2 & Hwfc & Hcc);
        [rewrite Hc1; exact Hpos|].
      destruct (IH c a' b' isMax false h2 Hwfc) as (h3 & Hmm & Hext3).
      exists h3. split; [|eapply extends_trans; eauto].
      unfold bind. rewrite Hcd, Hmm, Hcc, Hc1. reflexivity. }
    destruct isMaximizer.
    + unfold bind at 1. unfold lift at 1. rewrite getFree_Ok.
      destruct (max_loop_refines h
                  (fun pos a b => do copy <- copy_and_drop bd pos
                                               (squareType (currentPlayer this));
                                  _minimax this d copy a b false false)
                  (fun pos a b => minimax_g this d
                                    (drop_grid g pos (squareType (currentPlayer this)))
                                    a b false false)
                  (free_columns g)
                  (fun pos a b h1 Hpos Hext =>
                     Hchild (squareType (currentPlayer this)) false pos a b h1 Hme Hpos Hext)
                  (free_columns g) NegInf NaN a b h) as (h' & Hloop & Hext');
        [intros x Hx; exact Hx | apply extends_refl |].
      unfold bind at 1. rewrite Hloop.
      destruct (max_loop_g _ _ _ _ _ _) as [maxEval bestPos].
      exists h'. split; [|exact Hext']. destruct first; reflexivity.
    + unfold bind at 1. unfold lift at 1. rewrite getFree_Ok.
      destruct (min_loop_refines h
                  (fun pos a b => do copy <- copy_and_drop bd pos
                                               (squareType (opponentPlayer this));
                                  _minimax this d copy a b true false)
                  (fun pos a b => minimax_g this d
                                    (drop_grid g pos (squareType (opponentPlayer this)))
                                    a b true false)
                  (free_columns g)
                  (fun pos a b h1 Hpos Hext =>
                     Hchild (squareType (opponentPlayer this)) true pos a b h1 Hopp Hpos Hext)
                  (free_columns g) PosInf a b h) as (h' & Hloop & Hext');
        [intros x Hx; exact Hx | apply extends_refl |].
      exists h'. split; [exact Hloop|exact Hext'].
Qed.

(** C3: with the initial window, the alpha-beta search returns what the
    exhaustive minimax returns at the same depth: the same value and, at the
    entry point (a maximizing call with [first], on a position that is not
    over), the same column, the lowest free column whose value is the
    maximum. *)
Theorem alpha_beta_is_minimax this depth bd h isMaximizer :
  is_side (squareType (currentPlayer this)) ->
  is_side (squareType (opponentPlayer this)) ->
  wf_board h bd ->
  (exists h', _minimax this depth bd NegInf PosInf isMaximizer false h
              = (Ok (minimax_bf this depth (Board.contents h bd) isMaximizer), h'))
  /\ (over (Board.contents h bd) = false ->
      exists h', _minimax this (S depth) bd NegInf PosInf true true h
                 = (Ok (best_column_bf this (S depth) (Board.contents h bd)), h')).
Proof.
  intros Hme Hopp Hwf. split.
  - destruct (minimax_refines this depth bd NegInf PosInf isMaximizer false h Hme Hopp Hwf)
      as (h' & Hmm & _).
    exists h'. rewrite Hmm, minimax_g_exact. reflexivity.
  - intros Hover.
    destruct (minimax_refines this (S depth) bd NegInf PosInf true true h Hme Hopp Hwf)
      as (h' & Hmm & _).
    exists h'. rewrite Hmm, minimax_g_best by exact Hover. reflexivity.
Qed.

Lemma alpha_beta_is_minimax_witness :
  (exists h', _minimax sample_room 1 fresh_board NegInf PosInf true false fresh_store
              = (Ok (minimax_bf sample_room 1 (Board.contents fresh_store fresh_board) true),
                 h'))
  /\ (over (Board.contents fresh_store fresh_board) = false ->
      exists h', _minimax sample_room 2 fresh_board NegInf PosInf true true fresh_store
                 = (Ok (best_column_bf sample_room 2
                          (Board.contents fresh_store fresh_board)), h')).
Proof.
  apply (alpha_beta_is_minimax sample_room 1 fresh_board fresh_store true).
  - left. reflexivity.
  - right. reflexivity.
  - exact wf_fresh_board.
Defined.

(** ** Independence of the copy *)

Lemma mutate_copy_extends h h1 c calls :
  extends h h1 -> wf_board h1 c -> Forall (fun a => (length h <= a)%nat) (concat c) ->
  extends h (mutate c calls h1) /\ wf_board (mutate c calls h1) c.
Proof.
  intros Hext Hwf Hnew. revert h1 Hext Hwf. unfold mutate.
  induction calls as [|call calls IH]; intros h1 Hext Hwf; [split; assumption|].
  cbn [fold_left].
  assert (forall x y ty,
             extends h (snd (Board.setSquare c x y ty h1))
             /\ wf_board (snd (Board.setSquare c x y ty h1)) c) as Hset.
  { intros x y ty. destruct (Board.setSquare c x y ty h1) as [[u|m] h2] eqn:E; simpl.
    - destruct (setSquare_Ok _ _ _ _ _ _ _ Hwf E)
        as (xi & yi & col & a & _ & _ & _ & _ & _ & Hc & Ha & _ & ->).
      split; [|apply wf_board_insert, Hwf].
      apply extends_insert_new; [exact Hext|].
      rewrite Forall_forall in Hnew. apply Hnew.
      apply list_elem_of_lookup. eexists.
      destruct Hwf as (_ & Hn & _). eapply concat_lookup; eauto.
    - apply setSquare_Throw in E. subst h2. split; assumption. }
  destruct call as [x y ty|pos ty].
  - destruct (Hset x y ty). apply IH; assumption.
  - unfold Board.drop. destruct (Board.getFirstFreeSquarePos _ _) as [y|m].
    + destruct (Hset pos y ty). apply IH; assumption.
    + simpl. apply IH; assumption.
Qed.

(** C5: [copy()] returns a board with the contents of the original; no
    sequence of writes into the copy changes a square of the original; and a
    search, which writes into copies only, leaves the board it is given as it
    was. *)
Theorem copy_is_independent this h :
  wf_board h this ->
  (exists c h1,
      Board.copy this h = (Ok c, h1)
      /\ Board.contents h1 c = Board.contents h this
      /\ Board.contents h1 this = Board.contents h this
      /\ forall calls,
           Board.contents (mutate c calls h1) this = Board.contents h this)
  /\ (forall room depth a b isMaximizer first,
         is_side (squareType (currentPlayer room)) ->
         is_side (squareType (opponentPlayer room)) ->
         exists r h',
           _minimax room depth this a b isMaximizer first h = (Ok r, h')
           /\ Board.contents h' this = Board.contents h this).
Proof.
  intros Hwf. split.
  - destruct (copy_spec this h Hwf) as (c & h1 & Hcopy & Hext & Hwfc & Hcont & Hnew).
    exists c, h1. split_and!; auto.
    + apply contents_extends; assumption.
    + intros calls. apply contents_extends; [exact Hwf|].
      apply (mutate_copy_extends h h1 c calls Hext Hwfc Hnew).
  - intros room depth a b isMaximizer first Hme Hopp.
    destruct (minimax_refines room depth this a b isMaximizer first h Hme Hopp Hwf)
      as (h' & Hmm & Hext).
    eexists _, h'. split; [exact Hmm|]. apply contents_extends; assumption.
Qed.

Lemma copy_is_independent_witness :
  (exists c h1,
      Board.copy fresh_board fresh_store = (Ok c, h1)
      /\ Board.contents h1 c = Board.contents fresh_store fresh_board
      /\ Board.contents h1 fresh_board = Board.contents fresh_store fresh_board
      /\ forall calls,
           Board.contents (mutate c calls h1) fresh_board
           = Board.contents fresh_store fresh_board)
  /\ (forall room depth a b isMaximizer first,
         is_side (squareType (currentPlayer room)) ->
         is_side (squareType (opponentPlayer room)) ->
         exists r h',
           _minimax room depth fresh_board a b isMaximizer first fresh_store = (Ok r, h')
           /\ Board.contents h' fresh_board = Board.contents fresh_store fresh_board).
Proof. exact (copy_is_independent fresh_board fresh_store wf_fresh_board). Defined.

(** ** Drops on contents *)

Lemma drop_grid_spec g x t :
  x ∈ free_columns g ->
  exists y,
    Board.getFirstFreeSquarePos g (Int x) = Ok (Int y)
    /\ drop_grid g x t = grid_set g x y t
    /\ 0 <= x < cols /\ 0 <= y < rows
    /\ sq g x y = EMPTY
    /\ forall y', y < y' < rows -> sq g x y' <> EMPTY.
Proof.
  intros Hfree. apply free_columns_hasFreeSquare in Hfree.
  destruct (getFirstFreeSquarePos_free _ _ Hfree) as [y Hy].
  destruct (getFirstFreeSquarePos_Ok _ _ _ Hy) as (x' & y' & [= <-] & [= <-] & Hx & Hy' & He & Hab).
  exists y. unfold drop_grid. rewrite Hy. split_and!; auto; lia.
Qed.

Lemma wf_drop_grid g x t : wf_grid g -> wf_grid (drop_grid g x t).
Proof.
  intros Hwf. unfold drop_grid.
  destruct (Board.getFirstFreeSquarePos g (Int x)) as [[| |y|]|]; auto using wf_grid_set.
Qed.

Lemma drop_grid_keeps g x t : keeps_marks g (drop_grid g x t).
Proof.
  intros x' y' Hocc. unfold drop_grid.
  destruct (Board.getFirstFreeSquarePos g (Int x)) as [r|] eqn:E; [|reflexivity].
  destruct (getFirstFreeSquarePos_Ok _ _ _ E) as (x0 & y & [= <-] & -> & Hx & Hy & He & _).
  apply sq_grid_set_ne; try lia. intros [= <- <-]. congruence.
Qed.

Lemma drop_grid_gravity g x t :
  wf_grid g -> t <> EMPTY -> gravity g -> gravity (drop_grid g x t).
Proof.
  intros Hwf Ht Hg. unfold drop_grid.
  destruct (Board.getFirstFreeSquarePos g (Int x)) as [r|] eqn:E; [|exact Hg].
  destruct (getFirstFreeSquarePos_Ok _ _ _ E) as (x0 & y & [= <-] & -> & Hx & Hy & He & Hab).
  intros x1 y1 y2 Hx1 Hy1 Hy2 Hocc.
  destruct (decide ((x, y) = (x1, y2))) as [[= <- <-]|Hne2].
  - rewrite sq_grid_set_eq by (auto; lia). exact Ht.
  - rewrite sq_grid_set_ne by (auto; lia).
    destruct (decide ((x, y) = (x1, y1))) as [[= <- <-]|Hne1].
    + apply Hab. lia.
    + rewrite sq_grid_set_ne in Hocc by (auto; lia). eapply Hg; eauto.
Qed.

Lemma keeps_marks_refl g : keeps_marks g g.
Proof. intros x y _. reflexivity. Qed.

Lemma keeps_marks_trans g1 g2 g3 :
  keeps_marks g1 g2 -> keeps_marks g2 g3 -> keeps_marks g1 g3.
Proof.
  intros H12 H23 x y Hocc. rewrite H23; [apply H12, Hocc|]. rewrite H12; exact Hocc.
Qed.

Lemma gravity_empty : gravity empty_grid.
Proof.
  intros x y y' Hx Hy Hy' Hocc. exfalso. apply Hocc.
  col_cases x; row_cases y; reflexivity.
Qed.

(** ** Rooms *)

Lemma swapPlayer_current this :
  (_currentPlayer this < 2)%nat -> currentPlayer (swapPlayer this) = opponentPlayer this.
Proof. reflexivity. Qed.

Lemma swapPlayer_swap this :
  (_currentPlayer this < 2)%nat -> swapPlayer (swapPlayer this) = this.
Proof.
  intros H. destruct this as [b ps [|[|c]]]; unfold swapPlayer; simpl in *; try lia; reflexivity.
Qed.

Lemma wf_room_sides this h :
  wf_room this h ->
  is_side (squareType (currentPlayer this))
  /\ is_side (squareType (opponentPlayer this))
  /\ squareType (opponentPlayer this) = other_side (squareType (currentPlayer this)).
Proof.
  intros (_ & Hc & _ & Hs & Ho).
  destruct this as [b [p0 p1] [|[|c]]]; unfold currentPlayer, opponentPlayer; simpl in *;
    try lia; rewrite ?Ho; destruct Hs as [-> | ->]; simpl; unfold is_side; auto.
Qed.

Lemma wf_room_swap this h : wf_room this h -> wf_room (swapPlayer this) h.
Proof.
  intros (Hb & Hc & Ht & Hs & Ho). unfold wf_room, swapPlayer.
  cbn [_board _players _currentPlayer]. split_and!; auto.
  apply Nat.mod_upper_bound. lia.
Qed.

Lemma wf_room_store this h h' :
  wf_room this h -> wf_board h' (_board this) -> wf_room this h'.
Proof. intros (_ & H) Hb. split; assumption. Qed.

(** ** The choice of a bot *)

Lemma fold_max_in (value : Z -> jsnum) free init :
  Forall (fun pos => exists z, value pos = Int z) free ->
  init = NegInf \/ (exists z, init = Int z) ->
  fold_left (fun best pos => Math_max best (value pos)) free init = init
  \/ exists pos, pos ∈ free
                 /\ value pos = fold_left (fun best pos => Math_max best (value pos)) free init.
Proof.
  intros Hv. revert init. induction Hv as [|pos free [z Hz] Hv IH]; intros init Hi.
  - left. reflexivity.
  - cbn [fold_left].
    assert (Math_max init (value pos) = init \/ Math_max init (value pos) = value pos) as Hm.
    { rewrite Hz. destruct Hi as [-> | [z0 ->]]; simpl; [auto|]. destruct (z0 <? z); auto. }
    destruct (IH (Math_max init (value pos))) as [E|(pos' & Hin & E)].
    + right. rewrite Hz. destruct Hi as [-> | [z0 ->]]; simpl; [eauto|].
      destruct (z0 <? z); eauto.
    + destruct Hm as [Hm|Hm].
      * left. rewrite E. exact Hm.
      * right. exists pos. split; [left|]. rewrite E. symmetry. exact Hm.
    + right. exists pos'. split; [right; exact Hin|exact E].
Qed.

(** The column of the exhaustive search is a free column. *)
Lemma best_column_free this depth g :
  over g = false ->
  exists c, best_column_bf this (S depth) g = Int c /\ c ∈ free_columns g.
Proof.
  intros Hover. unfold best_column_bf. simpl Nat.pred.
  set (value := fun pos => minimax_bf this depth
                 (drop_grid g pos (squareType (currentPlayer this))) false).
  assert (Forall (fun pos => exists z, value pos = Int z) (free_columns g)) as Hv
    by (apply Forall_forall; intros pos _; apply minimax_bf_Int).
  destruct (fold_max_Int value (free_columns g) NegInf Hv) as [z Hz]; auto.
  { left. apply over_false_free, Hover. }
  destruct (fold_max_in value (free_columns g) NegInf Hv) as [E|(pos & Hin & E)]; auto.
  { fold value in Hz. congruence. }
  fold value. destruct (List.find _ (free_columns g)) as [c|] eqn:Ef.
  - exists c. split; [reflexivity|]. apply find_some in Ef. apply list_elem_of_In, Ef.
  - exfalso. apply list_elem_of_In in Hin.
    pose proof (find_none _ _ Ef pos Hin) as Hn.
    apply bool_decide_eq_false in Hn. auto.
Qed.

Lemma at_index_free free i :
  (i < length free)%nat -> exists c, at_index free i = Int c /\ c ∈ free.
Proof.
  intros Hi. unfold at_index. destruct (lookup_lt_is_Some_2 free i Hi) as [c Hc].
  rewrite Hc. exists c. split; [reflexivity|]. eapply list_elem_of_lookup_2; eauto.
Qed.

Lemma random_index_lt r n : (0 < n)%nat -> (random_index r n < n)%nat.
Proof.
  intros Hn. unfold random_index. destruct n; [lia|]. apply Nat.mod_upper_bound. lia.
Qed.

(** Whatever its tier, a bot that is asked for a move on a position that is
    not over answers with a free column, and leaves the board as it is. *)
Lemma bot_choice_free this r h :
  wf_board h (_board this) ->
  is_side (squareType (currentPlayer this)) ->
  is_side (squareType (opponentPlayer this)) ->
  over (Board.contents h (_board this)) = false ->
  type (currentPlayer this) <> HUMAN ->
  exists choose c h',
    bot_choice this r = Some choose
    /\ choose h = (Ok (Int c), h')
    /\ c ∈ free_columns (Board.contents h (_board this))
    /\ extends h h'.
Proof.
  intros Hwf Hme Hopp Hover Hbot.
  set (g := Board.contents h (_board this)) in *.
  pose proof (over_false_free g Hover) as Hne.
  assert (Hsearch : forall d,
             exists c h', _minimax this (S d) (_board this) NegInf PosInf true true h
                          = (Ok (Int c), h')
                          /\ c ∈ free_columns g /\ extends h h').
  { intros d.
    destruct (minimax_refines this (S d) (_board this) NegInf PosInf true true h Hme Hopp Hwf)
      as (h' & Hmm & Hext).
    fold g in Hmm. rewrite minimax_g_best in Hmm by exact Hover.
    destruct (best_column_free this d g Hover) as (c & Ec & Hc). rewrite Ec in Hmm.
    exists c, h'. auto. }
  assert (Hlist : forall i, (i < length (free_columns g))%nat ->
             exists c h', (do g <- read (_board this);
                           do free <- lift (Board.getFree g);
                           ret (at_index free i)) h = (Ok (Int c), h')
                          /\ c ∈ free_columns g /\ extends h h').
  { intros i Hi. destruct (at_index_free _ i Hi) as (c & Ec & Hc).
    exists c, h. unfold bind, read, lift, ret. fold g. rewrite getFree_Ok, Ec.
    split_and!; auto using extends_refl. }
  unfold bot_choice. destruct (type (currentPlayer this)); try congruence.
  - destruct (Hsearch 0%nat) as (c & h' & H1 & H2 & H3). eauto 10.
  - destruct (Hsearch 2%nat) as (c & h' & H1 & H2 & H3). eauto 10.
  - destruct (Hlist 0%nat) as (c & h' & H1 & H2 & H3).
    { destruct (free_columns g); [congruence|simpl; lia]. }
    eauto 10.
  - assert ((random_index r (length (free_columns g)) < length (free_columns g))%nat) as Hi.
    { apply random_index_lt. destruct (free_columns g); [congruence|simpl; lia]. }
    destruct (Hlist _ Hi) as (c & h' & H1 & H2 & H3).
    eexists _, c, h'. split; [reflexivity|]. split_and!; auto.
    unfold bind, read, lift, ret in *. fold g in H1 |- *. rewrite getFree_Ok in *.
    exact H1.
  - destruct (Hsearch 7%nat) as (c & h' & H1 & H2 & H3). eauto 10.
Qed.

(** ** One call of [play] *)

Lemma bot_choice_None this r : bot_choice this r = None <-> type (currentPlayer this) = HUMAN.
Proof. unfold bot_choice. destruct (type (currentPlayer this)); split; congruence. Qed.

Lemma play_chain_invalid f rnd k z this h :
  z < 0 \/ cols <= z ->
  play_chain (S f) rnd k (Int z) this h
  = Some (Thrown "The position is invalid."%string, this, h).
Proof.
  intros Hz. cbn [play_chain]. unfold jge. cbn [jlt jle].
  destruct (Z.ltb_spec z 0); [reflexivity|].
  destruct (Z.leb_spec cols z); [reflexivity|lia].
Qed.

Lemma play_chain_full f rnd k x this h :
  0 <= x < cols -> column_free (Board.contents h (_board this)) x = false ->
  play_chain (S f) rnd k (Int x) this h
  = Some (Thrown "The given position has no squares free."%string, this, h).
Proof.
  intros Hx Hfull. cbn [play_chain]. unfold jge. cbn [jlt jle].
  destruct (Z.ltb_spec x 0); [lia|]. destruct (Z.leb_spec cols x); [lia|]. cbn [orb].
  rewrite hasFreeSquare_column_free by exact Hx. rewrite Hfull. reflexivity.
Qed.

(** A call on a free column: the drop, then the rest of the method. *)
Lemma play_chain_valid f rnd k x this h :
  wf_board h (_board this) -> is_side (squareType (currentPlayer this)) ->
  x ∈ free_columns (Board.contents h (_board this)) ->
  exists h1,
    wf_board h1 (_board this)
    /\ Board.contents h1 (_board this)
       = drop_grid (Board.contents h (_board this)) x (squareType (currentPlayer this))
    /\ play_chain (S f) rnd k (Int x) this h
       = if over (drop_grid (Board.contents h (_board this)) x
                    (squareType (currentPlayer this)))
         then Some (Resolved, this, h1)
         else match bot_choice (swapPlayer this) (rnd k) with
              | None => Some (Resolved, swapPlayer this, h1)
              | Some choose =>
                  match choose h1 with
                  | (Throw m, h2) => Some (Rejected m, swapPlayer this, h2)
                  | (Ok p, h2) =>
                      match play_chain f rnd (S k) p (swapPlayer this) h2 with
                      | None => None
                      | Some (Thrown m, this2, h3) => Some (Rejected m, this2, h3)
                      | Some (_, this2, h3) => Some (Resolved, this2, h3)
                      end
                  end
              end.
Proof.
  intros Hwf Hside Hfree.
  pose proof (free_columns_hasFreeSquare _ _ Hfree) as Hhas.
  pose proof (proj1 (free_columns_spec _ _) Hfree) as [Hx _].
  destruct (drop_succeeds h (_board this) x _ Hwf Hside Hhas) as [h1 Hdrop].
  destruct (drop_Ok _ _ _ _ _ _ Hwf Hdrop)
    as (x' & y & [= <-] & _ & _ & _ & _ & _ & Hgrid & Hwf1 & _).
  exists h1. split; [exact Hwf1|]. split; [exact Hgrid|].
  cbn [play_chain]. unfold jge. cbn [jlt jle].
  destruct (Z.ltb_spec x 0); [lia|]. destruct (Z.leb_spec cols x); [lia|]. cbn [orb].
  rewrite Hhas, Hdrop, isOver_Ok, Hgrid. reflexivity.
Qed.

Lemma wf_room_turns this h :
  wf_room this h ->
  type (currentPlayer (swapPlayer this)) <> HUMAN ->
  type (currentPlayer this) = HUMAN.
Proof.
  intros (_ & Hc & Ht & _) Hbot.
  destruct this as [b [p0 p1] [|[|c]]]; unfold currentPlayer, swapPlayer in *; simpl in *;
    try lia; congruence.
Qed.

(** A call of [play] on a free column resolves, with the effect [plays]
    describes. *)
Lemma play_chain_plays f rnd k x this h :
  wf_room this h ->
  x ∈ free_columns (Board.contents h (_board this)) ->
  exists moves this' h',
    play_chain (S (S f)) rnd k (Int x) this h = Some (Resolved, this', h')
    /\ wf_room this' h'
    /\ plays this (Board.contents h (_board this)) x moves
             this' (Board.contents h' (_board this'))
    /\ _board this' = _board this /\ _players this' = _players this.
Proof.
  intros Hroom Hfree.
  pose proof Hroom as (Hwf & Hcur & _).
  destruct (wf_room_sides _ _ Hroom) as (Hme & Hopp & _).
  destruct (play_chain_valid (S f) rnd k x this h Hwf Hme Hfree) as (h1 & Hwf1 & Hg1 & ->).
  set (g := Board.contents h (_board this)) in *.
  set (g1 := drop_grid g x (squareType (currentPlayer this))) in *.
  destruct (over g1) eqn:Hover.
  { exists [(_currentPlayer this, x)], this, h1. split_and!; auto.
    - eapply wf_room_store; eauto.
    - rewrite Hg1. apply plays_ends. exact Hover. }
  destruct (bot_choice (swapPlayer this) (rnd k)) as [choose|] eqn:Hchoice.
  2:{ apply bot_choice_None in Hchoice.
      exists [(_currentPlayer this, x)], (swapPlayer this), h1. split_and!; auto.
      - apply wf_room_swap. eapply wf_room_store; eauto.
      - cbn [_board swapPlayer]. rewrite Hg1. apply plays_turn; assumption. }
  assert (type (currentPlayer (swapPlayer this)) <> HUMAN) as Hbot.
  { intros E. apply (bot_choice_None _ (rnd k)) in E. congruence. }
  pose proof (wf_room_swap _ _ (wf_room_store _ _ _ Hroom Hwf1)) as Hroom1.
  destruct (wf_room_sides _ _ Hroom1) as (Hme1 & Hopp1 & _).
  destruct (bot_choice_free (swapPlayer this) (rnd k) h1) as (choose' & c & h2 & E1 & E2 & Hc & Hext);
    auto.
  { cbn [_board swapPlayer]. rewrite Hg1. exact Hover. }
  rewrite Hchoice in E1. injection E1 as <-. rewrite E2.
  cbn [_board swapPlayer] in Hc. rewrite Hg1 in Hc.
  assert (wf_board h2 (_board (swapPlayer this))) as Hwf2
    by (eapply wf_board_extends; eauto).
  assert (Board.contents h2 (_board (swapPlayer this)) = g1) as Hg2.
  { cbn [_board swapPlayer]. rewrite (contents_extends _ _ _ Hwf1 Hext). exact Hg1. }
  destruct (play_chain_valid f rnd (S k) c (swapPlayer this) h2 Hwf2 Hme1)
    as (h3 & Hwf3 & Hg3 & ->); [rewrite Hg2; exact Hc|].
  rewrite Hg2 in *.
  set (g2 := drop_grid g1 c (squareType (currentPlayer (swapPlayer this)))) in *.
  pose proof (wf_room_store _ _ _ Hroom1 Hwf3) as Hroom3.
  destruct (over g2) eqn:Hover2.
  { exists [(_currentPlayer this, x); (_currentPlayer (swapPlayer this), c)], (swapPlayer this), h3.
    split_and!; auto.
    rewrite Hg3. eapply plays_bot; eauto. apply plays_ends. exact Hover2. }
  pose proof (wf_room_turns _ _ Hroom Hbot) as Hhuman.
  rewrite (swapPlayer_swap this Hcur).
  rewrite (proj2 (bot_choice_None this (rnd (S k))) Hhuman).
  exists [(_currentPlayer this, x); (_currentPlayer (swapPlayer this), c)], this, h3.
  split_and!; auto.
  - eapply wf_room_store; eauto.
  - cbn [_board swapPlayer] in Hg3. rewrite Hg3. eapply plays_bot; eauto.
    pose proof (plays_turn (swapPlayer this) g1 c) as P.
    rewrite (swapPlayer_swap this Hcur) in P. apply P; assumption.
Qed.

(** ** The effect of a call of [play] *)

Lemma player_at_side ps i :
  is_side (squareType (fst ps)) -> squareType (snd ps) = other_side (squareType (fst ps)) ->
  is_side (squareType (player_at ps i)).
Proof.
  intros Hs Ho. destruct i; simpl; [exact Hs|]. rewrite Ho.
  destruct Hs as [-> | ->]; simpl; unfold is_side; auto.
Qed.

Lemma plays_inv this g x moves this' g' :
  plays this g x moves this' g' ->
  is_side (squareType (fst (_players this))) ->
  squareType (snd (_players this)) = other_side (squareType (fst (_players this))) ->
  wf_grid g ->
  wf_grid g' /\ keeps_marks g g' /\ (gravity g -> gravity g')
  /\ g' = apply_moves (_players this) moves g
  /\ _players this' = _players this /\ _board this' = _board this
  /\ keeps_marks (drop_grid g x (squareType (currentPlayer this))) g'.
Proof.
  intros Hp Hs Ho. induction Hp as [this g x Hover|this g x Hover Hh
                                   |this g x c moves this' g' Hover Hb Hc Hp IH]; intros Hwf.
  - split_and!; auto using wf_drop_grid, drop_grid_keeps, keeps_marks_refl.
    apply drop_grid_gravity; [exact Hwf|]. apply is_side_not_empty, player_at_side; auto.
  - split_and!; auto using wf_drop_grid, drop_grid_keeps, keeps_marks_refl.
    apply drop_grid_gravity; [exact Hwf|]. apply is_side_not_empty, player_at_side; auto.
  - destruct (IH Hs Ho (wf_drop_grid _ _ _ Hwf)) as (Hwf' & Hk & Hg & Ha & Hps & Hbd & _).
    split_and!; auto.
    + eapply keeps_marks_trans; [apply drop_grid_keeps|exact Hk].
    + intros Hgr. apply Hg. apply drop_grid_gravity; auto.
      apply is_side_not_empty, player_at_side; auto.
Qed.

Lemma plays_last this g x moves this' g' :
  plays this g x moves this' g' ->
  over g' = true ->
  exists i c, last moves = Some (i, c) /\ _currentPlayer this' = i.
Proof.
  induction 1 as [this g x Hover|this g x Hover Hh
                  |this g x c moves this' g' Hover Hb Hc Hp IH]; intros Hend.
  - exists (_currentPlayer this), x. split; reflexivity.
  - congruence.
  - destruct (IH Hend) as (i & c' & Hl & Hi). exists i, c'. split; [|exact Hi].
    destruct moves; [discriminate|exact Hl].
Qed.

Lemma over_false_winner g : over g = false -> _getSquareTypeWinner g = None.
Proof.
  unfold over. intros H. apply orb_false_iff in H. destruct H as [_ H].
  apply bool_decide_eq_false in H. destruct (_getSquareTypeWinner g); [|reflexivity].
  exfalso. apply H. discriminate.
Qed.

(** A drop on a position without a winner can only make the dropped side
    win. *)
Lemma drop_grid_winner g x t s :
  wf_grid g -> x ∈ free_columns g -> _getSquareTypeWinner g = None ->
  _getSquareTypeWinner (drop_grid g x t) = Some s -> s = t.
Proof.
  intros Hwf Hfree Hnone Hwin.
  destruct (drop_grid_spec g x t Hfree) as (y & _ & Eg & Hx & Hy & He & _).
  apply winner_sound in Hwin. destruct Hwin as (Hs & w & Hw & Hall).
  destruct (decide ((x, y) ∈ w)) as [Hin|Hout].
  - rewrite Forall_forall in Hall. specialize (Hall _ Hin). unfold sqc in Hall. simpl in Hall.
    rewrite Eg, sq_grid_set_eq in Hall by auto. congruence.
  - exfalso. destruct (winner_complete g s) as [s' Hs']; [|congruence].
    split; [exact Hs|]. exists w. split; [exact Hw|].
    rewrite Forall_forall in Hall |- *. intros [cx cy] Hc. specialize (Hall _ Hc).
    unfold sqc in *. simpl in *. rewrite Eg in Hall.
    rewrite sq_grid_set_ne in Hall; [exact Hall|lia|lia|].
    intros E. apply Hout. rewrite E. exact Hc.
Qed.

Lemma plays_winner this g x moves this' g' s :
  plays this g x moves this' g' ->
  wf_grid g -> x ∈ free_columns g -> over g = false ->
  _getSquareTypeWinner g' = Some s -> s = squareType (currentPlayer this').
Proof.
  induction 1 as [this g x Hover|this g x Hover Hh
                  |this g x c moves this' g' Hover Hb Hc Hp IH]; intros Hwf Hfree Hnot Hwin.
  - eapply drop_grid_winner; eauto using over_false_winner.
  - rewrite (over_false_winner _ Hover) in Hwin. discriminate.
  - apply IH; auto using wf_drop_grid.
Qed.

Lemma getWinner_current this h :
  wf_room this h ->
  over (Board.contents h (_board this)) = true ->
  _getSquareTypeWinner (Board.contents h (_board this))
  = Some (squareType (currentPlayer this)) ->
  getWinner this h = Ok (Some (currentPlayer this)).
Proof.
  intros (_ & Hc & _ & Hs & Ho) Hover Hwin. unfold getWinner.
  rewrite isOver_Ok, Hover, Hwin.
  destruct this as [b [p0 p1] [|[|c]]]; unfold currentPlayer; simpl in *; try lia.
  - rewrite same_type_refl. reflexivity.
  - rewrite Ho. destruct Hs as [-> | ->]; reflexivity.
Qed.

(** Every call of [play] on a room either throws and changes nothing, or
    resolves with the effect [plays] describes. *)
Lemma play_cases rnd pos this h :
  wf_room this h ->
  (exists m, play rnd pos this h = Some (Thrown m, this, h))
  \/ (exists x moves this' h',
         pos = Int x /\ x ∈ free_columns (Board.contents h (_board this))
         /\ play rnd pos this h = Some (Resolved, this', h')
         /\ wf_room this' h'
         /\ plays this (Board.contents h (_board this)) x moves
                  this' (Board.contents h' (_board this'))
         /\ _board this' = _board this /\ _players this' = _players this).
Proof.
  intros Hroom. unfold play. change (Z.to_nat (rows * cols)) with 42%nat.
  destruct pos as [| |x|].
  - left. eexists. reflexivity.
  - left. eexists. reflexivity.
  - destruct (Z_lt_le_dec x 0) as [Hneg|Hpos];
      [left; eexists; apply play_chain_invalid; lia|].
    destruct (Z_lt_le_dec x cols) as [Hlt|Hge];
      [|left; eexists; apply play_chain_invalid; lia].
    destruct (column_free (Board.contents h (_board this)) x) eqn:Hfree.
    + right. assert (x ∈ free_columns (Board.contents h (_board this))) as Hin
        by (apply free_columns_spec; split; [lia|exact Hfree]).
      destruct (play_chain_plays 41 rnd 0 x this h Hroom Hin)
        as (moves & this' & h' & Hplay & Hroom' & Hp & Hb & Hps).
      exists x, moves, this', h'. split_and!; auto.
    + left. eexists. apply play_chain_full; [lia|exact Hfree].
  - left. eexists. reflexivity.
Qed.

(** ** Reachable matches *)

Lemma type_of_new h0 j :
  (j < 42)%nat -> type_of (length h0 + j) (h0 ++ replicate 42 EMPTY) = EMPTY.
Proof.
  intros Hj. unfold type_of. rewrite lookup_app_r by lia.
  replace (length h0 + j - length h0)%nat with j by lia.
  rewrite lookup_replicate_2 by lia. reflexivity.
Qed.

Lemma new_Room_spec firstPlayer secondPlayer secondType r h0 this h :
  new_Room firstPlayer secondPlayer secondType r h0 = (Ok this, h) ->
  wf_room this h /\ Board.contents h (_board this) = empty_grid.
Proof.
  unfold new_Room, bind, ret. rewrite new_board.
  assert ((if bool_decide (secondType = HUMAN) then random_index r 2 else 0%nat) < 2)%nat as Hcur.
  { destruct (bool_decide _); [apply random_index_lt|]; lia. }
  remember (if bool_decide (secondType = HUMAN) then random_index r 2 else 0%nat) as cur.
  intros [= <- <-].
  assert (forall j, copy_addr (length h0) 0 j = (length h0 + j)%nat) as HA by reflexivity.
  assert (wf_board (h0 ++ replicate 42 EMPTY) (board_of (copy_addr (length h0) 0))) as Hwf.
  { apply wf_board_of.
    - intros i j _ _. rewrite !HA. lia.
    - intros j Hj. rewrite HA, length_app, length_replicate. lia. }
  split.
  - unfold wf_room. cbn [_board _players _currentPlayer fst snd type squareType].
    split; [exact Hwf|]. clear Heqcur.
    destruct cur as [|[|n]]; [| |lia];
      split_and!; auto; try reflexivity; unfold is_side; auto.
  - cbn [_board]. apply grid_ext.
    + apply wf_grid_contents, Hwf.
    + split; [reflexivity|]. repeat constructor.
    + intros x y Hx Hy.
      assert ((Z.to_nat x < 7)%nat) as Hx' by (unfold cols in *; lia).
      assert ((Z.to_nat y < 6)%nat) as Hy' by (unfold rows in *; lia).
      rewrite (sq_contents _ (board_of (copy_addr (length h0) 0)) x y
                 (map (fun y => copy_addr (length h0) 0 (6 * Z.to_nat x + y)%nat) (seq 0 6))
                 (copy_addr (length h0) 0 (6 * Z.to_nat x + Z.to_nat y)%nat)); try lia.
      * rewrite HA. rewrite (type_of_new h0) by lia.
        col_cases x; row_cases y; reflexivity.
      * apply board_of_lookup. exact Hx'.
      * rewrite list_lookup_fmap, lookup_seq_lt by lia. reflexivity.
Qed.

Lemma evolves_inv_pair s s' :
  evolves s s' ->
  wf_room (fst s) (snd s) ->
  wf_room (fst s') (snd s')
  /\ keeps_marks (Board.contents (snd s) (_board (fst s)))
                 (Board.contents (snd s') (_board (fst s')))
  /\ (gravity (Board.contents (snd s) (_board (fst s))) ->
      gravity (Board.contents (snd s') (_board (fst s'))))
  /\ _board (fst s') = _board (fst s) /\ _players (fst s') = _players (fst s).
Proof.
  induction 1 as [s|this0 h0 rnd pos out this1 h1 s Hplay Hacc Hev IH]; intros Hroom.
  - split_and!; auto using keeps_marks_refl.
  - cbn [fst snd] in *.
    destruct (play_cases rnd pos this0 h0 Hroom)
      as [[m Hm]|(x & moves & this2 & h2 & -> & Hfree & Hres & Hroom2 & Hp & Hb & Hps)].
    + rewrite Hm in Hplay. injection Hplay as <- <- <-. exfalso. eapply Hacc. reflexivity.
    + rewrite Hres in Hplay. injection Hplay as <- <- <-.
      destruct Hroom as (Hwf & _ & _ & Hs & Ho).
      destruct (plays_inv _ _ _ _ _ _ Hp Hs Ho (wf_grid_contents _ _ Hwf))
        as (_ & Hk & Hg & _).
      destruct (IH Hroom2) as (Hroom' & Hk' & Hg' & Hb' & Hps').
      split_and!; auto; try congruence.
      eapply keeps_marks_trans; eauto.
Qed.

Lemma evolves_inv this h this' h' :
  evolves (this, h) (this', h') ->
  wf_room this h ->
  wf_room this' h'
  /\ keeps_marks (Board.contents h (_board this)) (Board.contents h' (_board this'))
  /\ (gravity (Board.contents h (_board this)) -> gravity (Board.contents h' (_board this')))
  /\ _board this' = _board this /\ _players this' = _players this.
Proof. intros Hev. apply (evolves_inv_pair _ _ Hev). Qed.

Lemma reachable_inv this h :
  reachable this h -> wf_room this h /\ gravity (Board.contents h (_board this)).
Proof.
  intros (fp & sp & st & r & h0 & this0 & h1 & Hnew & Hev).
  destruct (new_Room_spec _ _ _ _ _ _ _ Hnew) as [Hroom0 Hempty].
  destruct (evolves_inv _ _ _ _ Hev Hroom0) as (Hroom & _ & Hg & _).
  split; [exact Hroom|]. apply Hg. rewrite Hempty. apply gravity_empty.
Qed.

Lemma reachable_new firstPlayer secondPlayer secondType r h0 this h :
  new_Room firstPlayer secondPlayer secondType r h0 = (Ok this, h) -> reachable this h.
Proof.
  intros Hnew. exists firstPlayer, secondPlayer, secondType, r, h0, this, h.
  split; [exact Hnew|apply evolves_refl].
Qed.

Lemma play_all_evolves rnd columns s s' : play_all rnd columns s = Some s' -> evolves s s'.
Proof.
  revert s. induction columns as [|c columns IH]; intros [this h] Hall; simpl in Hall.
  - injection Hall as <-. apply evolves_refl.
  - destruct (play rnd (Int c) this h) as [[[out this1] h1]|] eqn:Hplay; [|discriminate].
    destruct out; try discriminate.
    eapply evolves_play; [exact Hplay|discriminate|]. apply IH, Hall.
Qed.

Lemma evolves_trans a b c : evolves a b -> evolves b c -> evolves a c.
Proof.
  induction 1 as [s|this h rnd pos out this' h' s Hplay Hacc Hev IH]; intros Hbc.
  - exact Hbc.
  - eapply evolves_play; eauto.
Qed.

Lemma reachable_evolves this h this' h' :
  reachable this h -> evolves (this, h) (this', h') -> reachable this' h'.
Proof.
  intros (fp & sp & st & r & h0 & this0 & h1 & Hnew & Hev0) Hev.
  exists fp, sp, st, r, h0, this0, h1. split; [exact Hnew|].
  eapply evolves_trans; eauto.
Qed.

Lemma reachable_start : reachable (fst start_state) (snd start_state).
Proof. apply (reachable_new None None HUMAN 0%nat []). reflexivity. Qed.

Lemma reachable_near_win : reachable (fst near_win_state) (snd near_win_state).
Proof.
  apply (reachable_evolves (fst start_state) (snd start_state)); [exact reachable_start|].
  apply (play_all_evolves (fun _ => 0%nat) [0; 1; 0; 1; 0; 1]). vm_compute. reflexivity.
Qed.

Lemma column_free_spec g x :
  column_free g x = true <-> exists y, 0 <= y < rows /\ sq g x y = EMPTY.
Proof.
  unfold column_free. rewrite existsb_exists. split.
  - intros (y & Hin & He). exists y. split; [|apply isEmpty_true, He].
    rewrite upto_rows in Hin. simpl in Hin. unfold rows. lia.
  - intros (y & Hy & He). exists y. split; [|apply isEmpty_true, He].
    rewrite upto_rows. row_cases y; simpl; tauto.
Qed.

Lemma column_full_spec g x :
  column_free g x = false <-> forall y, 0 <= y < rows -> sq g x y <> EMPTY.
Proof.
  split.
  - intros Hf y Hy He. assert (column_free g x = true) by (apply column_free_spec; eauto).
    congruence.
  - intros Hall. destruct (column_free g x) eqn:E; [|reflexivity].
    apply column_free_spec in E. destruct E as (y & Hy & He). exfalso. eapply Hall; eauto.
Qed.

(** C1: on a match, [play(column)] throws "The position is invalid." when
    the column is outside [0, 7), throws "The given position has no squares
    free." when the column has no empty square, and in both cases leaves the
    room and the store as they were; otherwise it resolves, and the mark of
    the current player is in the lowest empty square of the column. *)
Theorem play_drops_or_fails this h rnd column :
  reachable this h ->
  (column < 0 \/ cols <= column ->
   play rnd (Int column) this h
   = Some (Thrown "The position is invalid."%string, this, h))
  /\ (0 <= column < cols ->
      (forall y, 0 <= y < rows -> sq (Board.contents h (_board this)) column y <> EMPTY) ->
      play rnd (Int column) this h
      = Some (Thrown "The given position has no squares free."%string, this, h))
  /\ (0 <= column < cols ->
      (exists y, 0 <= y < rows /\ sq (Board.contents h (_board this)) column y = EMPTY) ->
      exists y moves this' h',
        play rnd (Int column) this h = Some (Resolved, this', h')
        /\ 0 <= y < rows
        /\ sq (Board.contents h (_board this)) column y = EMPTY
        /\ (forall y', y < y' < rows -> sq (Board.contents h (_board this)) column y' <> EMPTY)
        /\ _board this' = _board this
        /\ sq (Board.contents h' (_board this)) column y = squareType (currentPlayer this)
        /\ keeps_marks (Board.contents h (_board this)) (Board.contents h' (_board this))
        /\ plays this (Board.contents h (_board this)) column moves
                 this' (Board.contents h' (_board this))).
Proof.
  intros Hreach. destruct (reachable_inv _ _ Hreach) as [Hroom _].
  split; [|split].
  - intros Hout. apply play_chain_invalid. exact Hout.
  - intros Hin Hfull. apply play_chain_full; [exact Hin|]. apply column_full_spec, Hfull.
  - intros Hin Hfree. apply column_free_spec in Hfree.
    assert (column ∈ free_columns (Board.contents h (_board this))) as Hcol
      by (apply free_columns_spec; auto).
    destruct (play_chain_plays 41 rnd 0 column this h Hroom Hcol)
      as (moves & this' & h' & Hplay & Hroom' & Hp & Hb & Hps).
    destruct (drop_grid_spec _ column (squareType (currentPlayer this)) Hcol)
      as (y & _ & Eg & _ & Hy & He & Hlow).
    pose proof Hroom as (Hwf & _ & _ & Hs & Ho).
    destruct (plays_inv _ _ _ _ _ _ Hp Hs Ho (wf_grid_contents _ _ Hwf))
      as (_ & Hk & _ & _ & _ & _ & Hk1).
    rewrite Hb in *.
    exists y, moves, this', h'. split_and!; auto; try lia.
    rewrite Hk1; rewrite Eg, sq_grid_set_eq; auto using wf_grid_contents.
    apply is_side_not_empty. destruct (wf_room_sides _ _ Hroom) as (Hme & _). exact Hme.
Qed.

Lemma play_drops_or_fails_witness :
  play (fun _ => 0%nat) (Int 7) (fst start_state) (snd start_state)
  = Some (Thrown "The position is invalid."%string, fst start_state, snd start_state).
Proof.
  apply (proj1 (play_drops_or_fails (fst start_state) (snd start_state) (fun _ => 0%nat) 7
                  reachable_start)).
  right. unfold cols. lia.
Defined.

(** C4: in every state of a match reachable by accepted calls of [play],
    the occupied squares of each column are at the bottom, with no empty
    square below an occupied one; and from then on no occupied square ever
    becomes empty or changes side. *)
Theorem gravity_and_marks_kept this h :
  reachable this h ->
  gravity (Board.contents h (_board this))
  /\ forall this' h',
       evolves (this, h) (this', h') ->
       reachable this' h'
       /\ _board this' = _board this
       /\ keeps_marks (Board.contents h (_board this)) (Board.contents h' (_board this)).
Proof.
  intros Hreach. destruct (reachable_inv _ _ Hreach) as [Hroom Hg].
  split; [exact Hg|]. intros this' h' Hev.
  destruct (evolves_inv _ _ _ _ Hev Hroom) as (_ & Hk & _ & Hb & _).
  rewrite Hb in Hk. split_and!; auto.
  eapply reachable_evolves; eauto.
Qed.

Lemma gravity_and_marks_kept_witness :
  gravity (Board.contents (snd near_win_state) (_board (fst near_win_state))).
Proof.
  exact (proj1 (gravity_and_marks_kept (fst near_win_state) (snd near_win_state)
                  reachable_near_win)).
Defined.

(** C9: whenever a call of [play] asks a bot for its move (the room is
    well-formed, the game is not over and the current player is a bot), the
    column selected by the bot's policy is one of the columns [getFree()]
    returns for the board, the board is left as it was, and the chained call
    of [play] on that column does not throw: it resolves. *)
Theorem bot_plays_free_column this h r :
  wf_room this h ->
  over (Board.contents h (_board this)) = false ->
  type (currentPlayer this) <> HUMAN ->
  exists choose c h1 free,
    bot_choice this r = Some choose
    /\ choose h = (Ok (Int c), h1)
    /\ Board.getFree (Board.contents h (_board this)) = Ok free
    /\ c ∈ free
    /\ Board.contents h1 (_board this) = Board.contents h (_board this)
    /\ forall fuel rnd k,
         exists this' h',
           play_chain (S (S fuel)) rnd k (Int c) this h1 = Some (Resolved, this', h').
Proof.
  intros Hroom Hover Hbot.
  pose proof Hroom as (Hwf & _).
  destruct (wf_room_sides _ _ Hroom) as (Hme & Hopp & _).
  destruct (bot_choice_free this r h Hwf Hme Hopp Hover Hbot)
    as (choose & c & h1 & Hchoice & Hrun & Hc & Hext).
  exists choose, c, h1, (free_columns (Board.contents h (_board this))).
  pose proof (contents_extends _ _ _ Hwf Hext) as Hcont.
  split_and!; auto using getFree_Ok.
  intros fuel rnd k.
  assert (wf_room this h1) as Hroom1
    by (eapply wf_room_store; eauto using wf_board_extends).
  destruct (play_chain_plays fuel rnd k c this h1 Hroom1) as (moves & this' & h' & Hplay & _).
  - rewrite Hcont. exact Hc.
  - exists this', h'. exact Hplay.
Qed.

Lemma wf_bot_turn_room : wf_room bot_turn_room fresh_store.
Proof.
  unfold wf_room, bot_turn_room. cbn [_board _players _currentPlayer fst snd type squareType].
  split_and!; auto using wf_fresh_board.
  - right. reflexivity.
Qed.

Lemma bot_plays_free_column_witness :
  exists choose c h1 free,
    bot_choice bot_turn_room 0 = Some choose
    /\ choose fresh_store = (Ok (Int c), h1)
    /\ Board.getFree (Board.contents fresh_store (_board bot_turn_room)) = Ok free
    /\ c ∈ free
    /\ Board.contents h1 (_board bot_turn_room)
       = Board.contents fresh_store (_board bot_turn_room)
    /\ forall fuel rnd k,
         exists this' h',
           play_chain (S (S fuel)) rnd k (Int c) bot_turn_room h1
           = Some (Resolved, this', h').
Proof.
  apply (bot_plays_free_column bot_turn_room fresh_store 0 wf_bot_turn_room).
  - reflexivity.
  - discriminate.
Defined.

(** C10: when a call of [play] on a match that is not over makes the game
    over, the turn pointer stays on the player who made the last move of
    the call, and if the game has a winner, [getWinner()] returns that
    player. *)
Theorem pointer_stays_on_last_mover this h rnd pos out this' h' :
  reachable this h ->
  over (Board.contents h (_board this)) = false ->
  play rnd pos this h = Some (out, this', h') ->
  over (Board.contents h' (_board this')) = true ->
  exists x moves i c,
    pos = Int x /\ out = Resolved
    /\ plays this (Board.contents h (_board this)) x moves
             this' (Board.contents h' (_board this'))
    /\ Board.contents h' (_board this')
       = apply_moves (_players this) moves (Board.contents h (_board this))
    /\ last moves = Some (i, c)
    /\ _currentPlayer this' = i
    /\ currentPlayer this' = player_at (_players this) i
    /\ (forall s, _getSquareTypeWinner (Board.contents h' (_board this')) = Some s ->
                  s = squareType (currentPlayer this')
                  /\ getWinner this' h' = Ok (Some (currentPlayer this')))
    /\ (_getSquareTypeWinner (Board.contents h' (_board this')) = None ->
        getWinner this' h' = Ok None).
Proof.
  intros Hreach Hnot Hplay Hend. destruct (reachable_inv _ _ Hreach) as [Hroom _].
  destruct (play_cases rnd pos this h Hroom)
    as [[m Hm]|(x & moves & this2 & h2 & -> & Hfree & Hres & Hroom2 & Hp & Hb & Hps)].
  - rewrite Hm in Hplay. injection Hplay as <- <- <-. congruence.
  - rewrite Hres in Hplay. injection Hplay as <- <- <-.
    destruct (plays_last _ _ _ _ _ _ Hp Hend) as (i & c & Hlast & Hi).
    pose proof Hroom as (Hwf & _ & _ & Hs & Ho).
    destruct (plays_inv _ _ _ _ _ _ Hp Hs Ho (wf_grid_contents _ _ Hwf))
      as (_ & _ & _ & Happ & _).
    exists x, moves, i, c. split_and!; auto.
    + unfold currentPlayer. rewrite Hps, Hi. reflexivity.
    + intros s Hwin.
      pose proof (plays_winner _ _ _ _ _ _ s Hp (wf_grid_contents _ _ Hwf) Hfree Hnot Hwin)
        as ->.
      split; [reflexivity|]. apply getWinner_current; auto.
    + intros Hnone. unfold getWinner. rewrite isOver_Ok, Hend, Hnone. reflexivity.
Qed.

Lemma pointer_stays_on_last_mover_witness :
  exists x moves i c,
    Int 0 = Int x /\ Resolved = Resolved
    /\ plays (fst near_win_state)
             (Board.contents (snd near_win_state) (_board (fst near_win_state))) x moves
             (fst near_win_state)
             (Board.contents (<[2%nat := BLUE]> (snd near_win_state))
                (_board (fst near_win_state)))
    /\ Board.contents (<[2%nat := BLUE]> (snd near_win_state)) (_board (fst near_win_state))
       = apply_moves (_players (fst near_win_state)) moves
           (Board.contents (snd near_win_state) (_board (fst near_win_state)))
    /\ last moves = Some (i, c)
    /\ _currentPlayer (fst near_win_state) = i
    /\ currentPlayer (fst near_win_state) = player_at (_players (fst near_win_state)) i
    /\ (forall s, _getSquareTypeWinner
                    (Board.contents (<[2%nat := BLUE]> (snd near_win_state))
                       (_board (fst near_win_state))) = Some s ->
                  s = squareType (currentPlayer (fst near_win_state))
                  /\ getWinner (fst near_win_state) (<[2%nat := BLUE]> (snd near_win_state))
                     = Ok (Some (currentPlayer (fst near_win_state))))
    /\ (_getSquareTypeWinner
          (Board.contents (<[2%nat := BLUE]> (snd near_win_state))
             (_board (fst near_win_state))) = None ->
        getWinner (fst near_win_state) (<[2%nat := BLUE]> (snd near_win_state)) = Ok None).
Proof.
  apply (pointer_stays_on_last_mover (fst near_win_state) (snd near_win_state)
           (fun _ => 0%nat) (Int 0) Resolved (fst near_win_state)
           (<[2%nat := BLUE]> (snd near_win_state)) reachable_near_win).
  - vm_compute. reflexivity.
  - vm_compute. reflexivity.
  - vm_compute. reflexivity.
Defined.

(** * Further properties of the board, of the room and of the view *)

(** ** Range checks *)


Lemma getSquare_inv (b : board) x y a :
  Board.getSquare b x y = Ok a ->
  exists xi yi c,
    x = Int xi /\ y = Int yi /\ 0 <= xi < cols /\ 0 <= yi < rows
    /\ b !! Z.to_nat xi = Some c /\ c !! Z.to_nat yi = Some a.
Proof.
  unfold Board.getSquare, Board.ref.
  destruct (Board.invalid x cols) eqn:Hx; [discriminate|].
  destruct (Board.invalid y rows) eqn:Hy; [discriminate|].
  destruct x as [| |xi|]; try discriminate. destruct y as [| |yi|]; try discriminate.
  apply invalid_Int in Hx, Hy.
  destruct (b !! Z.to_nat xi) as [c|] eqn:Ec; [|discriminate]. simpl.
  destruct (c !! Z.to_nat yi) as [a'|] eqn:Ea; [|discriminate].
  intros [= <-]. exists xi, yi, c. split_and!; auto; lia.
Qed.

(** X1 ([new Board()]): in any store the constructor succeeds and returns a
    well-formed board of 42 squares that did not exist before, all of them
    empty; the squares that existed are left as they were.  All seven
    columns are free and the first free row of each is the bottom row, 5. *)
Theorem new_Board_is_empty h :
  exists b h',
    Board.new h = (Ok b, h')
    /\ extends h h' /\ length h' = (length h + 42)%nat
    /\ wf_board h' b
    /\ Forall (fun a => (length h <= a)%nat) (concat b)
    /\ (forall x y, 0 <= x < cols -> 0 <= y < rows -> sq (Board.contents h' b) x y = EMPTY)
    /\ Board.getFree (Board.contents h' b) = Ok [0; 1; 2; 3; 4; 5; 6]
    /\ (forall x, 0 <= x < cols ->
                  Board.getFirstFreeSquarePos (Board.contents h' b) (Int x) = Ok (Int 5)).
Proof.
  assert (new_Room None None EASY_BOT 0 h
          = (Ok (mkRoom (board_of (copy_addr (length h) 0))
                   (mkPlayer None HUMAN BLUE, mkPlayer None EASY_BOT RED) 0),
             h ++ replicate 42 EMPTY)) as E.
  { unfold new_Room, bind, ret. rewrite new_board. reflexivity. }
  apply new_Room_spec in E. destruct E as [(Hwf & _) Hc]. cbn [_board] in Hwf, Hc.
  eexists _, _. split; [apply new_board|]. split_and!.
  - eexists. reflexivity.
  - rewrite length_app, length_replicate. reflexivity.
  - exact Hwf.
  - rewrite concat_board_of. apply Forall_forall. intros a Ha.
    apply list_elem_of_fmap in Ha. destruct Ha as (j & -> & _). unfold copy_addr. simpl. lia.
  - intros x y Hx Hy. rewrite Hc. col_cases x; row_cases y; reflexivity.
  - rewrite Hc. reflexivity.
  - intros x Hx. rewrite Hc. col_cases x; reflexivity.
Qed.

(** ** [setSquare] and [getSquare] *)



(** X3 ([setSquare] then [getSquare]): after a successful
    [setSquare(x, y, type)] the square returned by [getSquare(x, y)] was
    empty and now has the type; every other square of the board, and every
    square outside the board, has the type it had; and a second write to
    the same square is refused and changes nothing. *)
Theorem setSquare_then_getSquare h b x y t u h' :
  wf_board h b ->
  Board.setSquare b x y t h = (Ok u, h') ->
  (exists a, Board.getSquare b x y = Ok a /\ type_of a h = EMPTY /\ type_of a h' = t)
  /\ (forall x' y' a', Board.getSquare b x' y' = Ok a' -> (x', y') <> (x, y) ->
                       type_of a' h' = type_of a' h)
  /\ (forall a', a' ∉ concat b -> type_of a' h' = type_of a' h)
  /\ length h' = length h
  /\ (forall t', t' <> EMPTY ->
                 Board.setSquare b x y t' h' = (Throw "The square is not empty."%string, h')).
Proof.
  intros Hwf Hset.
  destruct (setSquare_Ok _ _ _ _ _ _ _ Hwf Hset)
    as (xi & yi & c & a & -> & -> & Hx & Hy & Ht & Hc & Ha & He & ->).
  destruct (wf_board_lookup h b xi yi Hwf Hx Hy) as (c' & a0 & Hc' & Ha' & Hin & Hlt).
  rewrite Hc in Hc'. injection Hc' as <-. rewrite Ha in Ha'. injection Ha' as <-.
  rewrite (sq_contents h b xi yi c a) in He by (auto; lia).
  assert (type_of a (<[a := t]> h) = t) as Hnew.
  { rewrite type_of_insert by exact Hlt. destruct (decide (a = a)); congruence. }
  split_and!.
  - exists a. split_and!; auto. eapply getSquare_Ok; eauto.
  - intros x' y' a' Hget Hne.
    destruct (getSquare_inv _ _ _ _ Hget) as (xi' & yi' & c' & -> & -> & Hx' & Hy' & Hc' & Ha').
    rewrite type_of_insert by exact Hlt. destruct (decide (a = a')) as [<-|]; [|reflexivity].
    destruct Hwf as (_ & Hlen & Hnd & _).
    destruct (board_ref_inj b _ _ _ _ _ _ _ Hlen Hnd Hc Ha Hc' Ha') as [E1 E2].
    exfalso. apply Hne. f_equal; f_equal; lia.
  - intros a' Hnot. rewrite type_of_insert by exact Hlt.
    destruct (decide (a = a')) as [<-|]; [contradiction|reflexivity].
  - apply length_insert.
  - intros t' Ht'. unfold Board.setSquare, bind, lift, throw.
    rewrite (proj2 (invalid_Int _ _) Hx), (proj2 (invalid_Int _ _) Hy).
    rewrite (proj2 (same_type_false _ _) Ht').
    unfold Board.ref. rewrite Hc. simpl. rewrite Ha. rewrite Hnew.
    apply is_side_not_empty in Ht. rewrite (proj2 (isEmpty_false _) Ht). reflexivity.
Qed.

Lemma setSquare_then_getSquare_witness :
  exists a, Board.getSquare fresh_board (Int 0) (Int 5) = Ok a
            /\ type_of a fresh_store = EMPTY
            /\ type_of a (<[5%nat := RED]> fresh_store) = RED.
Proof.
  refine (proj1 (setSquare_then_getSquare fresh_store fresh_board (Int 0) (Int 5) RED tt
                   (<[5%nat := RED]> fresh_store) wf_fresh_board _)).
  vm_compute. reflexivity.
Defined.



(** ** Free columns *)

Lemma StronglySorted_filter {A} (R : A -> A -> Prop) (f : A -> bool) l :
  StronglySorted R l -> StronglySorted R (List.filter f l).
Proof.
  induction 1 as [|a l Hs IH Ha]; simpl; [constructor|].
  destruct (f a); [|exact IH]. constructor; [exact IH|].
  apply Forall_forall. intros b Hb. apply list_elem_of_In, filter_In in Hb.
  destruct Hb as [Hb _]. apply list_elem_of_In in Hb.
  eapply Forall_forall in Ha; eauto.
Qed.

Lemma free_columns_sorted g : StronglySorted Z.lt (free_columns g).
Proof.
  unfold free_columns. apply StronglySorted_filter. rewrite upto_cols.
  repeat (constructor; [|repeat (constructor; [lia|]); constructor]). constructor.
Qed.

(** X5 ([getFree]): the call never throws; it returns the columns that have
    an empty square, each once and in increasing order, and these are the
    columns for which [hasFreeSquare] answers true. *)
Theorem getFree_columns g :
  exists free,
    Board.getFree g = Ok free
    /\ (forall x, x ∈ free <-> 0 <= x < cols /\ exists y, 0 <= y < rows /\ sq g x y = EMPTY)
    /\ (forall x, x ∈ free <-> Board.hasFreeSquare g (Int x) = Ok true)
    /\ StronglySorted Z.lt free
    /\ NoDup free.
Proof.
  exists (free_columns g). split; [apply getFree_Ok|]. split_and!.
  - intros x. rewrite free_columns_spec, column_free_spec. reflexivity.
  - intros x. split.
    + apply free_columns_hasFreeSquare.
    + intros H. apply hasFreeSquare_true in H.
      destruct H as (x' & [= <-] & Hx & Hy).
      apply free_columns_spec. split; [exact Hx|]. apply column_free_spec, Hy.
  - apply free_columns_sorted.
  - pose proof (free_columns_sorted g) as Hs.
    induction Hs as [|a l Hs IH Ha]; constructor; [|exact IH].
    intros Hin. eapply Forall_forall in Ha; eauto. lia.
Qed.


(** ** The room *)

(** X7 ([swapPlayer], [currentPlayer], [opponentPlayer]): with the turn
    pointer on one of the two players, [swapPlayer] exchanges the current
    player and the opponent, keeps the pointer on one of the two players and
    leaves the board and the players alone; two swaps give the room back. *)
Theorem swapPlayer_exchanges this :
  (_currentPlayer this < 2)%nat ->
  currentPlayer (swapPlayer this) = opponentPlayer this
  /\ opponentPlayer (swapPlayer this) = currentPlayer this
  /\ (_currentPlayer (swapPlayer this) < 2)%nat
  /\ _currentPlayer (swapPlayer this) <> _currentPlayer this
  /\ _board (swapPlayer this) = _board this
  /\ _players (swapPlayer this) = _players this
  /\ swapPlayer (swapPlayer this) = this.
Proof.
  intros H. destruct this as [b ps [|[|c]]]; unfold swapPlayer, currentPlayer, opponentPlayer;
    simpl in *; try lia; split_and!; try reflexivity; lia.
Qed.

Lemma swapPlayer_exchanges_witness :
  swapPlayer (swapPlayer bot_turn_room) = bot_turn_room.
Proof.
  refine (proj2 (proj2 (proj2 (proj2 (proj2 (proj2 (swapPlayer_exchanges bot_turn_room _))))))).
  vm_compute. reflexivity.
Defined.

(** X8 (the constructor of [Room]): the room is built in any store, on a new
    empty board, with the first player human and the second of the given
    type.  The player who moves first holds BLUE and the other RED; against
    a bot the human, player 0, moves first, and between two humans the draw
    decides.  The game is not over. *)
Theorem new_Room_starts firstPlayer secondPlayer secondType r h0 :
  exists this h,
    new_Room firstPlayer secondPlayer secondType r h0 = (Ok this, h)
    /\ extends h0 h
    /\ wf_board h (_board this)
    /\ (forall x y, 0 <= x < cols -> 0 <= y < rows ->
                    sq (Board.contents h (_board this)) x y = EMPTY)
    /\ member (fst (_players this)) = firstPlayer
    /\ type (fst (_players this)) = HUMAN
    /\ member (snd (_players this)) = secondPlayer
    /\ type (snd (_players this)) = secondType
    /\ squareType (currentPlayer this) = BLUE
    /\ squareType (opponentPlayer this) = RED
    /\ (secondType <> HUMAN -> _currentPlayer this = 0%nat)
    /\ (secondType = HUMAN -> _currentPlayer this = (r mod 2)%nat)
    /\ isOver (Board.contents h (_board this)) = Ok false.
Proof.
  assert ((if bool_decide (secondType = HUMAN) then random_index r 2 else 0%nat) < 2)%nat as Hcur.
  { destruct (bool_decide _); [apply random_index_lt|]; lia. }
  assert (secondType <> HUMAN ->
          (if bool_decide (secondType = HUMAN) then random_index r 2 else 0%nat) = 0%nat) as Hbot.
  { intros Hne. rewrite bool_decide_eq_false_2 by exact Hne. reflexivity. }
  assert (secondType = HUMAN ->
          (if bool_decide (secondType = HUMAN) then random_index r 2 else 0%nat)
          = (r mod 2)%nat) as Hhum.
  { intros He. rewrite bool_decide_eq_true_2 by exact He. reflexivity. }
  destruct (new_Room firstPlayer secondPlayer secondType r h0) as [res h] eqn:E.
  pose proof E as E'. unfold new_Room, bind, ret in E'. rewrite new_board in E'.
  remember (if bool_decide (secondType = HUMAN) then random_index r 2 else 0%nat) as cur.
  clear Heqcur.
  set (b := board_of (copy_addr (length h0) 0)) in *.
  remember (h0 ++ replicate 42 EMPTY) as h1 eqn:Eh1.
  injection E' as <- <-.
  destruct (new_Room_spec _ _ _ _ _ _ _ E) as [(Hwf & _) Hc]. cbn [_board] in Hwf, Hc.
  eexists _, _. split; [reflexivity|].
  cbn [_board _players _currentPlayer fst snd member type squareType].
  split_and!; auto.
  - exists (replicate 42 EMPTY). exact Eh1.
  - intros x y Hx Hy. rewrite Hc. col_cases x; row_cases y; reflexivity.
  - destruct cur as [|[|n]]; [reflexivity|reflexivity|lia].
  - destruct cur as [|[|n]]; [reflexivity|reflexivity|lia].
  - rewrite Hc. reflexivity.
Qed.

Lemma free_columns_nil g :
  free_columns g = [] <->
  forall x y, 0 <= x < cols -> 0 <= y < rows -> sq g x y <> EMPTY.
Proof.
  split.
  - intros Hnil x y Hx Hy He.
    assert (x ∈ free_columns g) as Hin.
    { apply free_columns_spec. split; [exact Hx|]. apply column_free_spec. eauto. }
    rewrite Hnil in Hin. apply elem_of_nil in Hin. exact Hin.
  - intros Hfull. destruct (free_columns g) as [|x l] eqn:E; [reflexivity|].
    assert (x ∈ free_columns g) as Hin by (rewrite E; apply list_elem_of_here).
    apply free_columns_spec in Hin. destruct Hin as [Hx Hf].
    apply column_free_spec in Hf. destruct Hf as (y & Hy & He).
    destruct (Hfull x y Hx Hy He).
Qed.

Lemma over_true g :
  over g = true <->
  (forall x y, 0 <= x < cols -> 0 <= y < rows -> sq g x y <> EMPTY) \/ exists s, has_run g s.
Proof.
  unfold over. rewrite orb_true_iff, bool_decide_eq_true, <- free_columns_nil.
  split; intros [H|H].
  - left. destruct (free_columns g); [reflexivity|discriminate].
  - right. destruct (_getSquareTypeWinner g) as [s|] eqn:E; [|congruence].
    exists s. apply winner_sound, E.
  - left. rewrite H. reflexivity.
  - right. destruct H as [s Hs]. apply winner_complete in Hs. destruct Hs as [s' ->]. discriminate.
Qed.

(** X9 ([isOver]): the call never throws; the game is over when no square
    of the board is empty, or when a side occupies four consecutive squares
    of a column, a row or a diagonal, and only then. *)
Theorem isOver_cases g :
  exists b,
    isOver g = Ok b
    /\ (b = true <->
        (forall x y, 0 <= x < cols -> 0 <= y < rows -> sq g x y <> EMPTY)
        \/ exists s, has_run g s).
Proof. exists (over g). split; [apply isOver_Ok|apply over_true]. Qed.

(** ** The range of the heuristic score *)

Lemma count_cells_le p g w : count_cells p g w <= Z.of_nat (length w).
Proof.
  induction w as [|c w IH]; [reflexivity|].
  rewrite count_cells_cons. simpl length. rewrite Nat2Z.inj_succ.
  destruct (p (sqc g c)); simpl; lia.
Qed.

Lemma count_cells_all p g w :
  count_cells p g w = Z.of_nat (length w) -> Forall (fun c => p (sqc g c) = true) w.
Proof.
  induction w as [|c w IH]; [constructor|].
  rewrite count_cells_cons. simpl length. rewrite Nat2Z.inj_succ.
  pose proof (count_cells_le p g w) as Hle. intros H.
  destruct (p (sqc g c)) eqn:E; simpl in H; [|lia].
  constructor; [exact E|]. apply IH. lia.
Qed.

Lemma zsum_bounds lo hi l :
  Forall (fun v => lo <= v <= hi) l ->
  lo * Z.of_nat (length l) <= zsum l <= hi * Z.of_nat (length l).
Proof.
  induction 1 as [|v l Hv Hl IH]; simpl zsum; simpl length; [lia|].
  rewrite Nat2Z.inj_succ. lia.
Qed.

(** A run of the scan that one side fills ends the game. *)
Lemma full_run_over g s w :
  s <> EMPTY -> w ∈ scan_runs -> count_side g s w = Z.of_nat (length w) -> over g = true.
Proof.
  intros Hs Hw Hcount. apply over_true. right. exists s. split; [exact Hs|].
  pose proof scan_runs_all as Hall. rewrite Forall_forall in Hall.
  specialize (Hall w Hw). apply Exists_exists in Hall. destruct Hall as (w' & Hw' & Hperm).
  exists w'. split; [exact Hw'|]. rewrite <- Hperm.
  apply count_cells_all in Hcount. eapply Forall_impl; [exact Hcount|].
  intros c Hc. apply same_type_true, Hc.
Qed.

Lemma scan_runs_length : Forall (fun w => length w = 4%nat) scan_runs.
Proof. refine (bool_decide_unpack _ _). vm_compute. exact I. Qed.

(** While the game is not over, a run is worth between -5 and 5 points. *)
Lemma window_points_small g s w :
  s <> EMPTY -> over g = false -> w ∈ scan_runs ->
  -5 <= window_points (count_empty g w) (count_mine g s w) <= 5.
Proof.
  intros Hs Hover Hw. rewrite count_mine_side by exact Hs.
  pose proof scan_runs_length as HL. rewrite Forall_forall in HL. specialize (HL w Hw).
  pose proof (counts_total g s w Hs) as Htot. rewrite HL in Htot.
  assert (count_side g s w <> 4) as Hmine.
  { intros E. rewrite (full_run_over g s w Hs Hw) in Hover; [discriminate|].
    rewrite HL. exact E. }
  assert (count_side g (other_side s) w <> 4) as Hopp.
  { intros E. rewrite (full_run_over g (other_side s) w) in Hover; [discriminate| |exact Hw|].
    - destruct s; simpl; congruence.
    - rewrite HL. exact E. }
  pose proof (count_cells_nonneg isEmpty g w) as H0. fold (count_empty g w) in H0.
  pose proof (count_cells_nonneg (fun t => same_type t s) g w) as H1.
  fold (count_side g s w) in H1.
  pose proof (count_cells_nonneg (fun t => same_type t (other_side s)) g w) as H2.
  fold (count_side g (other_side s) w) in H2.
  set (e := count_empty g w) in *. set (f := count_side g s w) in *.
  assert (e = 0 \/ e = 1 \/ e = 2 \/ e = 3 \/ e = 4) as He by lia.
  assert (f = 0 \/ f = 1 \/ f = 2 \/ f = 3) as Hf by lia.
  destruct He as [-> | [-> | [-> | [-> | ->]]]], Hf as [-> | [-> | [-> | ->]]];
    try (vm_compute; split; discriminate); lia.
Qed.

Lemma getScore_range g player :
  squareType player <> EMPTY -> over g = false -> -345 <= _getScore g player <= 369.
Proof.
  intros Hs Hover. rewrite getScore_runs.
  pose proof (count_cells_nonneg (fun t => same_type t (squareType player)) g center_cells) as H0.
  pose proof (count_cells_le (fun t => same_type t (squareType player)) g center_cells) as H1.
  fold (count_side g (squareType player) center_cells) in H0, H1.
  change (Z.of_nat (length center_cells)) with 6 in H1.
  pose proof (zsum_bounds (-5) 5
                (map (fun w => window_points (count_empty g w)
                                 (count_mine g (squareType player) w)) scan_runs)) as H2.
  rewrite length_map in H2. change (Z.of_nat (length scan_runs)) with 69 in H2.
  assert (Forall (fun v => -5 <= v <= 5)
            (map (fun w => window_points (count_empty g w)
                             (count_mine g (squareType player) w)) scan_runs)) as HF.
  { apply Forall_fmap, Forall_forall. intros w Hw. simpl.
    apply window_points_small; assumption. }
  specialize (H2 HF). lia.
Qed.

(** X10 ([_getScore]): while the game is not over on a board, its score for
    a side is between -345 and 369, so strictly between [OPP_WIN_POINTS] and
    [WIN_POINTS]: the search never takes the heuristic value of an
    unfinished position for a win or a defeat. *)
Theorem getScore_between_defeat_and_win g player :
  squareType player <> EMPTY ->
  over g = false ->
  -345 <= _getScore g player <= 369
  /\ OPP_WIN_POINTS < _getScore g player < WIN_POINTS.
Proof.
  intros Hs Hover. pose proof (getScore_range g player Hs Hover).
  unfold OPP_WIN_POINTS, WIN_POINTS. lia.
Qed.

Lemma getScore_between_defeat_and_win_witness :
  -345 <= _getScore empty_grid (mkPlayer None HUMAN RED) <= 369.
Proof.
  refine (proj1 (getScore_between_defeat_and_win empty_grid (mkPlayer None HUMAN RED) _ _)).
  - discriminate.
  - vm_compute. reflexivity.
Defined.

(** ** The values of the search *)

Lemma fold_max_Z (value : Z -> jsnum) (vz : Z -> Z) free z0 :
  (forall c, c ∈ free -> value c = Int (vz c)) ->
  fold_left (fun best pos => Math_max best (value pos)) free (Int z0)
  = Int (fold_left (fun b pos => Z.max b (vz pos)) free z0).
Proof.
  revert z0. induction free as [|c free IH]; intros z0 Hv; [reflexivity|].
  cbn [fold_left]. rewrite (Hv c) by apply list_elem_of_here.
  assert (Math_max (Int z0) (Int (vz c)) = Int (Z.max z0 (vz c))) as ->.
  { simpl. destruct (z0 <? vz c) eqn:E; f_equal; lia. }
  apply IH. intros c' Hc'. apply Hv. apply list_elem_of_further, Hc'.
Qed.

Lemma fold_min_Z (value : Z -> jsnum) (vz : Z -> Z) free z0 :
  (forall c, c ∈ free -> value c = Int (vz c)) ->
  fold_left (fun best pos => Math_min best (value pos)) free (Int z0)
  = Int (fold_left (fun b pos => Z.min b (vz pos)) free z0).
Proof.
  revert z0. induction free as [|c free IH]; intros z0 Hv; [reflexivity|].
  cbn [fold_left]. rewrite (Hv c) by apply list_elem_of_here.
  assert (Math_min (Int z0) (Int (vz c)) = Int (Z.min z0 (vz c))) as ->.
  { simpl. destruct (vz c <? z0) eqn:E; f_equal; lia. }
  apply IH. intros c' Hc'. apply Hv. apply list_elem_of_further, Hc'.
Qed.

Lemma zfold_max_spec (vz : Z -> Z) free z0 :
  z0 <= fold_left (fun b pos => Z.max b (vz pos)) free z0
  /\ (forall c, c ∈ free -> vz c <= fold_left (fun b pos => Z.max b (vz pos)) free z0)
  /\ (fold_left (fun b pos => Z.max b (vz pos)) free z0 = z0
      \/ exists c, c ∈ free /\ vz c = fold_left (fun b pos => Z.max b (vz pos)) free z0).
Proof.
  revert z0. induction free as [|c free IH]; intros z0; cbn [fold_left].
  - split_and!; [lia| |left; reflexivity]. intros c Hc. apply elem_of_nil in Hc. destruct Hc.
  - destruct (IH (Z.max z0 (vz c))) as (H1 & H2 & H3). split_and!.
    + lia.
    + intros c' Hc'. apply elem_of_cons in Hc'. destruct Hc' as [-> | Hc']; [lia|auto].
    + destruct H3 as [H3|(c' & Hc' & H3)].
      * destruct (Z.max_spec z0 (vz c)) as [[_ E]|[_ E]]; rewrite E in H3 |- *.
        -- right. exists c. split; [apply list_elem_of_here|]. lia.
        -- left. exact H3.
      * right. exists c'. split; [apply list_elem_of_further, Hc'|exact H3].
Qed.

Lemma zfold_min_spec (vz : Z -> Z) free z0 :
  fold_left (fun b pos => Z.min b (vz pos)) free z0 <= z0
  /\ (forall c, c ∈ free -> fold_left (fun b pos => Z.min b (vz pos)) free z0 <= vz c)
  /\ (fold_left (fun b pos => Z.min b (vz pos)) free z0 = z0
      \/ exists c, c ∈ free /\ vz c = fold_left (fun b pos => Z.min b (vz pos)) free z0).
Proof.
  revert z0. induction free as [|c free IH]; intros z0; cbn [fold_left].
  - split_and!; [lia| |left; reflexivity]. intros c Hc. apply elem_of_nil in Hc. destruct Hc.
  - destruct (IH (Z.min z0 (vz c))) as (H1 & H2 & H3). split_and!.
    + lia.
    + intros c' Hc'. apply elem_of_cons in Hc'. destruct Hc' as [-> | Hc']; [lia|auto].
    + destruct H3 as [H3|(c' & Hc' & H3)].
      * destruct (Z.min_spec z0 (vz c)) as [[_ E]|[_ E]]; rewrite E in H3 |- *.
        -- left. exact H3.
        -- right. exists c. split; [apply list_elem_of_here|]. lia.
      * right. exists c'. split; [apply list_elem_of_further, Hc'|exact H3].
Qed.

(** The maximum over the free columns, from [-Infinity]: an upper bound of
    the values that one of them reaches. *)
Lemma fold_max_attained (value : Z -> jsnum) (vz : Z -> Z) free :
  free <> [] -> (forall c, c ∈ free -> value c = Int (vz c)) ->
  exists M, fold_left (fun best pos => Math_max best (value pos)) free NegInf = Int M
            /\ (forall c, c ∈ free -> vz c <= M)
            /\ exists c, c ∈ free /\ vz c = M.
Proof.
  intros Hne Hv. destruct free as [|c0 free]; [congruence|]. cbn [fold_left].
  rewrite (Hv c0) by apply list_elem_of_here.
  change (Math_max NegInf (Int (vz c0))) with (Int (vz c0)).
  rewrite (fold_max_Z value vz) by (intros c Hc; apply Hv, list_elem_of_further, Hc).
  destruct (zfold_max_spec vz free (vz c0)) as (H1 & H2 & H3).
  eexists. split; [reflexivity|]. split.
  - intros c Hc. apply elem_of_cons in Hc. destruct Hc as [-> | Hc]; auto.
  - destruct H3 as [H3|(c & Hc & H3)].
    + exists c0. split; [apply list_elem_of_here|]. lia.
    + exists c. split; [apply list_elem_of_further, Hc|exact H3].
Qed.

Lemma fold_min_attained (value : Z -> jsnum) (vz : Z -> Z) free :
  free <> [] -> (forall c, c ∈ free -> value c = Int (vz c)) ->
  exists m, fold_left (fun best pos => Math_min best (value pos)) free PosInf = Int m
            /\ (forall c, c ∈ free -> m <= vz c)
            /\ exists c, c ∈ free /\ vz c = m.
Proof.
  intros Hne Hv. destruct free as [|c0 free]; [congruence|]. cbn [fold_left].
  rewrite (Hv c0) by apply list_elem_of_here.
  change (Math_min PosInf (Int (vz c0))) with (Int (vz c0)).
  rewrite (fold_min_Z value vz) by (intros c Hc; apply Hv, list_elem_of_further, Hc).
  destruct (zfold_min_spec vz free (vz c0)) as (H1 & H2 & H3).
  eexists. split; [reflexivity|]. split.
  - intros c Hc. apply elem_of_cons in Hc. destruct Hc as [-> | Hc]; auto.
  - destruct H3 as [H3|(c & Hc & H3)].
    + exists c0. split; [apply list_elem_of_here|]. lia.
    + exists c. split; [apply list_elem_of_further, Hc|exact H3].
Qed.

Lemma other_side_ne s : is_side s -> other_side s <> s.
Proof. intros [-> | ->]; discriminate. Qed.

(** The value of a leaf: [WIN_POINTS] when the scan names the searching
    side on a finished board, [OPP_WIN_POINTS] when it names the other
    side, and a value strictly between otherwise. *)
Lemma leaf_spec this g :
  is_side (squareType (currentPlayer this)) ->
  squareType (opponentPlayer this) = other_side (squareType (currentPlayer this)) ->
  exists z, leaf this g = Int z
            /\ OPP_WIN_POINTS <= z <= WIN_POINTS
            /\ (z = WIN_POINTS <->
                over g = true /\ _getSquareTypeWinner g = Some (squareType (currentPlayer this)))
            /\ (z = OPP_WIN_POINTS <->
                over g = true
                /\ _getSquareTypeWinner g = Some (squareType (opponentPlayer this))).
Proof.
  intros Hs Ho. pose proof (other_side_ne _ Hs) as Hne. rewrite <- Ho in Hne.
  unfold leaf. destruct (over g) eqn:Hover.
  - destruct (bool_decide (_getSquareTypeWinner g = Some (squareType (currentPlayer this))))
      eqn:E1.
    + apply bool_decide_eq_true in E1. eexists. split; [reflexivity|].
      unfold OPP_WIN_POINTS, WIN_POINTS. split_and!; try lia.
      * split; auto.
      * split; [lia|]. intros [_ E2]. rewrite E1 in E2. injection E2 as E2. congruence.
    + apply bool_decide_eq_false in E1.
      destruct (bool_decide (_getSquareTypeWinner g = Some (squareType (opponentPlayer this))))
        eqn:E2.
      * apply bool_decide_eq_true in E2. eexists. split; [reflexivity|].
        unfold OPP_WIN_POINTS, WIN_POINTS. split_and!; try lia.
        -- split; [lia|]. intros [_ E3]. contradiction.
        -- split; auto.
      * apply bool_decide_eq_false in E2. eexists. split; [reflexivity|].
        unfold OPP_WIN_POINTS, WIN_POINTS. split_and!; try lia.
        -- split; [lia|]. intros [_ E3]. contradiction.
        -- split; [lia|]. intros [_ E3]. contradiction.
  - eexists. split; [reflexivity|].
    pose proof (getScore_range g (currentPlayer this)) as Hr.
    apply is_side_not_empty in Hs. specialize (Hr Hs Hover).
    unfold OPP_WIN_POINTS, WIN_POINTS. split_and!; lia.
Qed.

(** The exhaustive search returns [WIN_POINTS] when the searching side wins
    by force within the depth, [OPP_WIN_POINTS] when the other side does,
    and a value strictly between otherwise. *)
Lemma minimax_bf_forced this depth g maximizing :
  is_side (squareType (currentPlayer this)) ->
  squareType (opponentPlayer this) = other_side (squareType (currentPlayer this)) ->
  exists z, minimax_bf this depth g maximizing = Int z
            /\ OPP_WIN_POINTS <= z <= WIN_POINTS
            /\ (z = WIN_POINTS <->
                forced_win this (squareType (currentPlayer this)) depth g maximizing)
            /\ (z = OPP_WIN_POINTS <->
                forced_win this (squareType (opponentPlayer this)) depth g maximizing).
Proof.
  intros Hs Ho. pose proof (other_side_ne _ Hs) as Hne. rewrite <- Ho in Hne.
  revert g maximizing. induction depth as [|d IH]; intros g maximizing.
  - cbn [minimax_bf forced_win]. apply leaf_spec; assumption.
  - cbn [minimax_bf forced_win]. destruct (over g) eqn:Hover.
    + destruct (leaf_spec this g Hs Ho) as (z & Hz & Hr & Hw & Hl).
      exists z. rewrite Hover in Hw, Hl. split_and!; auto; try lia.
      * rewrite Hw. tauto.
      * rewrite Hl. tauto.
    + pose proof (over_false_free _ Hover) as Hfree. destruct maximizing; cbn [negb].
      * set (value := fun pos => minimax_bf this d
                         (drop_grid g pos (squareType (currentPlayer this))) false).
        set (vz := fun c => match value c with Int z => z | _ => 0 end).
        assert (forall c, value c = Int (vz c)
                          /\ OPP_WIN_POINTS <= vz c <= WIN_POINTS
                          /\ (vz c = WIN_POINTS <->
                              forced_win this (squareType (currentPlayer this)) d
                                (drop_grid g c (squareType (currentPlayer this))) false)
                          /\ (vz c = OPP_WIN_POINTS <->
                              forced_win this (squareType (opponentPlayer this)) d
                                (drop_grid g c (squareType (currentPlayer this))) false)) as Hv.
        { intros c. unfold vz, value.
          destruct (IH (drop_grid g c (squareType (currentPlayer this))) false)
            as (z & -> & H). split; [reflexivity|exact H]. }
        destruct (fold_max_attained value vz (free_columns g) Hfree)
          as (M & HM & Hub & c0 & Hc0 & E0).
        { intros c _. apply Hv. }
        exists M. split; [exact HM|].
        rewrite bool_decide_eq_true_2 by reflexivity.
        rewrite bool_decide_eq_false_2 by exact (not_eq_sym Hne).
        destruct (Hv c0) as (_ & Hr0 & _). split_and!; try lia.
        -- split.
           ++ intros HW. exists c0. split; [exact Hc0|]. apply Hv. lia.
           ++ intros (c & Hc & Hf). apply Hv in Hf. specialize (Hub c Hc). lia.
        -- split.
           ++ intros HL c Hc. apply Hv. specialize (Hub c Hc).
              destruct (Hv c) as (_ & Hr & _). lia.
           ++ intros Hall. specialize (Hall c0 Hc0). apply Hv in Hall. lia.
      * set (value := fun pos => minimax_bf this d
                         (drop_grid g pos (squareType (opponentPlayer this))) true).
        set (vz := fun c => match value c with Int z => z | _ => 0 end).
        assert (forall c, value c = Int (vz c)
                          /\ OPP_WIN_POINTS <= vz c <= WIN_POINTS
                          /\ (vz c = WIN_POINTS <->
                              forced_win this (squareType (currentPlayer this)) d
                                (drop_grid g c (squareType (opponentPlayer this))) true)
                          /\ (vz c = OPP_WIN_POINTS <->
                              forced_win this (squareType (opponentPlayer this)) d
                                (drop_grid g c (squareType (opponentPlayer this))) true)) as Hv.
        { intros c. unfold vz, value.
          destruct (IH (drop_grid g c (squareType (opponentPlayer this))) true)
            as (z & -> & H). split; [reflexivity|exact H]. }
        destruct (fold_min_attained value vz (free_columns g) Hfree)
          as (M & HM & Hlb & c0 & Hc0 & E0).
        { intros c _. apply Hv. }
        exists M. split; [exact HM|].
        rewrite bool_decide_eq_false_2 by exact Hne.
        rewrite bool_decide_eq_true_2 by reflexivity.
        destruct (Hv c0) as (_ & Hr0 & _). split_and!; try lia.
        -- split.
           ++ intros HW c Hc. apply Hv. specialize (Hlb c Hc).
              destruct (Hv c) as (_ & Hr & _). lia.
           ++ intros Hall. specialize (Hall c0 Hc0). apply Hv in Hall. lia.
        -- split.
           ++ intros HL. exists c0. split; [exact Hc0|]. apply Hv. lia.
           ++ intros (c & Hc & Hf). apply Hv in Hf. specialize (Hlb c Hc). lia.
Qed.

(** X11 ([_minimax], values): with the initial window the search returns an
    integer between [OPP_WIN_POINTS] and [WIN_POINTS].  It returns
    [WIN_POINTS] when the searching side wins by force within the depth, and
    only then; it returns [OPP_WIN_POINTS] when the other side does, and
    only then. *)
Theorem minimax_finds_forced_wins this depth bd h isMaximizer :
  wf_board h bd ->
  is_side (squareType (currentPlayer this)) ->
  squareType (opponentPlayer this) = other_side (squareType (currentPlayer this)) ->
  exists z h',
    _minimax this depth bd NegInf PosInf isMaximizer false h = (Ok (Int z), h')
    /\ OPP_WIN_POINTS <= z <= WIN_POINTS
    /\ (z = WIN_POINTS <->
        forced_win this (squareType (currentPlayer this)) depth
          (Board.contents h bd) isMaximizer)
    /\ (z = OPP_WIN_POINTS <->
        forced_win this (squareType (opponentPlayer this)) depth
          (Board.contents h bd) isMaximizer).
Proof.
  intros Hwf Hs Ho.
  assert (is_side (squareType (opponentPlayer this))) as Hopp.
  { rewrite Ho. destruct Hs as [-> | ->]; [right|left]; reflexivity. }
  destruct (minimax_refines this depth bd NegInf PosInf isMaximizer false h Hs Hopp Hwf)
    as (h' & Hmm & _).
  destruct (minimax_bf_forced this depth (Board.contents h bd) isMaximizer Hs Ho)
    as (z & Hz & H).
  exists z, h'. split; [|exact H]. rewrite Hmm, minimax_g_exact, Hz. reflexivity.
Qed.

Lemma minimax_finds_forced_wins_witness :
  exists z h',
    _minimax sample_room 1 fresh_board NegInf PosInf true false fresh_store = (Ok (Int z), h')
    /\ OPP_WIN_POINTS <= z <= WIN_POINTS.
Proof.
  destruct (minimax_finds_forced_wins sample_room 1 fresh_board fresh_store true
              wf_fresh_board (or_introl eq_refl) eq_refl) as (z & h' & H1 & H2 & _).
  exists z, h'. split; [exact H1|exact H2].
Defined.

Lemma find_sorted_first (f : Z -> bool) l a :
  StronglySorted Z.lt l -> List.find f l = Some a ->
  a ∈ l /\ f a = true /\ forall b, b ∈ l -> f b = true -> a <= b.
Proof.
  induction 1 as [|x l Hs IH Hx]; simpl; [discriminate|].
  destruct (f x) eqn:E.
  - intros [= <-]. split_and!; [apply list_elem_of_here|exact E|].
    intros b Hb _. apply elem_of_cons in Hb. destruct Hb as [-> | Hb]; [lia|].
    eapply Forall_forall in Hx; eauto. lia.
  - intros Hf. destruct (IH Hf) as (Hin & Ha & Hmin). split_and!; auto.
    + apply list_elem_of_further, Hin.
    + intros b Hb Hfb. apply elem_of_cons in Hb. destruct Hb as [-> | Hb]; [congruence|auto].
Qed.

(** The column of the exhaustive search: the lowest free column whose value
    is the maximum. *)
Lemma best_column_bf_spec this depth g :
  over g = false ->
  exists c' M,
    best_column_bf this (S depth) g = Int c'
    /\ c' ∈ free_columns g
    /\ minimax_bf this depth (drop_grid g c' (squareType (currentPlayer this))) false = Int M
    /\ forall c, c ∈ free_columns g ->
         exists z, minimax_bf this depth
                     (drop_grid g c (squareType (currentPlayer this))) false = Int z
                   /\ z <= M /\ (z = M -> c' <= c).
Proof.
  intros Hover. pose proof (over_false_free _ Hover) as Hfree.
  unfold best_column_bf. simpl Nat.pred.
  set (value := fun pos => minimax_bf this depth
                 (drop_grid g pos (squareType (currentPlayer this))) false).
  set (vz := fun c => match value c with Int z => z | _ => 0 end).
  assert (forall c, value c = Int (vz c)) as Hv.
  { intros c. unfold vz. destruct (minimax_bf_Int this depth
      (drop_grid g c (squareType (currentPlayer this))) false) as [z Hz].
    unfold value. rewrite Hz. reflexivity. }
  destruct (fold_max_attained value vz (free_columns g) Hfree) as (M & HM & Hub & c0 & Hc0 & E0).
  { intros c _. apply Hv. }
  assert (HM' := HM). unfold value in HM'. cbv beta in HM'. rewrite HM'. clear HM'.
  destruct (List.find (fun pos => bool_decide (value pos = Int M)) (free_columns g))
    as [c'|] eqn:Ef; unfold value in Ef; cbv beta in Ef; rewrite Ef.
  - destruct (find_sorted_first _ _ _ (free_columns_sorted g) Ef) as (Hin & Hc' & Hmin).
    apply bool_decide_eq_true in Hc'.
    exists c', M. split_and!; auto.
    intros c Hc. exists (vz c). split_and!; auto.
    + apply Hv.
    + intros E. apply Hmin; [exact Hc|]. apply bool_decide_eq_true.
      change (value c = Int M). rewrite Hv, E. reflexivity.
  - exfalso. apply list_elem_of_In in Hc0.
    pose proof (find_none _ _ Ef c0 Hc0) as Hn. apply bool_decide_eq_false in Hn.
    apply Hn. change (value c0 = Int M). rewrite Hv, E0. reflexivity.
Qed.

(** X12 ([_minimax], the column): at the entry point, on a position that is
    not over, the search returns a free column.  If some column wins by force
    within the remaining depth, the column returned is the lowest of them,
    and a column that wins at once is one of them.  If some column keeps
    the other side from a forced win within the remaining depth, so does
    the column returned. *)
Theorem minimax_column_is_best this depth bd h :
  wf_board h bd ->
  is_side (squareType (currentPlayer this)) ->
  squareType (opponentPlayer this) = other_side (squareType (currentPlayer this)) ->
  over (Board.contents h bd) = false ->
  exists c' h',
    _minimax this (S depth) bd NegInf PosInf true true h = (Ok (Int c'), h')
    /\ c' ∈ free_columns (Board.contents h bd)
    /\ (forall c, c ∈ free_columns (Board.contents h bd) ->
          forced_win this (squareType (currentPlayer this)) depth
            (drop_grid (Board.contents h bd) c (squareType (currentPlayer this))) false ->
          forced_win this (squareType (currentPlayer this)) depth
            (drop_grid (Board.contents h bd) c' (squareType (currentPlayer this))) false
          /\ c' <= c)
    /\ (forall c, c ∈ free_columns (Board.contents h bd) ->
          _getSquareTypeWinner
            (drop_grid (Board.contents h bd) c (squareType (currentPlayer this)))
          = Some (squareType (currentPlayer this)) ->
          forced_win this (squareType (currentPlayer this)) depth
            (drop_grid (Board.contents h bd) c (squareType (currentPlayer this))) false)
    /\ (forall c, c ∈ free_columns (Board.contents h bd) ->
          ~ forced_win this (squareType (opponentPlayer this)) depth
              (drop_grid (Board.contents h bd) c (squareType (currentPlayer this))) false ->
          ~ forced_win this (squareType (opponentPlayer this)) depth
              (drop_grid (Board.contents h bd) c' (squareType (currentPlayer this))) false).
Proof.
  intros Hwf Hs Ho Hover.
  assert (is_side (squareType (opponentPlayer this))) as Hopp.
  { rewrite Ho. destruct Hs as [-> | ->]; [right|left]; reflexivity. }
  destruct (minimax_refines this (S depth) bd NegInf PosInf true true h Hs Hopp Hwf)
    as (h' & Hmm & _).
  rewrite minimax_g_best in Hmm by exact Hover.
  set (g := Board.contents h bd) in *.
  destruct (best_column_bf_spec this depth g Hover) as (c' & M & Hbest & Hin & HM & Hmax).
  exists c', h'. rewrite Hmm, Hbest. split; [reflexivity|]. split; [exact Hin|].
  destruct (minimax_bf_forced this depth
              (drop_grid g c' (squareType (currentPlayer this))) false Hs Ho)
    as (z' & Hz' & Hr' & Hw' & Hl').
  rewrite HM in Hz'. injection Hz' as <-.
  split_and!.
  - intros c Hc Hf.
    destruct (minimax_bf_forced this depth
                (drop_grid g c (squareType (currentPlayer this))) false Hs Ho)
      as (z & Hz & Hr & Hw & Hl).
    destruct (Hmax c Hc) as (z0 & Hz0 & Hle & Hmin).
    rewrite Hz in Hz0. injection Hz0 as <-. apply Hw in Hf.
    assert (z = M) as E by lia. split; [apply Hw'; lia|apply Hmin, E].
  - intros c Hc Hwin.
    assert (over (drop_grid g c (squareType (currentPlayer this))) = true) as Hov.
    { unfold over. rewrite Hwin. apply orb_true_r. }
    destruct depth; cbn [forced_win]; [split; assumption|]. rewrite Hov. exact Hwin.
  - intros c Hc Hnot Hf.
    destruct (minimax_bf_forced this depth
                (drop_grid g c (squareType (currentPlayer this))) false Hs Ho)
      as (z & Hz & Hr & Hw & Hl).
    destruct (Hmax c Hc) as (z0 & Hz0 & Hle & Hmin).
    rewrite Hz in Hz0. injection Hz0 as <-. apply Hl' in Hf.
    apply Hnot, Hl. lia.
Qed.

Lemma minimax_column_is_best_witness :
  exists c' h',
    _minimax sample_room 1 fresh_board NegInf PosInf true true fresh_store = (Ok (Int c'), h')
    /\ c' ∈ free_columns (Board.contents fresh_store fresh_board).
Proof.
  destruct (minimax_column_is_best sample_room 0 fresh_board fresh_store
              wf_fresh_board (or_introl eq_refl) eq_refl eq_refl) as (c' & h' & H1 & H2 & _).
  exists c', h'. split; [exact H1|exact H2].
Defined.

(** ** The end of the game *)

(** X13 ([getWinner]): the call throws while the game is in progress.  On a
    finished game it returns [null] when the scan finds no winner, and the
    board is then full; otherwise it returns one of the two players, the one
    whose side the scan names, and that side occupies four consecutive
    squares. *)
Theorem getWinner_cases this h :
  wf_room this h ->
  (over (Board.contents h (_board this)) = false ->
   getWinner this h
   = Throw "Cannot get the winner while the game is in progress."%string)
  /\ (over (Board.contents h (_board this)) = true ->
      _getSquareTypeWinner (Board.contents h (_board this)) = None ->
      getWinner this h = Ok None
      /\ forall x y, 0 <= x < cols -> 0 <= y < rows ->
                     sq (Board.contents h (_board this)) x y <> EMPTY)
  /\ (forall s, _getSquareTypeWinner (Board.contents h (_board this)) = Some s ->
        exists p, getWinner this h = Ok (Some p)
                  /\ (p = fst (_players this) \/ p = snd (_players this))
                  /\ squareType p = s
                  /\ has_run (Board.contents h (_board this)) s).
Proof.
  intros (_ & _ & _ & Hs & Ho). unfold getWinner. rewrite isOver_Ok.
  set (g := Board.contents h (_board this)). split_and!.
  - intros ->. reflexivity.
  - intros Hover Hnone. rewrite Hover, Hnone. split; [reflexivity|].
    apply free_columns_nil. unfold over in Hover. rewrite Hnone in Hover.
    rewrite bool_decide_eq_false_2 in Hover by (intros E; apply E; reflexivity).
    rewrite orb_false_r in Hover. destruct (free_columns g); [reflexivity|discriminate].
  - intros s Hwin. pose proof (winner_sound _ _ Hwin) as Hrun.
    assert (over g = true) as ->.
    { unfold over. rewrite Hwin. apply orb_true_r. }
    rewrite Hwin. eexists. split; [reflexivity|].
    destruct (same_type (squareType (fst (_players this))) s) eqn:E.
    + apply same_type_true in E. split_and!; auto.
    + apply same_type_false in E. split_and!; auto. rewrite Ho.
      destruct (has_run_sides _ _ Hrun) as [-> | ->], Hs as [Es | Es];
        rewrite Es in *; simpl; congruence.
Qed.

Lemma getWinner_cases_witness :
  getWinner (fst start_state) (snd start_state)
  = Throw "Cannot get the winner while the game is in progress."%string.
Proof.
  refine (proj1 (getWinner_cases (fst start_state) (snd start_state) _) _).
  - apply reachable_inv, reachable_start.
  - vm_compute. reflexivity.
Defined.

(** A finished game with a free column stays finished after a drop. *)
Lemma over_drop_grid g x t :
  over g = true -> x ∈ free_columns g -> over (drop_grid g x t) = true.
Proof.
  intros Hover Hfree. unfold over in Hover. apply orb_true_iff in Hover.
  destruct Hover as [Hfull|Hwin].
  - destruct (free_columns g); [|discriminate]. apply elem_of_nil in Hfree. destruct Hfree.
  - apply bool_decide_eq_true in Hwin.
    destruct (_getSquareTypeWinner g) as [s|] eqn:E; [|congruence].
    apply winner_sound in E. destruct E as (Hs & w & Hw & Hall).
    apply over_true. right. exists s. split; [exact Hs|]. exists w. split; [exact Hw|].
    eapply Forall_impl; [exact Hall|]. intros [cx cy] Hc. unfold sqc in *. simpl in *.
    rewrite <- Hc. apply drop_grid_keeps. rewrite Hc. exact Hs.
Qed.

Lemma plays_over this g x moves this' g' :
  plays this g x moves this' g' ->
  over g = true -> x ∈ free_columns g ->
  this' = this /\ g' = drop_grid g x (squareType (currentPlayer this)) /\ over g' = true.
Proof.
  intros Hp Hover Hfree.
  pose proof (over_drop_grid g x (squareType (currentPlayer this)) Hover Hfree) as Hd.
  destruct Hp; try congruence. auto.
Qed.

(** X14 ([play] on a finished game): [play] does not look whether the game
    is over before the drop.  On a game that was won, a call on a column
    with an empty square resolves: the mark of the current player is
    dropped, the turn stays where it is and no bot moves.  Whatever calls
    follow, the game stays over and the room keeps its current player. *)
Theorem game_over_is_final this h :
  wf_room this h ->
  over (Board.contents h (_board this)) = true ->
  (forall rnd x,
      x ∈ free_columns (Board.contents h (_board this)) ->
      exists h',
        play rnd (Int x) this h = Some (Resolved, this, h')
        /\ Board.contents h' (_board this)
           = drop_grid (Board.contents h (_board this)) x (squareType (currentPlayer this)))
  /\ (forall this' h',
        evolves (this, h) (this', h') ->
        this' = this /\ over (Board.contents h' (_board this')) = true).
Proof.
  intros Hroom Hover. split.
  - intros rnd x Hfree.
    destruct (play_cases rnd (Int x) this h Hroom)
      as [[m Hm]|(x' & moves & this' & h' & [= <-] & _ & Hplay & _ & Hp & Hb & _)].
    + exfalso. destruct (play_chain_plays 41 rnd 0 x this h Hroom Hfree)
        as (moves & this' & h' & Hplay & _).
      unfold play in Hm. change (Z.to_nat (rows * cols)) with 42%nat in Hm. congruence.
    + destruct (plays_over _ _ _ _ _ _ Hp Hover Hfree) as (-> & Hg & _).
      exists h'. split; [exact Hplay|exact Hg].
  - intros this' h' Hev.
    remember (this, h) as s eqn:Es. remember (this', h') as s' eqn:Es'.
    revert this h Hroom Hover Es this' h' Es'.
    induction Hev as [s|this0 h0 rnd pos out this1 h1 s Hplay Hout Hev IH];
      intros this h Hroom Hover Es this' h' Es'.
    + subst s. injection Es' as <- <-. auto.
    + injection Es as -> ->.
      destruct (play_cases rnd pos this h Hroom)
        as [[m Hm]|(x & moves & this2 & h2 & -> & Hfree & Hplay' & Hroom2 & Hp & _)].
      * rewrite Hm in Hplay. injection Hplay as <- _ _. destruct (Hout m eq_refl).
      * rewrite Hplay' in Hplay. injection Hplay as _ <- <-.
        destruct (plays_over _ _ _ _ _ _ Hp Hover Hfree) as (-> & _ & Hover2).
        apply (IH this h2 Hroom2 Hover2 eq_refl this' h' Es').
Qed.

Lemma game_over_is_final_witness :
  exists h',
    play (fun _ => 0%nat) (Int 2) (fst near_win_state) (<[2%nat := BLUE]> (snd near_win_state))
    = Some (Resolved, fst near_win_state, h')
    /\ Board.contents h' (_board (fst near_win_state))
       = drop_grid (Board.contents (<[2%nat := BLUE]> (snd near_win_state))
                      (_board (fst near_win_state))) 2
           (squareType (currentPlayer (fst near_win_state))).
Proof.
  refine (proj1 (game_over_is_final (fst near_win_state)
                   (<[2%nat := BLUE]> (snd near_win_state)) _ _) (fun _ => 0%nat) 2 _).
  - eapply wf_room_store; [apply reachable_inv, reachable_near_win|].
    apply wf_board_insert, reachable_inv, reachable_near_win.
  - vm_compute. reflexivity.
  - apply free_columns_spec. split; [unfold cols; lia|]. vm_compute. reflexivity.
Defined.

(** ** The calls of [play] *)

(** A call places one mark, or two when a bot answers. *)
Lemma plays_moves this h g x moves this' g' :
  wf_room this h ->
  plays this g x moves this' g' ->
  moves = [(_currentPlayer this, x)]
  \/ exists c, moves = [(_currentPlayer this, x); (_currentPlayer (swapPlayer this), c)]
               /\ type (currentPlayer this) = HUMAN
               /\ type (opponentPlayer this) <> HUMAN.
Proof.
  intros Hroom Hp. pose proof Hroom as (_ & Hcur & _).
  destruct Hp as [this g x Hover|this g x Hover Hh|this g x c moves this' g' Hover Hb Hc Hp];
    [left; reflexivity|left; reflexivity|].
  right. pose proof (wf_room_turns _ _ Hroom Hb) as Hhuman.
  remember (swapPlayer this) as this1 eqn:E1.
  destruct Hp as [this1 g1 c Hover1|this1 g1 c Hover1 Hh1
                  |this1 g1 c c2 moves this2 g2 Hover1 Hb1 Hc1 Hp1].
  - exists c. subst this1. split_and!; auto.
  - exists c. subst this1. split_and!; auto.
  - exfalso. subst this1. rewrite (swapPlayer_swap this Hcur) in Hb1. contradiction.
Qed.

(** X15 ([play], the outcomes): a call of [play] either throws before the
    promise is made and leaves the room and the board as they were, or
    returns a promise that is resolved; the promise is never rejected.
    [undefined] and [NaN] are refused by the board with its own message, the
    infinities as invalid positions.  A call that resolves places the mark
    of the caller and, when a bot answers a human, the mark of the bot:
    never more than two marks. *)
Theorem play_outcomes rnd pos this h :
  wf_room this h ->
  (pos = NaN -> play rnd pos this h = Some (Thrown "Column invalid."%string, this, h))
  /\ (pos = NegInf \/ pos = PosInf ->
      play rnd pos this h = Some (Thrown "The position is invalid."%string, this, h))
  /\ (exists out this' h',
         play rnd pos this h = Some (out, this', h')
         /\ (forall m, out <> Rejected m)
         /\ (forall m, out = Thrown m -> this' = this /\ h' = h)
         /\ (out = Resolved ->
             exists x moves,
               pos = Int x
               /\ wf_room this' h'
               /\ Board.contents h' (_board this')
                  = apply_moves (_players this) moves (Board.contents h (_board this))
               /\ (moves = [(_currentPlayer this, x)]
                   \/ exists c,
                        moves = [(_currentPlayer this, x);
                                 (_currentPlayer (swapPlayer this), c)]
                        /\ type (currentPlayer this) = HUMAN
                        /\ type (opponentPlayer this) <> HUMAN))).
Proof.
  intros Hroom. split_and!.
  - intros ->. reflexivity.
  - intros [-> | ->]; reflexivity.
  - destruct (play_cases rnd pos this h Hroom)
      as [[m Hm]|(x & moves & this' & h' & -> & Hfree & Hplay & Hroom' & Hp & Hb & Hps)].
    + exists (Thrown m), this, h. split_and!; auto; discriminate.
    + exists Resolved, this', h'. split_and!; auto; try discriminate.
      intros _. exists x, moves. split_and!; auto.
      * pose proof Hroom as (Hwf & _ & _ & Hs & Ho).
        apply (plays_inv _ _ _ _ _ _ Hp Hs Ho (wf_grid_contents _ _ Hwf)).
      * eapply plays_moves; eauto.
Qed.

Lemma play_outcomes_witness :
  play (fun _ => 0%nat) NaN (fst start_state) (snd start_state)
  = Some (Thrown "Column invalid."%string, fst start_state, snd start_state).
Proof.
  refine (proj1 (play_outcomes (fun _ => 0%nat) NaN (fst start_state) (snd start_state) _)
            eq_refl).
  apply reachable_inv, reachable_start.
Defined.

(** X16 ([passTurn]): while a column has an empty square, [passTurn] is a
    call of [play] on one of the free columns, and its promise is resolved.
    On a full board the column drawn is [undefined] and the call throws the
    error of the board, with nothing changed. *)
Theorem passTurn_cases rnd r this h :
  wf_room this h ->
  ((exists x y, 0 <= x < cols /\ 0 <= y < rows
                /\ sq (Board.contents h (_board this)) x y = EMPTY) ->
   exists c this' h',
     c ∈ free_columns (Board.contents h (_board this))
     /\ passTurn rnd r this h = play rnd (Int c) this h
     /\ play rnd (Int c) this h = Some (Resolved, this', h'))
  /\ ((forall x y, 0 <= x < cols -> 0 <= y < rows ->
                   sq (Board.contents h (_board this)) x y <> EMPTY) ->
      passTurn rnd r this h = Some (Thrown "Column invalid."%string, this, h)).
Proof.
  intros Hroom. unfold passTurn. rewrite getFree_Ok.
  set (g := Board.contents h (_board this)). split.
  - intros (x & y & Hx & Hy & He).
    assert (free_columns g <> []) as Hne.
    { intros E. apply (proj1 (free_columns_nil g) E x y Hx Hy He). }
    assert (0 < length (free_columns g))%nat as Hlen
      by (destruct (free_columns g); [congruence|simpl; lia]).
    destruct (at_index_free (free_columns g) (random_index r (length (free_columns g))))
      as (c & Hc & Hin); [apply random_index_lt, Hlen|].
    rewrite Hc.
    destruct (play_chain_plays 41 rnd 0 c this h Hroom Hin) as (moves & this' & h' & Hplay & _).
    exists c, this', h'. split_and!; auto.
  - intros Hfull. apply free_columns_nil in Hfull. rewrite Hfull. reflexivity.
Qed.

Lemma passTurn_cases_witness :
  exists c this' h',
    c ∈ free_columns (Board.contents (snd start_state) (_board (fst start_state)))
    /\ passTurn (fun _ => 0%nat) 3 (fst start_state) (snd start_state)
       = play (fun _ => 0%nat) (Int c) (fst start_state) (snd start_state)
    /\ play (fun _ => 0%nat) (Int c) (fst start_state) (snd start_state)
       = Some (Resolved, this', h').
Proof.
  refine (proj1 (passTurn_cases (fun _ => 0%nat) 3 (fst start_state) (snd start_state) _) _).
  - apply reachable_inv, reachable_start.
  - exists 0, 0. split_and!; try (unfold cols, rows; lia). vm_compute. reflexivity.
Defined.

(** ** The marks of the two sides *)

Lemma count_cells_same p g g' w :
  (forall c, c ∈ w -> sqc g' c = sqc g c) -> count_cells p g' w = count_cells p g w.
Proof.
  induction w as [|c w IH]; intros H; [reflexivity|].
  rewrite !count_cells_cons, (H c) by apply list_elem_of_here.
  rewrite IH; [reflexivity|]. intros c' Hc'. apply H, list_elem_of_further, Hc'.
Qed.

(** The count over squares listed once, when one square changes. *)
Lemma count_cells_update p g g' w c :
  NoDup w -> c ∈ w ->
  (forall c', c' ∈ w -> c' <> c -> sqc g' c' = sqc g c') ->
  count_cells p g' w
  = count_cells p g w - Z.b2z (p (sqc g c)) + Z.b2z (p (sqc g' c)).
Proof.
  induction 1 as [|a w Ha Hnd IH]; intros Hin Hsame.
  - apply elem_of_nil in Hin. destruct Hin.
  - rewrite !count_cells_cons. destruct (decide (a = c)) as [->|Hne].
    + rewrite (count_cells_same p g g' w); [lia|].
      intros c' Hc'. apply Hsame; [apply list_elem_of_further, Hc'|]. congruence.
    + apply elem_of_cons in Hin. destruct Hin as [->|Hin]; [congruence|].
      rewrite (Hsame a) by (auto; apply list_elem_of_here).
      rewrite IH; [lia|exact Hin|].
      intros c' Hc' Hne'. apply Hsame; [apply list_elem_of_further, Hc'|exact Hne'].
Qed.

Lemma all_cells_NoDup : NoDup all_cells.
Proof. refine (bool_decide_unpack _ _). vm_compute. exact I. Qed.

Lemma all_cells_spec x y : 0 <= x < cols -> 0 <= y < rows -> (x, y) ∈ all_cells.
Proof.
  intros Hx Hy. col_cases x; row_cases y;
    refine (bool_decide_unpack _ _); vm_compute; exact I.
Qed.

(** A drop adds one mark of the dropped side and none of the other. *)
Lemma count_side_drop g x t s :
  wf_grid g -> x ∈ free_columns g -> s <> EMPTY ->
  count_side (drop_grid g x t) s all_cells
  = count_side g s all_cells + Z.b2z (same_type t s).
Proof.
  intros Hwf Hfree Hs.
  destruct (drop_grid_spec g x t Hfree) as (y & _ & -> & Hx & Hy & He & _).
  unfold count_side.
  rewrite (count_cells_update _ g (grid_set g x y t) all_cells (x, y)).
  - unfold sqc. cbn [fst snd]. rewrite He, sq_grid_set_eq by assumption.
    rewrite (proj2 (same_type_false EMPTY s)) by congruence. simpl. lia.
  - apply all_cells_NoDup.
  - apply all_cells_spec; assumption.
  - intros [cx cy] _ Hne. unfold sqc. cbn [fst snd].
    apply sq_grid_set_ne; try lia. congruence.
Qed.

Lemma new_Room_current_blue firstPlayer secondPlayer secondType r h0 this h :
  new_Room firstPlayer secondPlayer secondType r h0 = (Ok this, h) ->
  squareType (currentPlayer this) = BLUE.
Proof.
  assert ((if bool_decide (secondType = HUMAN) then random_index r 2 else 0%nat) < 2)%nat as Hcur.
  { destruct (bool_decide _); [apply random_index_lt|]; lia. }
  unfold new_Room, bind, ret. rewrite new_board.
  remember (if bool_decide (secondType = HUMAN) then random_index r 2 else 0%nat) as cur.
  intros [= <- <-]. clear Heqcur. destruct cur as [|[|n]]; [reflexivity|reflexivity|lia].
Qed.

Lemma balanced_drop this g x :
  (_currentPlayer this < 2)%nat ->
  is_side (squareType (fst (_players this))) ->
  squareType (snd (_players this)) = other_side (squareType (fst (_players this))) ->
  wf_grid g -> x ∈ free_columns g ->
  balanced this g ->
  balanced (swapPlayer this) (drop_grid g x (squareType (currentPlayer this))).
Proof.
  intros Hcur Hs Ho Hwf Hfree. unfold balanced.
  rewrite !count_side_drop by (auto; discriminate).
  destruct this as [b [p0 p1] [|[|c]]]; unfold currentPlayer, swapPlayer;
    cbn [_board _players _currentPlayer player_at fst snd Nat.add Nat.modulo] in *; try lia;
    simpl; rewrite ?Ho; destruct Hs as [-> | ->]; simpl; lia.
Qed.

Lemma plays_balanced this g x moves this' g' :
  plays this g x moves this' g' ->
  (_currentPlayer this < 2)%nat ->
  is_side (squareType (fst (_players this))) ->
  squareType (snd (_players this)) = other_side (squareType (fst (_players this))) ->
  wf_grid g -> x ∈ free_columns g ->
  balanced this g ->
  over g' = true \/ balanced this' g'.
Proof.
  induction 1 as [this g x Hover|this g x Hover Hh
                  |this g x c moves this' g' Hover Hb Hc Hp IH];
    intros Hcur Hs Ho Hwf Hfree Hbal.
  - left. exact Hover.
  - right. apply balanced_drop; assumption.
  - apply IH; auto.
    + cbn [swapPlayer _currentPlayer]. apply Nat.mod_upper_bound. lia.
    + apply wf_drop_grid, Hwf.
    + apply balanced_drop; assumption.
Qed.

Lemma evolves_balanced s s' :
  evolves s s' ->
  wf_room (fst s) (snd s) ->
  over (Board.contents (snd s) (_board (fst s))) = true
  \/ balanced (fst s) (Board.contents (snd s) (_board (fst s))) ->
  over (Board.contents (snd s') (_board (fst s'))) = true
  \/ balanced (fst s') (Board.contents (snd s') (_board (fst s'))).
Proof.
  induction 1 as [s|this h rnd pos out this' h' s Hplay Hout Hev IH]; intros Hroom Hinv;
    [exact Hinv|].
  cbn [fst snd] in *.
  destruct (play_cases rnd pos this h Hroom)
    as [[m Hm]|(x & moves & this2 & h2 & -> & Hfree & Hplay' & Hroom2 & Hp & _)].
  - rewrite Hm in Hplay. injection Hplay as <- _ _. destruct (Hout m eq_refl).
  - rewrite Hplay' in Hplay. injection Hplay as _ <- <-.
    apply IH; [exact Hroom2|].
    destruct Hinv as [Hover|Hbal].
    + left. apply (plays_over _ _ _ _ _ _ Hp Hover Hfree).
    + pose proof Hroom as (Hwf & Hcur & _ & Hs & Ho).
      eapply plays_balanced; eauto. apply wf_grid_contents, Hwf.
Qed.

(** X17 (the turns): in a match, while the game is in progress, the marks on
    the board are in balance with the turn: BLUE, who moved first, has as
    many marks as RED when the current player holds BLUE, and one more when
    the current player holds RED. *)
Theorem turns_alternate this h :
  reachable this h ->
  over (Board.contents h (_board this)) = false ->
  balanced this (Board.contents h (_board this)).
Proof.
  intros (fp & sp & ty & r & h0 & this0 & h1 & Hnew & Hev) Hover.
  destruct (new_Room_spec _ _ _ _ _ _ _ Hnew) as [Hroom0 Hc0].
  pose proof (new_Room_current_blue _ _ _ _ _ _ _ Hnew) as Hblue.
  destruct (evolves_balanced _ _ Hev) as [H|H]; cbn [fst snd] in *; auto; [|congruence].
  right. unfold balanced. rewrite Hc0, Hblue. reflexivity.
Qed.

Lemma turns_alternate_witness :
  balanced (fst near_win_state)
    (Board.contents (snd near_win_state) (_board (fst near_win_state))).
Proof.
  apply (turns_alternate (fst near_win_state) (snd near_win_state) reachable_near_win).
  vm_compute. reflexivity.
Defined.

(** ** The bots *)

Lemma sorted_head_least (l : list Z) c :
  StronglySorted Z.lt l -> l !! 0%nat = Some c -> forall c', c' ∈ l -> c <= c'.
Proof.
  intros Hs Hc c' Hin. destruct Hs as [|a l Hs Ha]; [discriminate|].
  injection Hc as <-. apply elem_of_cons in Hin. destruct Hin as [-> | Hin]; [lia|].
  eapply Forall_forall in Ha; eauto. lia.
Qed.

(** X18 (the stupid and the random bot): on a position that is not over the
    stupid bot chooses the lowest free column, and the random bot the free
    column that the draw designates in the increasing list of the free
    columns; neither touches the store. *)
Theorem list_bots_choice this r h :
  over (Board.contents h (_board this)) = false ->
  (type (currentPlayer this) = STUPID_BOT ->
   exists choose c,
     bot_choice this r = Some choose
     /\ choose h = (Ok (Int c), h)
     /\ c ∈ free_columns (Board.contents h (_board this))
     /\ forall c', c' ∈ free_columns (Board.contents h (_board this)) -> c <= c')
  /\ (type (currentPlayer this) = RANDOM_BOT ->
      exists choose c,
        bot_choice this r = Some choose
        /\ choose h = (Ok (Int c), h)
        /\ free_columns (Board.contents h (_board this))
           !! (r mod length (free_columns (Board.contents h (_board this))))%nat = Some c).
Proof.
  intros Hover. set (g := Board.contents h (_board this)) in *.
  pose proof (over_false_free g Hover) as Hne.
  assert (0 < length (free_columns g))%nat as Hlen
    by (destruct (free_columns g); [congruence|simpl; lia]).
  assert (forall i c, free_columns g !! i = Some c ->
            (do g <- read (_board this);
             do free <- lift (Board.getFree g);
             ret (at_index free i)) h = (Ok (Int c), h)) as Hrun.
  { intros i c Hc. unfold bind, read, lift, ret. fold g. rewrite getFree_Ok.
    unfold at_index. rewrite Hc. reflexivity. }
  split; intros Hty; unfold bot_choice; rewrite Hty.
  - destruct (free_columns g !! 0%nat) as [c|] eqn:Ec.
    + eexists _, c. split; [reflexivity|]. split_and!.
      * apply Hrun, Ec.
      * eapply list_elem_of_lookup_2; eauto.
      * apply sorted_head_least; [apply free_columns_sorted|exact Ec].
    + apply lookup_ge_None in Ec. lia.
  - assert (random_index r (length (free_columns g))
            = (r mod length (free_columns g))%nat) as Hri.
    { unfold random_index. destruct (length (free_columns g)); [lia|reflexivity]. }
    destruct (free_columns g !! (r mod length (free_columns g))%nat) as [c|] eqn:Ec.
    + eexists _, c. split; [reflexivity|]. split; [|reflexivity].
      unfold bind, read, lift, ret. fold g. rewrite getFree_Ok, Hri.
      unfold at_index. rewrite Ec. reflexivity.
    + apply lookup_ge_None in Ec.
      pose proof (Nat.mod_upper_bound r (length (free_columns g))). lia.
Qed.

Lemma list_bots_choice_witness :
  exists choose c,
    bot_choice bot_turn_room 0 = Some choose
    /\ choose fresh_store = (Ok (Int c), fresh_store)
    /\ c ∈ free_columns (Board.contents fresh_store (_board bot_turn_room))
    /\ forall c', c' ∈ free_columns (Board.contents fresh_store (_board bot_turn_room)) ->
                  c <= c'.
Proof.
  refine (proj1 (list_bots_choice bot_turn_room 0 fresh_store _) _).
  - vm_compute. reflexivity.
  - reflexivity.
Defined.

(** The search at depth 1 on a position where the mover can win at once:
    the lowest column that wins at once. *)
Lemma minimax_depth1_wins this bd h c :
  wf_board h bd ->
  is_side (squareType (currentPlayer this)) ->
  squareType (opponentPlayer this) = other_side (squareType (currentPlayer this)) ->
  over (Board.contents h bd) = false ->
  c ∈ free_columns (Board.contents h bd) ->
  _getSquareTypeWinner (drop_grid (Board.contents h bd) c (squareType (currentPlayer this)))
  = Some (squareType (currentPlayer this)) ->
  exists c' h',
    _minimax this 1 bd NegInf PosInf true true h = (Ok (Int c'), h')
    /\ extends h h'
    /\ c' ∈ free_columns (Board.contents h bd)
    /\ c' <= c
    /\ _getSquareTypeWinner
         (drop_grid (Board.contents h bd) c' (squareType (currentPlayer this)))
       = Some (squareType (currentPlayer this)).
Proof.
  intros Hwf Hs Ho Hover Hc Hwin.
  assert (is_side (squareType (opponentPlayer this))) as Hopp.
  { rewrite Ho. destruct Hs as [-> | ->]; [right|left]; reflexivity. }
  destruct (minimax_refines this 1 bd NegInf PosInf true true h Hs Hopp Hwf)
    as (h' & Hmm & Hext).
  rewrite minimax_g_best in Hmm by exact Hover.
  set (g := Board.contents h bd) in *.
  destruct (best_column_bf_spec this 0 g Hover) as (c' & M & Hbest & Hin & HM & Hmax).
  exists c', h'. rewrite Hmm, Hbest. split_and!; auto.
  - destruct (Hmax c Hc) as (z & Hz & Hle & Hmin). apply Hmin.
    destruct (leaf_spec this (drop_grid g c (squareType (currentPlayer this))) Hs Ho)
      as (z1 & Hz1 & Hr1 & Hw1 & _).
    destruct (leaf_spec this (drop_grid g c' (squareType (currentPlayer this))) Hs Ho)
      as (z2 & Hz2 & Hr2 & _).
    cbn [minimax_bf] in Hz, HM. rewrite Hz1 in Hz. rewrite Hz2 in HM.
    injection Hz as <-. injection HM as <-.
    assert (z1 = WIN_POINTS); [|lia].
    apply Hw1. split; [|exact Hwin]. unfold over. rewrite Hwin. apply orb_true_r.
  - destruct (Hmax c Hc) as (z & Hz & Hle & Hmin).
    destruct (leaf_spec this (drop_grid g c (squareType (currentPlayer this))) Hs Ho)
      as (z1 & Hz1 & Hr1 & Hw1 & _).
    destruct (leaf_spec this (drop_grid g c' (squareType (currentPlayer this))) Hs Ho)
      as (z2 & Hz2 & Hr2 & Hw2 & _).
    cbn [minimax_bf] in Hz, HM. rewrite Hz1 in Hz. rewrite Hz2 in HM.
    injection Hz as <-. injection HM as <-.
    assert (z1 = WIN_POINTS) as E1.
    { apply Hw1. split; [|exact Hwin]. unfold over. rewrite Hwin. apply orb_true_r. }
    apply Hw2. lia.
Qed.

(** X19 (the easy bot wins when it can): a human plays a column against the
    easy bot and the game goes on.  If the bot then has a column that gives
    it four in a line at once, the same call of [play] makes the bot play
    the lowest such column: the call resolves with the game over, the turn
    on the bot, and [getWinner] returns the bot. *)
Theorem easy_bot_wins_at_once this h rnd x c :
  wf_room this h ->
  type (opponentPlayer this) = EASY_BOT ->
  x ∈ free_columns (Board.contents h (_board this)) ->
  over (drop_grid (Board.contents h (_board this)) x (squareType (currentPlayer this)))
  = false ->
  c ∈ free_columns
        (drop_grid (Board.contents h (_board this)) x (squareType (currentPlayer this))) ->
  _getSquareTypeWinner
    (drop_grid
       (drop_grid (Board.contents h (_board this)) x (squareType (currentPlayer this)))
       c (squareType (opponentPlayer this)))
  = Some (squareType (opponentPlayer this)) ->
  exists c' this' h',
    play rnd (Int x) this h = Some (Resolved, this', h')
    /\ c' <= c
    /\ Board.contents h' (_board this')
       = drop_grid
           (drop_grid (Board.contents h (_board this)) x (squareType (currentPlayer this)))
           c' (squareType (opponentPlayer this))
    /\ _getSquareTypeWinner (Board.contents h' (_board this'))
       = Some (squareType (opponentPlayer this))
    /\ currentPlayer this' = opponentPlayer this
    /\ getWinner this' h' = Ok (Some (opponentPlayer this)).
Proof.
  intros Hroom Hbot Hfree Hover Hc Hwin.
  pose proof Hroom as (Hwf & Hcur & _).
  destruct (wf_room_sides _ _ Hroom) as (Hme & Hopp & Hoo).
  unfold play. change (S (Z.to_nat (rows * cols))) with (S (S 41)).
  destruct (play_chain_valid (S 41) rnd 0 x this h Hwf Hme Hfree) as (h1 & Hwf1 & Hg1 & ->).
  set (g := Board.contents h (_board this)) in *.
  set (g1 := drop_grid g x (squareType (currentPlayer this))) in *.
  rewrite Hover.
  pose proof (wf_room_swap _ _ (wf_room_store _ _ _ Hroom Hwf1)) as Hroom1.
  destruct (wf_room_sides _ _ Hroom1) as (Hme1 & Hopp1 & Hoo1).
  assert (currentPlayer (swapPlayer this) = opponentPlayer this) as Hsw by reflexivity.
  unfold bot_choice. rewrite Hsw, Hbot.
  destruct (minimax_depth1_wins (swapPlayer this) (_board this) h1 c)
    as (c' & h2 & Hmm & Hext & Hin & Hle & Hwin'); auto.
  { rewrite Hg1. exact Hover. }
  { rewrite Hg1. exact Hc. }
  { rewrite Hg1, Hsw. exact Hwin. }
  cbn [_board swapPlayer] in *. rewrite Hmm.
  rewrite Hg1 in Hin, Hwin'. rewrite Hsw in Hwin'.
  assert (wf_board h2 (_board (swapPlayer this))) as Hwf2
    by (eapply wf_board_extends; eauto).
  assert (Board.contents h2 (_board (swapPlayer this)) = g1) as Hg2.
  { cbn [_board swapPlayer]. rewrite (contents_extends _ _ _ Hwf1 Hext). exact Hg1. }
  destruct (play_chain_valid 41 rnd 1 c' (swapPlayer this) h2 Hwf2 Hme1)
    as (h3 & Hwf3 & Hg3 & ->); [rewrite Hg2; exact Hin|].
  rewrite Hg2 in *. rewrite Hsw in *.
  assert (over (drop_grid g1 c' (squareType (opponentPlayer this))) = true) as Hover3.
  { unfold over. rewrite Hwin'. apply orb_true_r. }
  rewrite Hover3.
  exists c', (swapPlayer this), h3. cbn [_board swapPlayer] in *.
  split_and!; auto.
  - rewrite Hg3. exact Hwin'.
  - rewrite <- Hsw. apply getWinner_current.
    + eapply wf_room_store; eauto.
    + cbn [_board swapPlayer]. rewrite Hg3. exact Hover3.
    + cbn [_board swapPlayer]. rewrite Hg3, Hsw. exact Hwin'.
Qed.

Lemma wf_easy_bot_room : wf_room easy_bot_room bot_threat_store.
Proof.
  unfold wf_room. split_and!; try reflexivity.
  - unfold bot_threat_store. repeat apply wf_board_insert. apply wf_fresh_board.
  - simpl. lia.
  - right. reflexivity.
Qed.

Lemma easy_bot_wins_at_once_witness :
  exists c' this' h',
    play (fun _ => 0%nat) (Int 6) easy_bot_room bot_threat_store = Some (Resolved, this', h')
    /\ c' <= 0
    /\ Board.contents h' (_board this')
       = drop_grid
           (drop_grid (Board.contents bot_threat_store (_board easy_bot_room)) 6
              (squareType (currentPlayer easy_bot_room)))
           c' (squareType (opponentPlayer easy_bot_room))
    /\ _getSquareTypeWinner (Board.contents h' (_board this'))
       = Some (squareType (opponentPlayer easy_bot_room))
    /\ currentPlayer this' = opponentPlayer easy_bot_room
    /\ getWinner this' h' = Ok (Some (opponentPlayer easy_bot_room)).
Proof.
  apply (easy_bot_wins_at_once easy_bot_room bot_threat_store (fun _ => 0%nat) 6 0
           wf_easy_bot_room eq_refl).
  - apply free_columns_spec. split; [unfold cols; lia|]. vm_compute. reflexivity.
  - vm_compute. reflexivity.
  - apply free_columns_spec. split; [unfold cols; lia|]. vm_compute. reflexivity.
  - vm_compute. reflexivity.
Defined.

(** ** The length of a match *)

Lemma count_empty_drop g x t :
  wf_grid g -> x ∈ free_columns g -> t <> EMPTY ->
  count_empty (drop_grid g x t) all_cells = count_empty g all_cells - 1.
Proof.
  intros Hwf Hfree Ht.
  destruct (drop_grid_spec g x t Hfree) as (y & _ & -> & Hx & Hy & He & _).
  unfold count_empty.
  rewrite (count_cells_update _ g (grid_set g x y t) all_cells (x, y)).
  - unfold sqc. cbn [fst snd]. rewrite He, sq_grid_set_eq by assumption.
    rewrite (proj2 (isEmpty_false t) Ht). simpl. lia.
  - apply all_cells_NoDup.
  - apply all_cells_spec; assumption.
  - intros [cx cy] _ Hne. unfold sqc. cbn [fst snd].
    apply sq_grid_set_ne; try lia. congruence.
Qed.

Lemma plays_fills this g x moves this' g' :
  plays this g x moves this' g' ->
  (_currentPlayer this < 2)%nat ->
  is_side (squareType (fst (_players this))) ->
  squareType (snd (_players this)) = other_side (squareType (fst (_players this))) ->
  wf_grid g -> x ∈ free_columns g ->
  count_empty g' all_cells = count_empty g all_cells - Z.of_nat (length moves).
Proof.
  assert (forall this, (_currentPlayer this < 2)%nat ->
            is_side (squareType (fst (_players this))) ->
            squareType (snd (_players this)) = other_side (squareType (fst (_players this))) ->
            squareType (currentPlayer this) <> EMPTY) as Hside.
  { intros t Hc Hs Ho. apply is_side_not_empty. unfold currentPlayer.
    apply player_at_side; assumption. }
  induction 1 as [this g x Hover|this g x Hover Hh
                  |this g x c moves this' g' Hover Hb Hc Hp IH];
    intros Hcur Hs Ho Hwf Hfree.
  - rewrite count_empty_drop by auto. simpl. lia.
  - rewrite count_empty_drop by auto. simpl. lia.
  - rewrite IH; auto.
    + rewrite count_empty_drop by auto. simpl length. lia.
    + cbn [swapPlayer _currentPlayer]. apply Nat.mod_upper_bound. lia.
    + apply wf_drop_grid, Hwf.
Qed.

(** X20 (the length of a match): every accepted call of [play] fills one
    square of the board, or two when a bot answers, and none is ever
    emptied; so a sequence of accepted calls has at most as many calls as
    the board had empty squares, at most 42. *)
Theorem match_is_bounded rnd columns this h this' h' :
  wf_room this h ->
  play_all rnd columns (this, h) = Some (this', h') ->
  count_empty (Board.contents h' (_board this')) all_cells + Z.of_nat (length columns)
  <= count_empty (Board.contents h (_board this)) all_cells
  /\ (length columns <= 42)%nat.
Proof.
  intros Hroom Hall.
  assert (count_empty (Board.contents h' (_board this')) all_cells + Z.of_nat (length columns)
          <= count_empty (Board.contents h (_board this)) all_cells) as Hle.
  { revert this h Hroom Hall. induction columns as [|c columns IH]; intros this h Hroom Hall.
    - injection Hall as <- <-. simpl. lia.
    - cbn [play_all fst snd] in Hall.
      destruct (play_cases rnd (Int c) this h Hroom)
        as [[m Hm]|(x & moves & this2 & h2 & [= <-] & Hfree & Hplay & Hroom2 & Hp & _)].
      + rewrite Hm in Hall. discriminate.
      + rewrite Hplay in Hall. specialize (IH this2 h2 Hroom2 Hall).
        pose proof Hroom as (Hwf & Hcur & _ & Hs & Ho).
        pose proof (plays_fills _ _ _ _ _ _ Hp Hcur Hs Ho (wf_grid_contents _ _ Hwf) Hfree)
          as Hfill.
        assert (1 <= Z.of_nat (length moves)).
        { destruct Hp; simpl length; lia. }
        simpl length. lia. }
  split; [exact Hle|].
  pose proof (count_cells_nonneg isEmpty (Board.contents h' (_board this')) all_cells) as H0.
  pose proof (count_cells_le isEmpty (Board.contents h (_board this)) all_cells) as H1.
  fold (count_empty (Board.contents h' (_board this')) all_cells) in H0.
  fold (count_empty (Board.contents h (_board this)) all_cells) in H1.
  change (Z.of_nat (length all_cells)) with 42 in H1. lia.
Qed.

Lemma match_is_bounded_witness :
  count_empty (Board.contents (snd near_win_state) (_board (fst near_win_state))) all_cells
  + Z.of_nat (length [0; 1; 0; 1; 0; 1])
  <= count_empty (Board.contents (snd start_state) (_board (fst start_state))) all_cells.
Proof.
  refine (proj1 (match_is_bounded (fun _ => 0%nat) [0; 1; 0; 1; 0; 1]
                   (fst start_state) (snd start_state)
                   (fst near_win_state) (snd near_win_state) _ _)).
  - apply reachable_inv, reachable_start.
  - vm_compute. reflexivity.
Defined.

(** ** The players of a match *)

(** X21 (the room in a match): in every state of a match the turn pointer
    is on one of the two players, the first player is human, the two
    players hold the two sides, one each, and the board is well formed; the
    calls of [play] never change the players, their types or their sides,
    and never replace the board. *)
Theorem match_keeps_players this h :
  reachable this h ->
  (_currentPlayer this < 2)%nat
  /\ type (fst (_players this)) = HUMAN
  /\ is_side (squareType (currentPlayer this))
  /\ squareType (opponentPlayer this) = other_side (squareType (currentPlayer this))
  /\ wf_board h (_board this)
  /\ forall this' h',
       evolves (this, h) (this', h') ->
       _players this' = _players this /\ _board this' = _board this
       /\ wf_board h' (_board this).
Proof.
  intros Hreach. destruct (reachable_inv _ _ Hreach) as [Hroom _].
  pose proof Hroom as (Hwf & Hcur & Hty & _).
  destruct (wf_room_sides _ _ Hroom) as (Hme & _ & Ho).
  split_and!; auto.
  intros this' h' Hev.
  destruct (evolves_inv _ _ _ _ Hev Hroom) as ((Hwf' & _) & _ & _ & Hb & Hps).
  rewrite Hb in Hwf'. auto.
Qed.

Lemma match_keeps_players_witness :
  (_currentPlayer (fst near_win_state) < 2)%nat
  /\ type (fst (_players (fst near_win_state))) = HUMAN.
Proof.
  destruct (match_keeps_players (fst near_win_state) (snd near_win_state) reachable_near_win)
    as (H1 & H2 & _).
  split; [exact H1|exact H2].
Defined.

(** ** Drops in two columns *)

Lemma drop_insert h b x t u h' :
  wf_board h b ->
  Board.drop b (Int x) t h = (Ok u, h') ->
  exists y c a,
    0 <= x < cols /\ 0 <= y < rows /\ is_side t
    /\ b !! Z.to_nat x = Some c /\ c !! Z.to_nat y = Some a /\ (a < length h)%nat
    /\ Board.getFirstFreeSquarePos (Board.contents h b) (Int x) = Ok (Int y)
    /\ h' = <[a := t]> h.
Proof.
  intros Hwf. unfold Board.drop.
  destruct (Board.getFirstFreeSquarePos (Board.contents h b) (Int x)) as [r|] eqn:Hr;
    [|discriminate].
  intros Hset.
  destruct (getFirstFreeSquarePos_Ok _ _ _ Hr) as (x' & y & [= <-] & -> & Hx & Hy & He & Hab).
  destruct (setSquare_Ok _ _ _ _ _ _ _ Hwf Hset)
    as (xi & yi & c & a & [= <-] & [= <-] & _ & _ & Ht & Hc & Ha & _ & ->).
  destruct (wf_board_lookup h b x y Hwf Hx Hy) as (c' & a' & Hc' & Ha' & _ & Hlt).
  rewrite Hc in Hc'. injection Hc' as <-. rewrite Ha in Ha'. injection Ha' as <-.
  exists y, c, a. split_and!; auto; lia.
Qed.

(** The first free square of a column does not depend on the other
    columns. *)
Lemma getFirstFreeSquarePos_column g g' x :
  (forall y, sq g' x y = sq g x y) ->
  Board.getFirstFreeSquarePos g' (Int x) = Board.getFirstFreeSquarePos g (Int x).
Proof.
  intros Hsame. unfold Board.getFirstFreeSquarePos, Board.hasFreeSquare.
  destruct (Board.invalid (Int x) cols); [reflexivity|].
  rewrite upto_rows, downto_rows. cbn [for_return]. rewrite !Hsame. reflexivity.
Qed.

(** X22 (drops in two columns): two drops in different columns can be made
    in either order; both orders succeed and leave the same store, so the
    same board. *)
Theorem drops_commute h b x t x' t' u h1 u' h2 :
  wf_board h b ->
  x <> x' ->
  Board.drop b (Int x) t h = (Ok u, h1) ->
  Board.drop b (Int x') t' h1 = (Ok u', h2) ->
  exists h1',
    Board.drop b (Int x') t' h = (Ok tt, h1')
    /\ Board.drop b (Int x) t h1' = (Ok tt, h2).
Proof.
  intros Hwf Hne H1 H2.
  destruct (drop_insert _ _ _ _ _ _ Hwf H1)
    as (y & c & a & Hx & Hy & Ht & Hc & Ha & Hlt & Hf & ->).
  assert (wf_board (<[a := t]> h) b) as Hwf1 by (apply wf_board_insert, Hwf).
  destruct (drop_insert _ _ _ _ _ _ Hwf1 H2)
    as (y' & c' & a' & Hx' & Hy' & Ht' & Hc' & Ha' & Hlt' & Hf' & ->).
  rewrite length_insert in Hlt'.
  assert (a <> a') as Hneq.
  { intros <-. destruct Hwf as (_ & Hlen & Hnd & _).
    destruct (board_ref_inj b _ _ _ _ _ _ _ Hlen Hnd Hc Ha Hc' Ha') as [E _]. lia. }
  assert (Board.contents (<[a := t]> h) b = grid_set (Board.contents h b) x y t) as Hg1
    by (eapply contents_insert; eauto).
  assert (Board.contents (<[a' := t']> h) b = grid_set (Board.contents h b) x' y' t') as Hg2
    by (eapply contents_insert; eauto).
  assert (Board.getFirstFreeSquarePos (Board.contents h b) (Int x') = Ok (Int y')) as Hf0.
  { rewrite <- Hf'. symmetry. apply getFirstFreeSquarePos_column.
    intros y0. rewrite Hg1. destruct (Z_lt_le_dec y0 0) as [Hneg|Hpos].
    - unfold sq. rewrite (proj2 (Z.ltb_lt y0 0) Hneg), !orb_true_r. reflexivity.
    - apply sq_grid_set_ne; try lia. congruence. }
  assert (Board.getFirstFreeSquarePos (Board.contents (<[a' := t']> h) b) (Int x)
          = Ok (Int y)) as Hf1.
  { rewrite <- Hf. apply getFirstFreeSquarePos_column.
    intros y0. rewrite Hg2. destruct (Z_lt_le_dec y0 0) as [Hneg|Hpos].
    - unfold sq. rewrite (proj2 (Z.ltb_lt y0 0) Hneg), !orb_true_r. reflexivity.
    - apply sq_grid_set_ne; try lia. congruence. }
  assert (forall s, type_of a (<[a' := t']> s) = type_of a s) as Hta.
  { intros s. unfold type_of. rewrite list_lookup_insert_ne by congruence. reflexivity. }
  assert (forall s, type_of a' (<[a := t]> s) = type_of a' s) as Hta'.
  { intros s. unfold type_of. rewrite list_lookup_insert_ne by congruence. reflexivity. }
  pose proof (getFirstFreeSquarePos_Ok _ _ _ Hf) as (? & ? & [= <-] & [= <-] & _ & _ & He & _).
  pose proof (getFirstFreeSquarePos_Ok _ _ _ Hf0) as (? & ? & [= <-] & [= <-] & _ & _ & He' & _).
  rewrite (sq_contents h b x y c a) in He by (auto; lia).
  rewrite (sq_contents h b x' y' c' a') in He' by (auto; lia).
  exists (<[a' := t']> h). split.
  - unfold Board.drop. rewrite Hf0. unfold Board.setSquare, bind, lift, throw, setType.
    rewrite (proj2 (invalid_Int _ _) Hx'), (proj2 (invalid_Int _ _) Hy').
    apply is_side_not_empty in Ht'. rewrite (proj2 (same_type_false _ _) Ht').
    unfold Board.ref. rewrite Hc'. simpl. rewrite Ha'.
    unfold isEmpty at 1. rewrite He'. simpl.
    destruct t'; simpl; try congruence; reflexivity.
  - unfold Board.drop. rewrite Hf1. unfold Board.setSquare, bind, lift, throw, setType.
    rewrite (proj2 (invalid_Int _ _) Hx), (proj2 (invalid_Int _ _) Hy).
    apply is_side_not_empty in Ht. rewrite (proj2 (same_type_false _ _) Ht).
    unfold Board.ref. rewrite Hc. simpl. rewrite Ha.
    rewrite Hta. unfold isEmpty at 1. rewrite He. simpl.
    destruct t; simpl; try congruence; rewrite list_insert_insert_ne by congruence; reflexivity.
Qed.

Lemma drops_commute_witness :
  exists h1',
    Board.drop fresh_board (Int 1) BLUE fresh_store = (Ok tt, h1')
    /\ Board.drop fresh_board (Int 0) RED h1'
       = (Ok tt, <[11%nat := BLUE]> (<[5%nat := RED]> fresh_store)).
Proof.
  refine (drops_commute fresh_store fresh_board 0 RED 1 BLUE tt (<[5%nat := RED]> fresh_store)
            tt (<[11%nat := BLUE]> (<[5%nat := RED]> fresh_store)) wf_fresh_board _ _ _).
  - discriminate.
  - vm_compute. reflexivity.
  - vm_compute. reflexivity.
Defined.

(** ** The text of the board *)

Lemma sapp_assoc (a b c : string) :
  String.append (String.append a b) c = String.append a (String.append b c).
Proof. induction a as [|ch a IH]; simpl; [reflexivity|]. rewrite IH. reflexivity. Qed.

Lemma sapp_nil_r (a : string) : String.append a EmptyString = a.
Proof. induction a as [|ch a IH]; simpl; [reflexivity|]. rewrite IH. reflexivity. Qed.

Lemma sapp_inj_l (a b c : string) : String.append a b = String.append a c -> b = c.
Proof. induction a as [|ch a IH]; simpl; [auto|]. intros [= H]. auto. Qed.

Lemma concat_strings_app l1 l2 :
  concat_strings (l1 ++ l2) = String.append (concat_strings l1) (concat_strings l2).
Proof.
  induction l1 as [|s l1 IH]; simpl; [reflexivity|]. rewrite IH, sapp_assoc. reflexivity.
Qed.

Lemma pieces_text_app ps1 ps2 :
  pieces_text (ps1 ++ ps2) = String.append (pieces_text ps1) (pieces_text ps2).
Proof. unfold pieces_text. rewrite map_app. apply concat_strings_app. Qed.

Lemma concat_strings_cons s l :
  concat_strings (s :: l) = String.append s (concat_strings l).
Proof. reflexivity. Qed.

Lemma pieces_text_cons p ps :
  pieces_text (p :: ps) = String.append (piece_text p) (pieces_text ps).
Proof. reflexivity. Qed.

Lemma numbers_app m : View.numbers m = String.append m (View.numbers EmptyString).
Proof.
  unfold View.numbers. change (upto 2 (cols + 1)) with [2; 3; 4; 5; 6; 7].
  cbn [fold_left]. rewrite !sapp_assoc. reflexivity.
Qed.

(** A loop that appends a text at every turn. *)
Lemma forM_appends {A} (l : list A) (body : A -> string -> M string) (f : A -> string) s h :
  (forall a s, a ∈ l -> body a s h = (Ok (String.append s (f a)), h)) ->
  forM l body s h = (Ok (String.append s (concat_strings (map f l))), h).
Proof.
  revert s. induction l as [|a l IH]; intros s Hbody.
  - simpl. unfold ret. rewrite sapp_nil_r. reflexivity.
  - cbn [forM]. unfold bind. rewrite Hbody by apply list_elem_of_here.
    rewrite IH by (intros a' s' Ha'; apply Hbody, list_elem_of_further, Ha').
    simpl. rewrite sapp_assoc. reflexivity.
Qed.

Lemma upto_elem lo hi i : i ∈ upto lo hi -> lo <= i < hi.
Proof.
  unfold upto. intros H. apply list_elem_of_fmap in H. destruct H as (n & -> & Hn).
  apply elem_of_seq in Hn. lia.
Qed.

Lemma row_text g y :
  concat_strings
    (map (fun x => String.append (View.cell (sq g x y))
                     (if negb (x =? cols - 1) then View.bar else EmptyString))
       (upto 0 cols))
  = pieces_text (row_pieces g y).
Proof.
  unfold row_pieces. induction (upto 0 cols) as [|x l IH]; [reflexivity|].
  cbn [map flat_map]. rewrite concat_strings_cons, IH.
  destruct (negb (x =? cols - 1)); cbn [app]; rewrite !pieces_text_cons; cbn [piece_text].
  - rewrite sapp_assoc. reflexivity.
  - rewrite sapp_nil_r. reflexivity.
Qed.

(** The text of a well-formed board is made without an error, from its
    contents. *)
Lemma boardMsg_pieces h b :
  wf_board h b ->
  View.boardMsg b h = (Ok (pieces_text (board_pieces (Board.contents h b))), h).
Proof.
  intros Hwf. set (g := Board.contents h b).
  unfold View.boardMsg, bind.
  rewrite (forM_appends (upto 0 rows) _
             (fun y => String.append (pieces_text (row_pieces g y))
                         (String.append View.newline
                            (if negb (y =? rows - 1) then View.rule else EmptyString)))).
  - unfold ret. f_equal. f_equal. rewrite numbers_app.
    unfold board_pieces. rewrite !pieces_text_cons, pieces_text_app, pieces_text_cons.
    cbn [piece_text]. change (pieces_text []) with EmptyString.
    rewrite !sapp_assoc, sapp_nil_r. f_equal. f_equal. f_equal.
    induction (upto 0 rows) as [|y l IH]; [reflexivity|].
    cbn [map flat_map]. rewrite concat_strings_cons, pieces_text_app, IH. f_equal.
    rewrite pieces_text_app, pieces_text_cons. f_equal. cbn [piece_text]. f_equal.
    destruct (negb (y =? rows - 1)); reflexivity.
  - intros y s Hy. apply upto_elem in Hy.
    rewrite (forM_appends (upto 0 cols) _
               (fun x => String.append (View.cell (sq g x y))
                           (if negb (x =? cols - 1) then View.bar else EmptyString))).
    + unfold ret. f_equal. f_equal.
      rewrite row_text.
      destruct (negb (y =? rows - 1)); rewrite !sapp_assoc; [reflexivity|].
      rewrite sapp_nil_r. reflexivity.
    + intros x s' Hx. apply upto_elem in Hx.
      destruct (wf_board_lookup h b x y Hwf Hx Hy) as (c & a & Hc & Ha & _).
      unfold bind, lift, ret. rewrite (getSquare_Ok b x y c a) by assumption.
      rewrite <- (sq_contents h b x y c a) by (auto; lia). fold g.
      destruct (negb (x =? cols - 1)); rewrite ?sapp_assoc, ?sapp_nil_r; reflexivity.
Qed.

(** No text of a square begins another one: the text of a square and what
    follows it can be read back. *)
Lemma cell_inj t t' a b :
  String.append (View.cell t) a = String.append (View.cell t') b -> t = t' /\ a = b.
Proof.
  intros H. destruct t, t'; vm_compute in H; first [discriminate H | split; congruence].
Qed.

Lemma pieces_inj ps ps' :
  Forall2 same_shape ps ps' -> pieces_text ps = pieces_text ps' -> ps = ps'.
Proof.
  induction 1 as [|p p' ps ps' Hp Hps IH]; [reflexivity|].
  rewrite !pieces_text_cons. destruct p as [s|t], p' as [s'|t']; simpl in Hp; try contradiction.
  - subst s'. cbn [piece_text]. intros H. apply sapp_inj_l in H. f_equal. auto.
  - cbn [piece_text]. intros H. apply cell_inj in H. destruct H as [-> H]. f_equal. auto.
Qed.

Lemma board_pieces_shape g g' : Forall2 same_shape (board_pieces g) (board_pieces g').
Proof.
  unfold board_pieces, row_pieces. rewrite upto_rows, upto_cols.
  cbn [flat_map app negb Z.eqb Z.sub Z.add Z.opp Z.pos_sub Pos.pred_double Pos.eqb rows cols
       Z.succ_double Z.pred_double Z.double Pos.succ].
  repeat (constructor; [simpl; auto|]). constructor.
Qed.

Lemma flat_map_cells {A} (f : A -> list piece) l :
  cells_of (flat_map f l) = flat_map (fun a => cells_of (f a)) l.
Proof.
  unfold cells_of. induction l as [|a l IH]; [reflexivity|].
  cbn [flat_map]. rewrite flat_map_app, IH. reflexivity.
Qed.

(** The squares among the pieces of a board: its rows from the top, each
    from the left. *)
Lemma board_pieces_cells g :
  cells_of (board_pieces g)
  = flat_map (fun y => map (fun x => sq g x y) (upto 0 cols)) (upto 0 rows).
Proof.
  unfold board_pieces. unfold cells_of at 1. cbn [flat_map app].
  fold (cells_of (flat_map (fun y => row_pieces g y ++ Lit View.newline
                              :: (if negb (y =? rows - 1) then [Lit View.rule] else []))
                    (upto 0 rows) ++ [Lit (View.numbers EmptyString)])).
  unfold cells_of at 1. rewrite flat_map_app. cbn [flat_map app]. rewrite app_nil_r.
  fold (cells_of (flat_map (fun y => row_pieces g y ++ Lit View.newline
                              :: (if negb (y =? rows - 1) then [Lit View.rule] else []))
                    (upto 0 rows))).
  rewrite flat_map_cells. apply flat_map_ext. intros y.
  unfold cells_of. rewrite flat_map_app.
  assert (flat_map (fun p => match p with Cell t => [t] | Lit _ => [] end)
            (Lit View.newline :: (if negb (y =? rows - 1) then [Lit View.rule] else []))
          = []) as -> by (destruct (negb (y =? rows - 1)); reflexivity).
  rewrite app_nil_r. unfold row_pieces.
  induction (upto 0 cols) as [|x l IH]; [reflexivity|].
  cbn [flat_map map]. rewrite flat_map_app, IH.
  destruct (negb (x =? cols - 1)); reflexivity.
Qed.

(** X23 ([View._createBoardEmbed], the text of the board): for a
    well-formed board the text is made without an error and without a
    write, every [getSquare] being in range.  The text shows the rows from
    row 0 down, so row 0 is the top row, and it tells the board: two boards
    with the same text have the same contents. *)
Theorem board_text_tells_board h b :
  wf_board h b ->
  (exists text,
      View.boardMsg b h = (Ok text, h)
      /\ cells_of (board_pieces (Board.contents h b))
         = flat_map (fun y => map (fun x => sq (Board.contents h b) x y) (upto 0 cols))
                    (upto 0 rows)
      /\ text = pieces_text (board_pieces (Board.contents h b)))
  /\ (forall h' b',
        wf_board h' b' ->
        fst (View.boardMsg b' h') = fst (View.boardMsg b h) ->
        Board.contents h' b' = Board.contents h b).
Proof.
  intros Hwf. split.
  - eexists. split; [apply boardMsg_pieces, Hwf|]. split; [apply board_pieces_cells|reflexivity].
  - intros h' b' Hwf' Heq. rewrite !boardMsg_pieces in Heq by assumption. cbn [fst] in Heq.
    assert (pieces_text (board_pieces (Board.contents h' b'))
            = pieces_text (board_pieces (Board.contents h b))) as Heq' by congruence.
    clear Heq. rename Heq' into Heq. apply pieces_inj in Heq; [|apply board_pieces_shape].
    apply (f_equal cells_of) in Heq. rewrite !board_pieces_cells in Heq.
    apply grid_ext; try (apply wf_grid_contents; assumption).
    intros x y Hx Hy. rewrite upto_rows, upto_cols in Heq. cbn [flat_map map app] in Heq.
    col_cases x; row_cases y; congruence.
Qed.

Lemma board_text_tells_board_witness :
  exists text, View.boardMsg fresh_board fresh_store = (Ok text, fresh_store).
Proof.
  destruct (board_text_tells_board fresh_store fresh_board wf_fresh_board)
    as [(text & H & _) _].
  exists text. exact H.
Defined.

(** ** Whose turn it is *)

Lemma plays_human this g x moves this' g' :
  plays this g x moves this' g' ->
  over g' = true \/ type (currentPlayer this') = HUMAN.
Proof.
  induction 1 as [this g x Hover|this g x Hover Hh
                  |this g x c moves this' g' Hover Hb Hc Hp IH]; auto.
Qed.

Lemma evolves_human s s' :
  evolves s s' ->
  wf_room (fst s) (snd s) ->
  over (Board.contents (snd s) (_board (fst s))) = true
  \/ type (currentPlayer (fst s)) = HUMAN ->
  over (Board.contents (snd s') (_board (fst s'))) = true
  \/ type (currentPlayer (fst s')) = HUMAN.
Proof.
  induction 1 as [s|this h rnd pos out this' h' s Hplay Hout Hev IH]; intros Hroom Hinv;
    [exact Hinv|].
  cbn [fst snd] in *.
  destruct (play_cases rnd pos this h Hroom)
    as [[m Hm]|(x & moves & this2 & h2 & -> & Hfree & Hplay' & Hroom2 & Hp & _)].
  - rewrite Hm in Hplay. injection Hplay as <- _ _. destruct (Hout m eq_refl).
  - rewrite Hplay' in Hplay. injection Hplay as _ <- <-.
    apply IH; [exact Hroom2|]. eapply plays_human; eauto.
Qed.

Lemma new_Room_current_human firstPlayer secondPlayer secondType r h0 this h :
  new_Room firstPlayer secondPlayer secondType r h0 = (Ok this, h) ->
  type (currentPlayer this) = HUMAN.
Proof.
  assert ((if bool_decide (secondType = HUMAN) then random_index r 2 else 0%nat) < 2)%nat as Hcur.
  { destruct (bool_decide _); [apply random_index_lt|]; lia. }
  assert (secondType <> HUMAN ->
          (if bool_decide (secondType = HUMAN) then random_index r 2 else 0%nat) = 0%nat) as Hbot.
  { intros Hne. rewrite bool_decide_eq_false_2 by exact Hne. reflexivity. }
  unfold new_Room, bind, ret. rewrite new_board.
  remember (if bool_decide (secondType = HUMAN) then random_index r 2 else 0%nat) as cur.
  intros [= <- <-]. clear Heqcur. unfold currentPlayer. cbn [_players _currentPlayer].
  destruct cur as [|[|n]]; [reflexivity| |lia]. cbn [player_at snd type].
  destruct (decide (secondType = HUMAN)) as [E|E]; [exact E|]. specialize (Hbot E). discriminate.
Qed.

(** X24 (a bot never waits): in every state of a match in which the game is
    not over, the current player is human; a bot plays inside the call of
    [play] of its opponent and is never left with the turn. *)
Theorem human_to_move this h :
  reachable this h ->
  over (Board.contents h (_board this)) = false ->
  type (currentPlayer this) = HUMAN.
Proof.
  intros (fp & sp & ty & r & h0 & this0 & h1 & Hnew & Hev) Hover.
  destruct (new_Room_spec _ _ _ _ _ _ _ Hnew) as [Hroom0 _].
  destruct (evolves_human _ _ Hev) as [H|H]; cbn [fst snd] in *; auto; [|congruence].
  right. eapply new_Room_current_human; eauto.
Qed.

Lemma human_to_move_witness : type (currentPlayer (fst near_win_state)) = HUMAN.
Proof.
  apply (human_to_move (fst near_win_state) (snd near_win_state) reachable_near_win).
  vm_compute. reflexivity.
Defined.

(** ** The squares of a copy *)

(** X25 ([copy], the squares it makes): [copy()] allocates 84 squares.  The
    42 squares that [new Board()] made for the copy are replaced one by one
    and stay empty; the squares of the board returned are the last 42, all
    new and different from each other. *)
Theorem copy_allocates this h :
  wf_board h this ->
  exists c h',
    Board.copy this h = (Ok c, h')
    /\ length h' = (length h + 84)%nat
    /\ wf_board h' c
    /\ Forall (fun a => (length h + 42 <= a < length h + 84)%nat) (concat c)
    /\ (forall j, (j < 42)%nat -> type_of (length h + j) h' = EMPTY).
Proof.
  intros Hwf. destruct (copy_spec this h Hwf) as (c & h' & Hcopy & _ & Hwfc & _).
  exists c, h'. split; [exact Hcopy|]. rewrite copy_closed in Hcopy by exact Hwf.
  assert (board_of (copy_addr (length h) 42) = c
          /\ (h ++ replicate 42 EMPTY) ++ concat (Board.contents h this) = h') as [<- <-]
    by (split; congruence).
  clear Hcopy. pose proof (length_concat_contents h this Hwf) as Hlen.
  split_and!.
  - rewrite !length_app, length_replicate, Hlen. lia.
  - exact Hwfc.
  - rewrite concat_board_of. apply Forall_forall. intros a Ha.
    apply list_elem_of_fmap in Ha. destruct Ha as (j & -> & Hj). apply elem_of_seq in Hj.
    unfold copy_addr. replace (j <? 42)%nat with true by (symmetry; apply Nat.ltb_lt; lia). lia.
  - intros j Hj. unfold type_of.
    rewrite lookup_app_l by (rewrite length_app, length_replicate; lia).
    rewrite lookup_app_r by lia. replace (length h + j - length h)%nat with j by lia.
    rewrite lookup_replicate_2 by lia. reflexivity.
Qed.

Lemma copy_allocates_witness :
  exists c h',
    Board.copy fresh_board fresh_store = (Ok c, h')
    /\ length h' = (length fresh_store + 84)%nat.
Proof.
  destruct (copy_allocates fresh_board fresh_store wf_fresh_board) as (c & h' & H1 & H2 & _).
  exists c, h'. split; [exact H1|exact H2].
Defined.

(** ** Rooms in one store *)

Lemma frames_refl bd h : frames bd h h.
Proof. split; auto. Qed.

Lemma frames_trans bd h1 h2 h3 : frames bd h1 h2 -> frames bd h2 h3 -> frames bd h1 h3.
Proof.
  intros [L1 F1] [L2 F2]. split; [lia|].
  intros a Ha Hn. rewrite F2, F1 by (auto; lia). reflexivity.
Qed.

Lemma frames_extends bd h h' : extends h h' -> frames bd h h'.
Proof.
  intros [new ->]. split; [rewrite length_app; lia|].
  intros a Ha _. apply lookup_app_l. exact Ha.
Qed.

Lemma frames_insert bd h a t : a ∈ concat bd -> frames bd h (<[a := t]> h).
Proof.
  intros Hin. split; [rewrite length_insert; lia|].
  intros a' Ha' Hn. apply list_lookup_insert_ne. intros ->. contradiction.
Qed.

Lemma frames_contents bd h h' other :
  frames bd h h' -> wf_board h other ->
  (forall a, a ∈ concat other -> a ∉ concat bd) ->
  Board.contents h' other = Board.contents h other /\ wf_board h' other.
Proof.
  intros [Hlen Hfr] Hwf Hdis. pose proof Hwf as (H1 & H2 & H3 & H4). split.
  - unfold Board.contents. apply map_ext_in. intros col Hcol. apply map_ext_in. intros a Ha.
    assert (a ∈ concat other) as Hin.
    { apply list_elem_of_In. apply in_concat. exists col. split; assumption. }
    unfold type_of. rewrite Hfr; [reflexivity| |auto].
    rewrite Forall_forall in H4. apply H4, Hin.
  - split_and!; auto. eapply Forall_impl; [exact H4|]. simpl. intros a Ha. lia.
Qed.

(** A call of [play] writes squares of the board of the room only. *)
Lemma play_chain_frames f rnd k pos this h out this' h' :
  wf_room this h ->
  play_chain f rnd k pos this h = Some (out, this', h') ->
  frames (_board this) h h'.
Proof.
  revert rnd k pos this h out this' h'.
  induction f as [|f IH]; intros rnd k pos this h out this' h' Hroom Hplay; [discriminate|].
  cbn [play_chain] in Hplay.
  destruct (jlt pos (Int 0) || jge pos (Int cols));
    [injection Hplay as _ _ <-; apply frames_refl|].
  destruct (Board.hasFreeSquare (Board.contents h (_board this)) pos) as [[|]|m] eqn:Hfree;
    try (injection Hplay as _ _ <-; apply frames_refl).
  pose proof Hroom as (Hwf & Hcur & _).
  destruct (wf_room_sides _ _ Hroom) as (Hme & Hopp & _).
  destruct (Board.drop (_board this) pos (squareType (currentPlayer this)) h)
    as [[u|m] h1] eqn:Hdrop.
  2:{ apply drop_Throw in Hdrop. subst h1. injection Hplay as _ _ <-. apply frames_refl. }
  destruct (drop_Ok _ _ _ _ _ _ Hwf Hdrop)
    as (x & y & -> & _ & _ & _ & _ & _ & Hg1 & Hwf1 & _ & a & Hin & ->).
  pose proof (frames_insert (_board this) h a (squareType (currentPlayer this)) Hin) as F1.
  rewrite isOver_Ok in Hplay.
  destruct (over (Board.contents (<[a := squareType (currentPlayer this)]> h) (_board this)))
    eqn:Hover; [injection Hplay as _ _ <-; exact F1|].
  destruct (bot_choice (swapPlayer this) (rnd k)) as [choose|] eqn:Hchoice;
    [|injection Hplay as _ _ <-; exact F1].
  assert (type (currentPlayer (swapPlayer this)) <> HUMAN) as Hbot.
  { intros E. apply (bot_choice_None _ (rnd k)) in E. congruence. }
  pose proof (wf_room_swap _ _ (wf_room_store _ _ _ Hroom Hwf1)) as Hroom1.
  destruct (wf_room_sides _ _ Hroom1) as (Hme1 & Hopp1 & _).
  destruct (bot_choice_free (swapPlayer this) (rnd k)
              (<[a := squareType (currentPlayer this)]> h))
    as (choose' & c & h2 & E1 & E2 & Hc & Hext); auto.
  rewrite Hchoice in E1. injection E1 as <-. rewrite E2 in Hplay.
  assert (wf_room (swapPlayer this) h2) as Hroom2.
  { eapply wf_room_store; [exact Hroom1|]. eapply wf_board_extends; eauto. }
  destruct (play_chain f rnd (S k) (Int c) (swapPlayer this) h2) as [[[o t2] h3]|] eqn:Hrec;
    [|discriminate].
  pose proof (IH _ _ _ _ _ _ _ _ Hroom2 Hrec) as F3. cbn [_board swapPlayer] in F3.
  assert (h' = h3) as -> by (destruct o; congruence).
  eapply frames_trans; [exact F1|]. eapply frames_trans; [|exact F3].
  apply frames_extends, Hext.
Qed.

Lemma evolves_frames s s' :
  evolves s s' -> wf_room (fst s) (snd s) -> frames (_board (fst s)) (snd s) (snd s').
Proof.
  induction 1 as [s|this h rnd pos out this' h' s Hplay Hout Hev IH]; intros Hroom;
    [apply frames_refl|].
  cbn [fst snd] in *.
  pose proof (play_chain_frames _ _ _ _ _ _ _ _ _ Hroom Hplay) as F1.
  assert (evolves (this, h) (this', h')) as Hstep.
  { eapply evolves_play; eauto. apply evolves_refl. }
  destruct (evolves_inv _ _ _ _ Hstep Hroom) as (Hroom' & _ & _ & Hb & _).
  specialize (IH Hroom'). rewrite Hb in IH. eapply frames_trans; eauto.
Qed.

Lemma new_Room_fresh firstPlayer secondPlayer secondType r h0 this h :
  new_Room firstPlayer secondPlayer secondType r h0 = (Ok this, h) ->
  extends h0 h /\ Forall (fun a => (length h0 <= a)%nat) (concat (_board this)).
Proof.
  unfold new_Room, bind, ret. rewrite new_board.
  remember (replicate 42 EMPTY) as new eqn:En.
  remember (if bool_decide (secondType = HUMAN) then random_index r 2 else 0%nat) as cur.
  intros H.
  assert (_board this = board_of (copy_addr (length h0) 0) /\ h = h0 ++ new) as [-> ->].
  { injection H as <- <-. split; reflexivity. }
  split; [exists new; reflexivity|].
  rewrite concat_board_of. apply Forall_forall. intros a Ha.
  apply list_elem_of_fmap in Ha. destruct Ha as (j & -> & _). unfold copy_addr. simpl. lia.
Qed.

Lemma disjoint_boards h (old new : board) :
  wf_board h old -> Forall (fun a => (length h <= a)%nat) (concat new) ->
  (forall a, a ∈ concat old -> a ∉ concat new)
  /\ (forall a, a ∈ concat new -> a ∉ concat old).
Proof.
  intros (_ & _ & _ & Hlt) Hge. rewrite Forall_forall in Hlt, Hge.
  split; intros a H1 H2.
  - specialize (Hlt a H1). specialize (Hge a H2). lia.
  - specialize (Hlt a H2). specialize (Hge a H1). lia.
Qed.

(** X26 (two rooms in one store): the calls of [play] on a room write only
    squares of the board of that room and squares that the search makes.
    When two rooms are made one after the other, whatever calls are played
    on one of them, the board of the other shows the same contents. *)
Theorem rooms_are_isolated fp sp ty r fp' sp' ty' r' h0 roomA h1 roomB h2 :
  new_Room fp sp ty r h0 = (Ok roomA, h1) ->
  new_Room fp' sp' ty' r' h1 = (Ok roomB, h2) ->
  (forall roomA' h',
      evolves (roomA, h2) (roomA', h') ->
      Board.contents h' (_board roomB) = Board.contents h2 (_board roomB))
  /\ (forall roomB' h',
        evolves (roomB, h2) (roomB', h') ->
        Board.contents h' (_board roomA) = Board.contents h2 (_board roomA)).
Proof.
  intros HA HB.
  destruct (new_Room_spec _ _ _ _ _ _ _ HA) as [HroomA _].
  destruct (new_Room_spec _ _ _ _ _ _ _ HB) as [HroomB _].
  destruct (new_Room_fresh _ _ _ _ _ _ _ HB) as [Hext Hfresh].
  pose proof HroomA as (HwfA & _). pose proof HroomB as (HwfB & _).
  destruct (disjoint_boards h1 (_board roomA) (_board roomB) HwfA Hfresh) as [D1 D2].
  assert (wf_board h2 (_board roomA)) as HwfA2 by (eapply wf_board_extends; eauto).
  assert (wf_room roomA h2) as HroomA2 by (eapply wf_room_store; eauto).
  split.
  - intros roomA' h' Hev.
    pose proof (evolves_frames _ _ Hev HroomA2) as F. cbn [fst snd] in F.
    apply (frames_contents _ _ _ _ F HwfB D2).
  - intros roomB' h' Hev.
    pose proof (evolves_frames _ _ Hev HroomB) as F. cbn [fst snd] in F.
    apply (frames_contents _ _ _ _ F HwfA2 D1).
Qed.

Lemma rooms_are_isolated_witness :
  Board.contents (snd after_first_move) (_board easy_bot_second_room)
  = Board.contents two_rooms_store (_board easy_bot_second_room).
Proof.
  refine (proj1 (rooms_are_isolated None None HUMAN 0 None None EASY_BOT 0 []
                   (fst start_state) (snd start_state) easy_bot_second_room
                   two_rooms_store _ _)
            (fst after_first_move) (snd after_first_move) _).
  - vm_compute. reflexivity.
  - vm_compute. reflexivity.
  - apply (evolves_play (fst start_state) two_rooms_store (fun _ => 0%nat) (Int 0) Resolved
             (fst after_first_move) (snd after_first_move)).
    + vm_compute. reflexivity.
    + discriminate.
    + apply evolves_refl.
Defined.
